(** * libosmium core: segments, the OPL parser, PBF framing, location indexes

    A shallow embedding of the parts of libosmium that the specification
    talks about:

    - [osmium/area/segment.hpp]: [NodeRefSegment], its constructor,
      [to_left_of], [operator==], [operator<] and [outside_x_range];
    - [osmium/io/detail/opl_parser_functions.hpp]: the scalar parsers
      ([opl_parse_escaped], [opl_parse_string], [opl_parse_int] and the
      small ones), the parsers of tag, node and member lists, the four
      object parsers and [opl_parse_line];
    - [osmium/io/detail/pbf_input_format.hpp]: the framer [PBFParser] and
      the consumer side, [PBFInputFormat::read] and [header];
    - the id-to-location index family exercised by
      [test/t/index/test_id_to_location.cpp].

    Integers of a fixed width are [Z] with the wrap-around written out, and
    [None] where the source leaves an overflow undefined; C strings are
    lists of characters read up to the first NUL, exceptions are the [Err]
    branch of a result type. *)

From stdpp Require Import prelude gmap strings pretty sorting.
From Stdlib Require Import ZArith Lia Ascii.

Local Open Scope Z_scope.

(* ===================================================================== *)
(** ** Results: a value or a thrown exception                            *)
(* ===================================================================== *)

Inductive Result (E A : Type) : Type :=
| Ok (a : A)
| Err (e : E).
Arguments Ok {E A} a.
Arguments Err {E A} e.

(** Sequencing stops at the first exception; with these instances the
    notation [x ← r; k] reads as the statements of the source do. *)
#[global] Instance Result_bind {E} : MBind (Result E) := fun A B k r =>
  match r with
  | Ok a => k a
  | Err e => Err e
  end.

#[global] Instance Result_ret {E} : MRet (Result E) := fun A a => Ok a.

(* ===================================================================== *)
(** ** Fixed-width integers                                              *)
(* ===================================================================== *)

Definition INT32_MIN : Z := - 2 ^ 31.
Definition INT32_MAX : Z := 2 ^ 31 - 1.
Definition UINT32_MAX : Z := 2 ^ 32 - 1.
Definition INT64_MIN : Z := - 2 ^ 63.
Definition INT64_MAX : Z := 2 ^ 63 - 1.

Definition in_int64 (z : Z) : Prop := INT64_MIN <= z <= INT64_MAX.

(** Two's complement reduction of a mathematical integer to [int64_t]. *)
Definition wrap64 (z : Z) : Z := (z + 2 ^ 63) mod 2 ^ 64 - 2 ^ 63.

Definition mul64 (a b : Z) : Z := wrap64 (a * b).

(** The result of an operation on [int64_t] whose mathematical value is
    [z]: the source leaves the result of a signed overflow undefined, which
    is [None] here. *)
Definition checked64 (z : Z) : option Z :=
  if (INT64_MIN <=? z) && (z <=? INT64_MAX) then Some z else None.

(** Reduction to [uint32_t]. *)
Definition wrap_u32 (z : Z) : Z := z mod 2 ^ 32.

(* ===================================================================== *)
(** ** Locations, node references and segments                           *)
(* ===================================================================== *)

(** Modelled from the spec: [osmium/osm/location.hpp] is not among the
    sources.  A Location is a pair of signed 32-bit integers (x, y); the
    undefined Location has both components equal to INT32_MIN; equality is
    component-wise and the order is lexicographic on (x, y). *)
Record Location : Type := mkLocation { loc_x : Z; loc_y : Z }.

Definition undefined_location : Location := mkLocation INT32_MIN INT32_MIN.

Definition Location_eqb (a b : Location) : bool :=
  (loc_x a =? loc_x b) && (loc_y a =? loc_y b).

Definition Location_ltb (a b : Location) : bool :=
  (loc_x a <? loc_x b) || ((loc_x a =? loc_x b) && (loc_y a <? loc_y b)).

(** [a <= b] is [!(b < a)]. *)
Definition Location_leb (a b : Location) : bool := negb (Location_ltb b a).

(** The lexicographic order on (x, y), as a proposition. *)
Definition Location_le_lex (a b : Location) : Prop :=
  loc_x a < loc_x b \/ (loc_x a = loc_x b /\ loc_y a <= loc_y b).

Definition Location_valid (a : Location) : bool :=
  negb (Location_eqb a undefined_location).

(** Coordinates of the globe: longitudes within 180 degrees, latitudes
    within 90 degrees, scaled by 10^7. *)
Definition valid_coordinates (a : Location) : Prop :=
  (-1800000000 <= loc_x a <= 1800000000)
  /\ (-900000000 <= loc_y a <= 900000000).

(** [osmium::NodeRef]: an object id and a location. *)
Record NodeRef : Type := mkNodeRef { ref : Z; location : Location }.

(** [osmium::area::NodeRefSegment].  The role is a C string pointer that may
    be null; the way is a non-owning pointer, kept as an opaque handle. *)
Record NodeRefSegment : Type := mkSegment {
  m_first : NodeRef;
  m_second : NodeRef;
  m_role : option string;
  m_way : option Z
}.

Definition first (s : NodeRefSegment) : NodeRef := m_first s.
Definition second (s : NodeRefSegment) : NodeRef := m_second s.

Definition swap_locations (s : NodeRefSegment) : NodeRefSegment :=
  mkSegment (m_second s) (m_first s) (m_role s) (m_way s).

(** The four-argument constructor: members are initialised from the
    arguments, then swapped when [nr2.location() < nr1.location()]. *)
Definition NodeRefSegment_new (nr1 nr2 : NodeRef) (role : option string)
    (way : option Z) : NodeRefSegment :=
  let s := mkSegment nr1 nr2 role way in
  if Location_ltb (location nr2) (location nr1) then swap_locations s else s.

(** [std::minmax(a, b, comp)] returns a pair of references to its
    arguments: to [b] and [a] when [comp(b, a)], to [a] and [b] otherwise.
    [argument] names the argument a reference is bound to; here [comp]
    compares the y coordinates. *)
Inductive argument : Type := arg_a | arg_b.

Definition minmax_by_y (a b : Location) : argument * argument :=
  if loc_y b <? loc_y a then (arg_b, arg_a) else (arg_a, arg_b).

(** In [to_left_of] the arguments of [std::minmax] are the results of
    [first().location()] and [second().location()], and [mm] keeps the two
    references (line 116).  [osmium/osm/noderef.hpp] is not among the
    sources.  If [location()] returns a reference to the member, [mm] refers
    to the endpoints of the segment.  If it returns a copy, [mm] refers to
    two temporaries that are gone when the statement of line 116 ends, and
    lines 120 to 131 read them after their lifetime: what these reads give
    is not fixed by the source.  [temporaries] is what the two objects hold
    when they are read; they are taken to hold the same from line 120 to
    line 131. *)
Record temporaries : Type := mkTemporaries {
  temp_a : Location;
  temp_b : Location
}.

Definition deref (t : temporaries) (r : argument) : Location :=
  match r with
  | arg_a => temp_a t
  | arg_b => temp_b t
  end.

(** The two objects hold what the call was given: the endpoints
    themselves, or temporaries whose storage is still as it was. *)
Definition live (s : NodeRefSegment) : temporaries :=
  mkTemporaries (location (first s)) (location (second s)).

(** The two temporaries were given the same storage, which holds [l]. *)
Definition overlaid (l : Location) : temporaries := mkTemporaries l l.

(** Each of the two objects holds the location of one of the endpoints. *)
Definition reads_endpoints (t : temporaries) (s : NodeRefSegment) : Prop :=
  (temp_a t = location (first s) \/ temp_a t = location (second s))
  /\ (temp_b t = location (first s) \/ temp_b t = location (second s)).

(** The value computed by the last line of [to_left_of], every operation
    on [int64_t]. *)
Definition cross64 (a b p : Location) : option Z :=
  bx_ax ← checked64 (loc_x b - loc_x a);
  ly_ay ← checked64 (loc_y p - loc_y a);
  by_ay ← checked64 (loc_y b - loc_y a);
  lx_ax ← checked64 (loc_x p - loc_x a);
  left ← checked64 (bx_ax * ly_ay);
  right ← checked64 (by_ay * lx_ax);
  checked64 (left - right).

(** The same expression over the mathematical integers. *)
Definition cross (a b p : Location) : Z :=
  (loc_x b - loc_x a) * (loc_y p - loc_y a)
  - (loc_y b - loc_y a) * (loc_x p - loc_x a).

(** [to_left_of], given what the reads through [mm] find; [None] when the
    arithmetic overflows. *)
Definition to_left_of (t : temporaries) (s : NodeRefSegment) (loc : Location)
  : option bool :=
  if Location_eqb (location (first s)) loc
     || Location_eqb (location (second s)) loc
  then Some false
  else
    let mm := minmax_by_y (location (first s)) (location (second s)) in
    let mm_first := deref t (fst mm) in
    let mm_second := deref t (snd mm) in
    if (loc_y mm_first >=? loc_y loc)
       || (loc_y mm_second <? loc_y loc)
       || (loc_x (location (first s)) >? loc_x loc)
    then Some false
    else c ← cross64 mm_first mm_second loc; Some (c <=? 0).

(** The two endpoints ordered by y, as the specification has them: [a]
    with the smaller y and [b] with the larger. *)
Definition ordered_by_y (f g : Location) : Location * Location :=
  if loc_y g <? loc_y f then (g, f) else (f, g).

(** The predicate as the specification words it: the third rejection test
    reads the x coordinate of [a], the endpoint with the smaller y. *)
Definition to_left_of_spec (s : NodeRefSegment) (p : Location) : option bool :=
  if Location_eqb (location (first s)) p
     || Location_eqb (location (second s)) p
  then Some false
  else
    let a := fst (ordered_by_y (location (first s)) (location (second s))) in
    let b := snd (ordered_by_y (location (first s)) (location (second s))) in
    if (loc_y a >=? loc_y p) || (loc_y b <? loc_y p) || (loc_x a >? loc_x p)
    then Some false
    else c ← cross64 a b p; Some (c <=? 0).

(** The segment of the specification's example, from (0,0) to (10,10), and
    one that descends from (0,10) to (10,0). *)
Definition example_diagonal : NodeRefSegment :=
  NodeRefSegment_new (mkNodeRef 1 (mkLocation 0 0))
                     (mkNodeRef 2 (mkLocation 10 10)) None None.

Definition example_descending : NodeRefSegment :=
  NodeRefSegment_new (mkNodeRef 1 (mkLocation 0 10))
                     (mkNodeRef 2 (mkLocation 10 0)) None None.

(** [operator==] on segments. *)
Definition NodeRefSegment_eqb (lhs rhs : NodeRefSegment) : bool :=
  Location_eqb (location (first lhs)) (location (first rhs))
  && Location_eqb (location (second lhs)) (location (second rhs)).

(** [operator<] on segments. *)
Definition NodeRefSegment_ltb (lhs rhs : NodeRefSegment) : bool :=
  (Location_eqb (location (first lhs)) (location (first rhs))
   && Location_ltb (location (second lhs)) (location (second rhs)))
  || Location_ltb (location (first lhs)) (location (first rhs)).

(* ===================================================================== *)
(** ** OPL scalars: escapes, strings and integers                        *)
(* ===================================================================== *)

(** A [const char*] into a NUL-terminated line is the list of characters
    from the pointer on; dereferencing at the end of the list reads the
    terminating NUL, [++s] drops the head. *)
Definition NUL : ascii := "000"%char.

Definition peek (s : list ascii) : ascii :=
  match s with
  | [] => NUL
  | c :: _ => c
  end.

Definition char_code (c : ascii) : Z := Z.of_N (N_of_ascii c).
Definition char_of_code (z : Z) : ascii := ascii_of_N (Z.to_N (z mod 256)).

Definition chars (s : string) : list ascii := String.list_ascii_of_string s.

(** Exceptions raised while parsing OPL: [opl_error] carries its message and
    the data pointer (the rest of the line at the point of failure);
    [invalid_code_point] is what the UTF-8 encoder raises. *)
Inductive opl_exception : Type :=
| opl_error (what : string) (data : list ascii)
| invalid_code_point (cp : Z).

(** Modelled from the spec: [utf8.h] (the UTF-8 library the parser calls) is
    not among the sources.  [utf32to8] re-emits one Unicode scalar value as
    UTF-8: one to four bytes; a value that is no scalar (a surrogate, or
    above U+10FFFF) is refused with the encoder's own exception. *)
Definition is_code_point_valid (cp : Z) : bool :=
  (cp <=? 1114111) && negb ((55296 <=? cp) && (cp <=? 57343)).

Definition utf32to8 (cp : Z) : Result opl_exception (list ascii) :=
  if negb (is_code_point_valid cp) then Err (invalid_code_point cp)
  else if cp <? 128 then Ok [char_of_code cp]
  else if cp <? 2048 then
    Ok [char_of_code (Z.lor (Z.shiftr cp 6) 192);
        char_of_code (Z.lor (Z.land cp 63) 128)]
  else if cp <? 65536 then
    Ok [char_of_code (Z.lor (Z.shiftr cp 12) 224);
        char_of_code (Z.lor (Z.land (Z.shiftr cp 6) 63) 128);
        char_of_code (Z.lor (Z.land cp 63) 128)]
  else
    Ok [char_of_code (Z.lor (Z.shiftr cp 18) 240);
        char_of_code (Z.lor (Z.land (Z.shiftr cp 12) 63) 128);
        char_of_code (Z.lor (Z.land (Z.shiftr cp 6) 63) 128);
        char_of_code (Z.lor (Z.land cp 63) 128)].

Definition in_range (lo hi c : ascii) : bool :=
  (char_code lo <=? char_code c) && (char_code c <=? char_code hi).

(** The value of a hexadecimal digit, [None] for any other character. *)
Definition hex_digit (c : ascii) : option Z :=
  if in_range "0" "9" c then Some (char_code c - char_code "0")
  else if in_range "a" "f" c then Some (char_code c - char_code "a" + 10)
  else if in_range "A" "F" c then Some (char_code c - char_code "A" + 10)
  else None.

Definition is_hex (c : ascii) : Prop := is_Some (hex_digit c).

(** One step of the accumulator, as the loop body computes it. *)
Definition hex_step (v : Z) (c : ascii) : Z :=
  wrap_u32 (wrap_u32 (Z.shiftl v 4) + default 0 (hex_digit c)).

(** [const int max_length = sizeof(value) * 2], with [value] a [uint32_t]. *)
Definition max_length : nat := 8.

(** The loop of [opl_parse_escaped]: [n] is the number of iterations that
    [while (++length <= max_length)] still grants.  It returns the new data
    pointer and the extended result string. *)
Fixpoint opl_parse_escaped_loop (n : nat) (s : list ascii) (value : Z)
    (result : list ascii) : Result opl_exception (list ascii * list ascii) :=
  match n with
  | O => Err (opl_error "hex escape too long" s)
  | S n' =>
    if Ascii.eqb (peek s) NUL then Err (opl_error "eol" s)
    else if Ascii.eqb (peek s) "%" then
      bytes ← utf32to8 value; Ok (tail s, result ++ bytes)
    else
      let value := wrap_u32 (Z.shiftl value 4) in
      match hex_digit (peek s) with
      | Some d => opl_parse_escaped_loop n' (tail s) (wrap_u32 (value + d)) result
      | None => Err (opl_error "not a hex char" s)
      end
  end.

Definition opl_parse_escaped (data : list ascii) (result : list ascii)
  : Result opl_exception (list ascii * list ascii) :=
  opl_parse_escaped_loop max_length data 0 result.

Definition is_string_end (c : ascii) : bool :=
  Ascii.eqb c NUL || Ascii.eqb c " " || Ascii.eqb c "009"
  || Ascii.eqb c "," || Ascii.eqb c "=".

(** The loop of [opl_parse_string].  Every iteration consumes at least one
    character, so [fuel] bounds the iterations; [None] is only returned when
    the fuel runs out, which [opl_parse_string] never lets happen. *)
Fixpoint opl_parse_string_loop (fuel : nat) (s : list ascii)
    (result : list ascii)
  : option (Result opl_exception (list ascii * list ascii)) :=
  match fuel with
  | O => None
  | S fuel' =>
    if is_string_end (peek s) then Some (Ok (s, result))
    else if Ascii.eqb (peek s) "%" then
      match opl_parse_escaped (tail s) result with
      | Ok (s', result') => opl_parse_string_loop fuel' s' result'
      | Err e => Some (Err e)
      end
    else opl_parse_string_loop fuel' (tail s) (result ++ [peek s])
  end.

Definition opl_parse_string (data : list ascii) (result : list ascii)
  : option (Result opl_exception (list ascii * list ascii)) :=
  opl_parse_string_loop (S (length data)) data result.

(** [std::numeric_limits<T>] of the integer types the parser is
    instantiated at.  All of them are at most 64 bits wide and not
    [uint64_t], so in the comparisons against the [int64_t] accumulator both
    sides convert to [int64_t] and compare as mathematical integers. *)
Record IntType : Type := mkIntType { T_min : Z; T_max : Z }.

Definition int64_T : IntType := mkIntType INT64_MIN INT64_MAX.
Definition int32_T : IntType := mkIntType INT32_MIN INT32_MAX.
Definition uint32_T : IntType := mkIntType 0 UINT32_MAX.

(** Modelled from the spec: [osmium/osm/types.hpp] is not among the
    sources.  Object ids are signed 64-bit integers; versions, changeset ids
    and user ids are unsigned 32-bit integers. *)
Definition object_id_type : IntType := int64_T.
Definition changeset_id_type : IntType := uint32_T.
Definition object_version_type : IntType := uint32_T.
Definition user_id_type : IntType := uint32_T.

Definition is_digit (c : ascii) : bool := in_range "0" "9" c.

(** One step of the accumulator of [opl_parse_int], on [int64_t]. *)
Definition dec_step (v : Z) (c : ascii) : Z :=
  wrap64 (mul64 v 10 + (char_code c - char_code "0")).

(** [constexpr const int max_int_len = 16]. *)
Definition max_int_len : Z := 16.

(** The digit loop of [opl_parse_int]: [n] is the counter that starts at
    [max_int_len] and is decremented before each digit is taken. *)
Fixpoint opl_parse_int_digits (s : list ascii) (n : Z) (value : Z)
  : Result opl_exception (Z * Z * list ascii) :=
  match s with
  | [] => Ok (n, value, s)
  | c :: s' =>
    if is_digit c then
      let n := n - 1 in
      if n =? 0 then Err (opl_error "integer too long" s)
      else
        let value := mul64 value 10 in
        let value := wrap64 (value + (char_code c - char_code "0")) in
        opl_parse_int_digits s' n value
    else Ok (n, value, s)
  end.

Definition opl_parse_int (T : IntType) (s : list ascii)
  : Result opl_exception (Z * list ascii) :=
  if Ascii.eqb (peek s) NUL then Err (opl_error "expected integer" s)
  else
    let negative := Ascii.eqb (peek s) "-" in
    let s := if negative then tail s else s in
    '(n, value, s) ← opl_parse_int_digits s max_int_len 0;
    if n =? max_int_len then Err (opl_error "expected integer" s)
    else if negative then
      let value := wrap64 (- value) in
      if value <? T_min T then Err (opl_error "integer too long" s)
      else Ok (value, s)
    else
      if value >? T_max T then Err (opl_error "integer too long" s)
      else Ok (value, s).

Definition opl_parse_id := opl_parse_int object_id_type.
Definition opl_parse_changeset_id := opl_parse_int changeset_id_type.
Definition opl_parse_version := opl_parse_int object_version_type.
Definition opl_parse_uid := opl_parse_int user_id_type.

(** The value a run of hexadecimal (resp. decimal) digits denotes. *)
Definition hex_value (ds : list ascii) : Z :=
  fold_left (fun v c => 16 * v + default 0 (hex_digit c)) ds 0.
Definition dec_value (ds : list ascii) : Z :=
  fold_left (fun v c => 10 * v + (char_code c - char_code "0")) ds 0.

(* ===================================================================== *)
(** ** PBF input: the framer and the consumer                            *)
(* ===================================================================== *)

(** A [std::string] of raw data. *)
Abbreviation bytes := (list ascii).

(** What can be thrown in the parser task: [osmium::pbf_error], or any
    other exception (raised by the protobuf reader, a decoder, or a broken
    promise), which the framer never catches. *)
Inductive exception : Type :=
| pbf_error (what : string)
| other_error (what : string).

(** How a computation of the parser task stops short: an exception
    propagates, or [wait_and_pop] waits on a queue that nobody fills. *)
Inductive stop : Type :=
| throw (e : exception)
| wait_forever.

(** The fields of a BlobHeader message in the order the reader yields
    them: the type string (tag 1), the int32 datasize (tag 3), and any
    other field, which is skipped. *)
Inductive BlobHeaderField : Type :=
| required_string_type (data : bytes)
| required_int32_datasize (v : Z)
| skipped_field.

(** What the framer calls into and what is not among the sources: the
    protobuf reader ([protozero::pbf_message]), [decode_header] and
    [PBFDataBlobDecoder] ([pbf_decoder.hpp]), with the types of their
    results. *)
Class PBFDecoders : Type := {
  Header : Type;
  Buffer : Type;
  (** [osmium::io::Header{}] and [osmium::memory::Buffer{}] *)
  default_header : Header;
  empty_buffer : Buffer;
  pbf_message : bytes -> Result exception (list BlobHeaderField);
  decode_header : bytes -> Result exception Header;
  PBFDataBlobDecoder : bytes -> Z -> Result exception Buffer
}.

(** Modelled from the spec: [osmium/io/detail/pbf.hpp] is not among the
    sources.  The size of a BlobHeader is at most 64 KiB, the size of a
    Blob at most 32 MiB. *)
Definition max_blob_header_size : Z := 64 * 1024.
Definition max_uncompressed_blob_size : Z := 32 * 1024 * 1024.

(** [osmium::osm_entity_bits::nothing]. *)
Definition nothing : Z := 0.

(** [strncmp(s1, s2, n)]: at most [n] characters are compared, and the
    comparison stops behind a NUL. *)
Fixpoint strncmp (s1 s2 : list ascii) (n : nat) : Z :=
  match n with
  | O => 0
  | S n' =>
    if negb (Ascii.eqb (peek s1) (peek s2))
    then char_code (peek s1) - char_code (peek s2)
    else if Ascii.eqb (peek s1) NUL then 0
    else strncmp (tail s1) (tail s2) n'
  end.

(** The four bytes of the length prefix, read in network byte order. *)
Definition ntohl (data : bytes) : Z :=
  match data with
  | [b0; b1; b2; b3] =>
    char_code b0 * 2 ^ 24 + char_code b1 * 2 ^ 16 + char_code b2 * 2 ^ 8
    + char_code b3
  | _ => 0
  end.

(** What a [std::future<T>] yields when it is awaited. *)
Abbreviation future T := (Result exception T).

Section PBF.
Context `{D : PBFDecoders}.

(** The state of a [PBFParser] together with the objects it holds
    references to: the chunks the input queue will still yield, the
    futures pushed to the result queue so far (oldest first), and the
    value given to the header promise.  The result queue is taken to have
    room whenever the framer pushes: its consumer keeps popping. *)
Record PBFParser : Type := mkPBFParser {
  m_input_queue : list bytes;
  m_queue : list (future Buffer);
  m_header_promise : option Header;
  m_read_types : Z;
  m_use_thread_pool : bool;
  m_input_buffer : bytes
}.

(** The constructor: nothing read, nothing pushed. *)
Definition PBFParser_new (input_queue : list bytes) (read_types : Z)
    (use_thread_pool : bool) : PBFParser :=
  mkPBFParser input_queue [] None read_types use_thread_pool [].

Definition set_input (st : PBFParser) (queue : list bytes) (buffer : bytes)
  : PBFParser :=
  mkPBFParser queue (m_queue st) (m_header_promise st) (m_read_types st)
              (m_use_thread_pool st) buffer.

Definition push_future (f : future Buffer) (st : PBFParser) : PBFParser :=
  mkPBFParser (m_input_queue st) (m_queue st ++ [f]) (m_header_promise st)
              (m_read_types st) (m_use_thread_pool st) (m_input_buffer st).

Definition set_header_promise (h : Header) (st : PBFParser) : PBFParser :=
  mkPBFParser (m_input_queue st) (m_queue st) (Some h) (m_read_types st)
              (m_use_thread_pool st) (m_input_buffer st).

(** Member functions: they read and update the parser, and either
    return or stop short; the state reached when an exception is thrown
    is kept, since a handler goes on from it. *)
Definition Framer (A : Type) : Type := PBFParser -> PBFParser * Result stop A.

#[global] Instance Framer_ret : MRet Framer := fun A a st => (st, Ok a).

#[global] Instance Framer_bind : MBind Framer := fun A B k m st =>
  match m st with
  | (st', Ok a) => k a st'
  | (st', Err e) => (st', Err e)
  end.

Definition raise {A} (e : exception) : Framer A := fun st => (st, Err (throw e)).

(** [try { body } catch (osmium::pbf_error&) { handler }] *)
Definition catch_pbf_error {A} (body handler : Framer A) : Framer A :=
  fun st =>
    match body st with
    | (st', Err (throw (pbf_error _))) => handler st'
    | r => r
    end.

(** Lifting the result of a call that does not touch the parser. *)
Definition call {A} (r : Result exception A) : Framer A :=
  fun st =>
    match r with
    | Ok a => (st, Ok a)
    | Err e => (st, Err (throw e))
    end.

(** The [while] loop of [read_from_input_queue]: one chunk is popped per
    iteration.  Popping from a queue that holds no further chunk waits
    forever. *)
Fixpoint fill_input_buffer (size : Z) (buffer : bytes) (queue : list bytes)
  : bytes * list bytes * Result stop unit :=
  if Z.of_nat (length buffer) <? size then
    match queue with
    | [] => (buffer, queue, Err wait_forever)
    | new_data :: queue' =>
      match new_data with
      | [] => (buffer, queue',
               Err (throw (pbf_error "truncated data (EOF encountered)")))
      | _ => fill_input_buffer size (buffer ++ new_data) queue'
      end
    end
  else (buffer, queue, Ok ()).

Definition read_from_input_queue (size : Z) : Framer bytes := fun st =>
  match fill_input_buffer size (m_input_buffer st) (m_input_queue st) with
  | (buffer, queue, Ok _) =>
    (set_input st queue (drop (Z.to_nat size) buffer),
     Ok (take (Z.to_nat size) buffer))
  | (buffer, queue, Err e) => (set_input st queue buffer, Err e)
  end.

Definition read_blob_header_size_from_file : Framer Z :=
  size_in_network_byte_order ←
    catch_pbf_error (input_data ← read_from_input_queue 4;
                     mret (Some input_data))
                    (mret None);
  match size_in_network_byte_order with
  | None => mret 0
  | Some input_data =>
    let size := ntohl input_data in
    if size >? wrap_u32 max_blob_header_size
    then raise (pbf_error "invalid BlobHeader size (> max_blob_header_size)")
    else mret size
  end.

(** The loop over the fields of the message: a later field overwrites
    an earlier one.  The type starts out as the pair (nullptr, 0), the
    datasize as 0; the int32 datasize is converted to [size_t]. *)
Definition blob_header_fields (fields : list BlobHeaderField) : bytes * Z :=
  fold_left (fun acc field =>
               match field with
               | required_string_type data => (data, snd acc)
               | required_int32_datasize v => (fst acc, v mod 2 ^ 64)
               | skipped_field => acc
               end) fields ([], 0).

Definition decode_blob_header (pbf_blob_header : list BlobHeaderField)
    (expected_type : string) : Result exception Z :=
  let '(blob_header_type, blob_header_datasize) :=
    blob_header_fields pbf_blob_header in
  if blob_header_datasize =? 0
  then Err (pbf_error "PBF format error: BlobHeader.datasize missing or zero.")
  else if negb (strncmp (chars expected_type) blob_header_type
                        (length blob_header_type) =? 0)
  then Err (pbf_error "blob does not have expected type (OSMHeader in first blob, OSMData in following blobs)")
  else Ok blob_header_datasize.

Definition check_type_and_get_blob_size (expected_type : string) : Framer Z :=
  size ← read_blob_header_size_from_file;
  if size =? 0 then mret 0
  else
    blob_header ← read_from_input_queue size;
    fields ← call (pbf_message blob_header);
    call (decode_blob_header fields expected_type).

(** The promise keeper fulfils the header promise when the function is
    left, by a return or by an exception: with the decoded header if the
    assignment was reached, with the default constructed one otherwise. *)
Definition parse_header_blob : Framer unit := fun st =>
  match (size ← check_type_and_get_blob_size "OSMHeader";
         data ← read_from_input_queue size;
         call (decode_header data)) st with
  | (st', Ok header) => (set_header_promise header st', Ok ())
  | (st', Err e) => (set_header_promise default_header st', Err e)
  end.

(** One blob of the [while] loop in [operator()], after its size is
    known. *)
Definition handle_data_blob (size : Z) : Framer unit :=
  input_buffer ← read_from_input_queue size;
  if Z.of_nat (length input_buffer) >? max_uncompressed_blob_size
  then raise (pbf_error ("invalid blob size: "
                         +:+ pretty (N.of_nat (length input_buffer))))
  else fun st =>
    if m_use_thread_pool st
    then (push_future (PBFDataBlobDecoder input_buffer (m_read_types st)) st,
          Ok ())
    else
      match PBFDataBlobDecoder input_buffer (m_read_types st) with
      | Ok buffer => (push_future (Ok buffer) st, Ok ())
      | Err e => (push_future (Err (other_error "broken promise")) st,
                  Err (throw e))
      end.

(** The [while] loop of [operator()].  Every iteration takes at least the
    four bytes of a length prefix out of the input, which bounds the
    number of iterations; [None] stands for fuel that ran out. *)
Fixpoint data_blobs (fuel : nat) : PBFParser -> option (PBFParser * Result stop unit) :=
  fun st =>
    match fuel with
    | O => None
    | S fuel' =>
      match check_type_and_get_blob_size "OSMData" st with
      | (st', Err e) => Some (st', Err e)
      | (st', Ok size) =>
        if size =? 0 then Some (st', Ok ())
        else
          match handle_data_blob size st' with
          | (st'', Err e) => Some (st'', Err e)
          | (st'', Ok _) => data_blobs fuel' st''
          end
      end
    end.

(** All bytes the parser holds or can still pop. *)
Definition input_size (st : PBFParser) : nat :=
  length (m_input_buffer st) + length (concat (m_input_queue st)).

(** [PBFParser::operator()]. *)
Definition run (st : PBFParser) : option (PBFParser * Result stop bool) :=
  match parse_header_blob st with
  | (st1, Err e) => Some (st1, Err e)
  | (st1, Ok _) =>
    if m_read_types st1 =? nothing then Some (st1, Ok true)
    else
      match data_blobs (S (input_size st1)) st1 with
      | None => None
      | Some (st2, Err e) => Some (st2, Err e)
      | Some (st2, Ok _) => Some (push_future (Ok empty_buffer) st2, Ok true)
      end
  end.

(** Modelled from the spec: [osmium/thread/queue.hpp] and
    [osmium/thread/util.hpp] are not among the sources.  [wait_and_pop]
    blocks until the queue holds an item; [check_for_exception] re-raises
    the error of the parser task if the task has ended with one.
    [parser_thread] is the state of that task when [read] looks at it:
    [None] while it is running. *)
Definition check_for_exception (parser_thread : option (Result stop bool))
  : Result stop unit :=
  match parser_thread with
  | Some (Err (throw e)) => Err (throw e)
  | _ => Ok ()
  end.

(** [PBFInputFormat::read]: the queue left over, and the buffer returned
    or the way [read] stops short. *)
Definition read (parser_thread : option (Result stop bool))
    (queue : list (future Buffer))
  : list (future Buffer) * Result stop Buffer :=
  match queue with
  | [] => (queue, Err wait_forever)
  | buffer_future :: queue' =>
    match check_for_exception parser_thread with
    | Err e => (queue', Err e)
    | Ok _ =>
      match buffer_future with
      | Ok buffer => (queue', Ok buffer)
      | Err e => (queue', Err (throw e))
      end
    end
  end.

End PBF.

(** *** The layout of a PBF stream, for stating what the framer does *)

(** The bytes a queue yields before its end-of-input marker, the first
    empty chunk, and the chunks behind the marker ([None] when the queue
    holds no marker, so that popping eventually waits forever). *)
Fixpoint until_eof (queue : list bytes) : bytes :=
  match queue with
  | [] => []
  | [] :: _ => []
  | chunk :: queue' => chunk ++ until_eof queue'
  end.

Fixpoint after_eof (queue : list bytes) : option (list bytes) :=
  match queue with
  | [] => None
  | [] :: queue' => Some queue'
  | _ :: queue' => after_eof queue'
  end.

(** A 32-bit length in network byte order. *)
Definition htonl (n : Z) : bytes :=
  [char_of_code (n / 2 ^ 24); char_of_code (n / 2 ^ 16);
   char_of_code (n / 2 ^ 8); char_of_code n].

(** A BlobHeader and its Blob as they stand in the stream. *)
Definition blob_bytes (blob : bytes * bytes) : bytes :=
  htonl (Z.of_nat (length (fst blob))) ++ fst blob ++ snd blob.

Section PBF_streams.
Context `{D : PBFDecoders}.

(** The parser's pending input is [data], followed by the end of the
    input and then by the chunks [post]. *)
Definition pending (st : PBFParser) (data : bytes) (post : list bytes) : Prop :=
  m_input_buffer st ++ until_eof (m_input_queue st) = data
  /\ after_eof (m_input_queue st) = Some post.

(** Reading input leaves the rest of the parser alone. *)
Definition same_settings (st st' : PBFParser) : Prop :=
  m_header_promise st' = m_header_promise st
  /\ m_read_types st' = m_read_types st
  /\ m_use_thread_pool st' = m_use_thread_pool st.

Definition same_outputs (st st' : PBFParser) : Prop :=
  m_queue st' = m_queue st /\ same_settings st st'.

(** A BlobHeader of [size] bytes that decodes to the expected type and
    announces [datasize] bytes of Blob. *)
Definition good_blob_header (expected_type : string) (blob_header : bytes)
    (datasize : Z) : Prop :=
  0 < Z.of_nat (length blob_header) <= max_blob_header_size
  /\ exists fields,
       pbf_message blob_header = Ok fields
       /\ decode_blob_header fields expected_type = Ok datasize.

(** An OSMData blob that is framed completely: its header is good, the
    Blob has the announced size and is not too large, and -- when the
    decoder runs in the framer's own thread -- decoding succeeds. *)
Definition good_data_blob (read_types : Z) (use_thread_pool : bool)
    (blob : bytes * bytes) : Prop :=
  good_blob_header "OSMData" (fst blob) (Z.of_nat (length (snd blob)))
  /\ Z.of_nat (length (snd blob)) <= max_uncompressed_blob_size
  /\ (use_thread_pool = false ->
      exists buffer, PBFDataBlobDecoder (snd blob) read_types = Ok buffer).

(** The OSMHeader blob, framed completely and decoded to [header]. *)
Definition good_header_blob (blob : bytes * bytes) (header : Header) : Prop :=
  good_blob_header "OSMHeader" (fst blob) (Z.of_nat (length (snd blob)))
  /\ decode_header (snd blob) = Ok header.

(** A blob whose header is good and announces more bytes than the
    stream still holds. *)
Definition truncated_blob (expected_type : string) (blob : bytes * bytes)
  : Prop :=
  exists datasize,
    good_blob_header expected_type (fst blob) datasize
    /\ Z.of_nat (length (snd blob)) < datasize.
(** The futures pushed for a run of complete OSMData blobs. *)
Definition data_futures (read_types : Z) (blobs : list (bytes * bytes))
  : list (future Buffer) :=
  map (fun blob => PBFDataBlobDecoder (snd blob) read_types) blobs.

End PBF_streams.

(** A small instance of the decoders, to run the framer on concrete
    streams: a BlobHeader is its type followed by one byte holding the
    datasize, a header decodes to the length of its Blob, and a data Blob
    decodes to itself. *)
Definition example_decoders : PBFDecoders := {|
  Header := nat;
  Buffer := bytes;
  default_header := 0%nat;
  empty_buffer := [];
  pbf_message := fun data =>
    Ok [required_string_type (removelast data);
        required_int32_datasize (char_code (List.last data NUL))];
  decode_header := fun data => Ok (length data);
  PBFDataBlobDecoder := fun data _ => Ok data
|}.

(** The BlobHeader of that instance for a type and a datasize below 256. *)
Definition example_blob_header (type : string) (datasize : Z) : bytes :=
  chars type ++ [char_of_code datasize].

(** An OSMHeader blob, a complete OSMData blob, and an OSMData blob whose
    header announces five bytes where two follow. *)
Definition example_header_blob : bytes * bytes :=
  (example_blob_header "OSMHeader" 2, chars "hh").
Definition example_data_blob : bytes * bytes :=
  (example_blob_header "OSMData" 3, chars "abc").
Definition example_truncated_blob : bytes * bytes :=
  (example_blob_header "OSMData" 5, chars "xy").

(** The three blobs as the input queue delivers them, cut into two chunks
    at an arbitrary place and followed by the end-of-input marker. *)
Definition example_truncated_stream : bytes :=
  blob_bytes example_header_blob ++ blob_bytes example_data_blob
  ++ blob_bytes example_truncated_blob.

Definition example_truncated_queue : list bytes :=
  [take 7 example_truncated_stream; drop 7 example_truncated_stream; []].

(** A stream that ends two bytes into the length prefix behind the
    complete blobs, and one that consists of two stray bytes only. *)
Definition example_short_queue : list bytes :=
  [blob_bytes example_header_blob; blob_bytes example_data_blob ++ chars "ab"; []].

Definition example_stray_queue : list bytes := [chars "ab"; []].

(** A stream whose first OSMData blob is the truncated one. *)
Definition example_truncated_first_queue : list bytes :=
  [blob_bytes example_header_blob ++ blob_bytes example_truncated_blob; []].

(* ===================================================================== *)
(** ** The id-to-location index family                                   *)
(* ===================================================================== *)

(** Modelled from the spec: the index back-ends ([osmium/index/map/*.hpp])
    are not among the sources, only their test is.  An index maps unsigned
    64-bit ids to Locations.  [get] returns the Location of an id or fails
    with [not_found]; [get_noexcept] returns the undefined Location for an
    absent id.  The back-ends of the family share four representations: the
    dummy, which discards writes and fails every read; a dense array indexed
    by id, whose absent cells are those that hold the undefined Location;
    a map, whose absent ids are those without an entry; and a sparse array
    of (id, Location) pairs that [set] appends to, [sort] orders by id
    keeping the last [set] of an id, and lookups search by bisection, an id
    being absent when the search finds no entry for it.  The flex index
    holds a sparse array or a dense array, routes lookups to the one it
    holds, and can switch from the first to the second. *)
Module Index.

(** [osmium::not_found], with the id that was looked up. *)
Inductive not_found : Type := NotFound (id : N).

Abbreviation entry := (N * Location)%type.

(** The back-ends by name. *)
Inductive map_type : Type :=
| Dummy | DenseMemArray | DenseMmapArray | DenseFileArray
| SparseMemTable | SparseMemMap
| SparseMemArray | SparseMemCompactArray | SparseMmapArray
| FlexMem.

Inductive t : Type :=
| dummy
| dense (cells : list Location)
| sparse_map (m : gmap N Location)
| sparse_array (v : list entry)
| flex_sparse (v : list entry)
| flex_dense (cells : list Location).

(** A fresh instance; the flex index starts sparse. *)
Definition create (k : map_type) : t :=
  match k with
  | Dummy => dummy
  | DenseMemArray | DenseMmapArray | DenseFileArray => dense []
  | SparseMemTable | SparseMemMap => sparse_map ∅
  | SparseMemArray | SparseMemCompactArray | SparseMmapArray => sparse_array []
  | FlexMem => flex_sparse []
  end.

(** The dense arrays of the family. *)
Definition is_dense_array (k : map_type) : bool :=
  match k with
  | DenseMemArray | DenseMmapArray | DenseFileArray => true
  | _ => false
  end.

(** *** Dense arrays *)

(** [set] on a dense array: the array is resized with undefined cells so
    that index [id] is in range, then the cell is written. *)
Definition dense_set (cells : list Location) (id : N) (loc : Location)
  : list Location :=
  let n := N.to_nat id in
  <[n := loc]> (cells ++ replicate (S n - length cells) undefined_location).

Definition dense_get_noexcept (cells : list Location) (id : N) : Location :=
  default undefined_location (cells !! N.to_nat id).

(** A cell that holds the undefined Location, or lies behind the end of
    the array, is an absent one. *)
Definition dense_get (cells : list Location) (id : N)
  : Result not_found Location :=
  let loc := dense_get_noexcept cells id in
  if Location_eqb loc undefined_location then Err (NotFound id) else Ok loc.

(** *** Maps *)

Definition map_get (m : gmap N Location) (id : N)
  : Result not_found Location :=
  match m !! id with
  | Some loc => Ok loc
  | None => Err (NotFound id)
  end.

Definition map_get_noexcept (m : gmap N Location) (id : N) : Location :=
  default undefined_location (m !! id).

(** *** Sparse arrays *)

(** [sort]: the entries ordered by id; of several entries with one id
    the one set last is kept.  Entries are taken in the order they were
    set, each is put at its place by id and overwrites an earlier entry
    with its id. *)
Fixpoint insert_entry (e : entry) (v : list entry) : list entry :=
  match v with
  | [] => [e]
  | e' :: v' =>
    if (fst e <? fst e')%N then e :: v
    else if (fst e =? fst e')%N then e :: v'
    else e' :: insert_entry e v'
  end.

Definition sort_entries (v : list entry) : list entry :=
  fold_left (fun sorted e => insert_entry e sorted) v [].

(** The id stored at a position; positions are only read in range. *)
Definition id_at (v : list entry) (i : nat) : N :=
  match v !! i with
  | Some e => fst e
  | None => 0%N
  end.

(** Bisection as [std::lower_bound] does it: [first] and [count] delimit
    the range still to search; [count] shrinks in every iteration, so
    [fuel] = [count] iterations are enough. *)
Fixpoint lower_bound_loop (fuel : nat) (v : list entry) (id : N)
    (first count : nat) : nat :=
  match fuel with
  | O => first
  | S fuel' =>
    if (count =? 0)%nat then first
    else
      let step := (count / 2)%nat in
      let it := (first + step)%nat in
      if (id_at v it <? id)%N
      then lower_bound_loop fuel' v id (S it) (count - S step)
      else lower_bound_loop fuel' v id first step
  end.

Definition lower_bound (v : list entry) (id : N) : nat :=
  lower_bound_loop (length v) v id 0 (length v).

(** The entry the search ends at, when it is one for [id]. *)
Definition sparse_find (v : list entry) (id : N) : option Location :=
  match v !! lower_bound v id with
  | Some e => if (fst e =? id)%N then Some (snd e) else None
  | None => None
  end.

Definition sparse_get (v : list entry) (id : N) : Result not_found Location :=
  match sparse_find v id with
  | Some loc => Ok loc
  | None => Err (NotFound id)
  end.

Definition sparse_get_noexcept (v : list entry) (id : N) : Location :=
  default undefined_location (sparse_find v id).

(** *** The flex index *)

(** The size of the dense back-end allocated by [switch_to_dense]: the
    largest id plus one (nothing for an empty index). *)
Definition dense_size (sorted : list entry) : nat :=
  match last sorted with
  | Some e => S (N.to_nat (fst e))
  | None => O
  end.

(** Copying the sorted entries into the allocated array. *)
Definition copy_entries (sorted : list entry) (cells : list Location)
  : list Location :=
  fold_left (fun cells e => <[N.to_nat (fst e) := snd e]> cells) sorted cells.

(** *** The common interface *)

Definition set (idx : t) (id : N) (loc : Location) : t :=
  match idx with
  | dummy => dummy
  | dense cells => dense (dense_set cells id loc)
  | sparse_map m => sparse_map (<[id := loc]> m)
  | sparse_array v => sparse_array (v ++ [(id, loc)])
  | flex_sparse v => flex_sparse (v ++ [(id, loc)])
  | flex_dense cells => flex_dense (dense_set cells id loc)
  end.

Definition sort (idx : t) : t :=
  match idx with
  | sparse_array v => sparse_array (sort_entries v)
  | flex_sparse v => flex_sparse (sort_entries v)
  | _ => idx
  end.

Definition get_noexcept (idx : t) (id : N) : Location :=
  match idx with
  | dummy => undefined_location
  | dense cells | flex_dense cells => dense_get_noexcept cells id
  | sparse_map m => map_get_noexcept m id
  | sparse_array v | flex_sparse v => sparse_get_noexcept v id
  end.

Definition get (idx : t) (id : N) : Result not_found Location :=
  match idx with
  | dummy => Err (NotFound id)
  | dense cells | flex_dense cells => dense_get cells id
  | sparse_map m => map_get m id
  | sparse_array v | flex_sparse v => sparse_get v id
  end.

Definition clear (idx : t) : t :=
  match idx with
  | dummy => dummy
  | dense _ => dense []
  | sparse_map _ => sparse_map ∅
  | sparse_array _ => sparse_array []
  | flex_sparse _ => flex_sparse []
  | flex_dense _ => flex_dense []
  end.

Definition is_dense (idx : t) : bool :=
  match idx with
  | flex_dense _ => true
  | _ => false
  end.

(** [switch_to_dense] sorts, allocates a dense back-end sized to the
    largest id plus one, copies the values and releases the sparse
    back-end; the transition is one-way. *)
Definition switch_to_dense (idx : t) : t :=
  match idx with
  | flex_sparse v =>
    let sorted := sort_entries v in
    flex_dense (copy_entries sorted
                  (replicate (dense_size sorted) undefined_location))
  | _ => idx
  end.

(** A sequence of [set] calls, in order. *)
Definition populate (idx : t) (ops : list entry) : t :=
  fold_left (fun idx e => set idx (fst e) (snd e)) ops idx.

(** Entries compared by id. *)
Definition id_lt (e1 e2 : entry) : Prop := (fst e1 < fst e2)%N.

(** The two Locations of the test, 1.2/4.5 and 3.5/-7.2 degrees. *)
Definition loc1 : Location := mkLocation 12000000 45000000.
Definition loc2 : Location := mkLocation 35000000 (-72000000).

(** The Location an id was last set to, if it was set at all. *)
Definition last_set (ops : list entry) (id : N) : option Location :=
  fold_left (fun acc e => if (fst e =? id)%N then Some (snd e) else acc)
            ops None.

End Index.

(* ===================================================================== *)
(** ** Segments: the range test                                          *)
(* ===================================================================== *)

Definition outside_x_range (s1 s2 : NodeRefSegment) : bool :=
  if loc_x (location (first s1)) >? loc_x (location (second s2))
  then true
  else false.

(* ===================================================================== *)
(** ** OPL: spaces, sections and lists                                   *)
(* ===================================================================== *)

Definition is_blank (c : ascii) : bool := Ascii.eqb c " " || Ascii.eqb c "009".

(** The rest of the do-while loop of [opl_parse_space], behind its first
    increment: blanks and tabs are stepped over. *)
Fixpoint skip_blanks (s : list ascii) : list ascii :=
  match s with
  | [] => []
  | c :: s' => if is_blank c then skip_blanks s' else s
  end.

Definition opl_parse_space (s : list ascii) : Result opl_exception (list ascii) :=
  if negb (Ascii.eqb (peek s) " ") && negb (Ascii.eqb (peek s) "009")
  then Err (opl_error "expected space or tab character" s)
  else Ok (skip_blanks (tail s)).

Definition opl_non_empty (s : list ascii) : bool :=
  negb (Ascii.eqb (peek s) NUL) && negb (Ascii.eqb (peek s) " ")
  && negb (Ascii.eqb (peek s) "009").

Fixpoint opl_skip_section (s : list ascii) : list ascii :=
  match s with
  | [] => []
  | _ :: s' => if opl_non_empty s then opl_skip_section s' else s
  end.

Definition opl_parse_visible (data : list ascii)
  : Result opl_exception (bool * list ascii) :=
  if Ascii.eqb (peek data) "V" then Ok (true, tail data)
  else if Ascii.eqb (peek data) "D" then Ok (false, tail data)
  else Err (opl_error "invalid visible flag" data).

Definition opl_parse_char (data : list ascii) (c : ascii)
  : Result opl_exception (list ascii) :=
  if Ascii.eqb (peek data) c then Ok (tail data)
  else Err (opl_error ("expected '" +:+ String c "'") data).

(** A character that [opl_parse_string] copies: no '%' and none of the
    characters that end a string. *)
Definition is_plain (c : ascii) : bool :=
  negb (is_string_end c) && negb (Ascii.eqb c "%").

(** Two pointers into one line are compared by what is left of the line
    behind them. *)
Definition ptr_eqb (s e : list ascii) : bool := (length s =? length e)%nat.
Definition ptr_ltb (s e : list ascii) : bool := (length e <? length s)%nat.

(** The builders ([osm_object_builder.hpp]) are not among the sources: a
    tag list builder stands for the (key, value) pairs given to [add_tag],
    in the order of the calls, and a member list builder for the
    (type, ref, role) triples given to [add_member]. *)
Abbreviation Tag := (list ascii * list ascii)%type.

(** The loop of [opl_parse_tags].  Every iteration takes at least the '='
    out of the line, which bounds the iterations by [fuel]. *)
Fixpoint opl_parse_tags_loop (fuel : nat) (s : list ascii) (builder : list Tag)
  : option (Result opl_exception (list Tag)) :=
  match fuel with
  | O => None
  | S fuel' =>
    match opl_parse_string s [] with
    | None => None
    | Some (Err e) => Some (Err e)
    | Some (Ok (s, key)) =>
      match opl_parse_char s "=" with
      | Err e => Some (Err e)
      | Ok s =>
        match opl_parse_string s [] with
        | None => None
        | Some (Err e) => Some (Err e)
        | Some (Ok (s, value)) =>
          let builder := builder ++ [(key, value)] in
          if Ascii.eqb (peek s) " " || Ascii.eqb (peek s) "009"
             || Ascii.eqb (peek s) NUL
          then Some (Ok builder)
          else
            match opl_parse_char s "," with
            | Err e => Some (Err e)
            | Ok s => opl_parse_tags_loop fuel' s builder
            end
        end
      end
    end
  end.

Definition opl_parse_tags (s : list ascii)
  : option (Result opl_exception (list Tag)) :=
  opl_parse_tags_loop (S (length s)) s [].

(** Modelled from the spec: [osmium/osm/item_type.hpp] is not among the
    sources.  The types of relation members are written 'n', 'w' and 'r'. *)
Inductive item_type : Type := node | way | relation | undefined.

Definition char_to_item_type (c : ascii) : item_type :=
  if Ascii.eqb c "n" then node
  else if Ascii.eqb c "w" then way
  else if Ascii.eqb c "r" then relation
  else undefined.

Definition is_member_type (t : item_type) : bool :=
  match t with
  | node | way | relation => true
  | undefined => false
  end.

Abbreviation Member := (item_type * Z * list ascii)%type.

(** The loop of [opl_parse_relation_members]; [e] is the end of the
    section. *)
Fixpoint opl_parse_relation_members_loop (fuel : nat) (s e : list ascii)
    (builder : list Member) : option (Result opl_exception (list Member)) :=
  match fuel with
  | O => None
  | S fuel' =>
    if ptr_ltb s e then
      let type := char_to_item_type (peek s) in
      if negb (is_member_type type)
      then Some (Err (opl_error "unknown object type" s))
      else
        let s := tail s in
        if ptr_eqb s e then Some (Err (opl_error "expected integer" s))
        else
          match opl_parse_id s with
          | Err err => Some (Err err)
          | Ok (ref, s) =>
            match opl_parse_char s "@" with
            | Err err => Some (Err err)
            | Ok s =>
              if ptr_eqb s e then Some (Ok (builder ++ [(type, ref, [])]))
              else
                match opl_parse_string s [] with
                | None => None
                | Some (Err err) => Some (Err err)
                | Some (Ok (s, role)) =>
                  let builder := builder ++ [(type, ref, role)] in
                  if ptr_eqb s e then Some (Ok builder)
                  else
                    match opl_parse_char s "," with
                    | Err err => Some (Err err)
                    | Ok s => opl_parse_relation_members_loop fuel' s e builder
                    end
                end
            end
          end
    else Some (Ok builder)
  end.

(** [opl_parse_relation_members]: nothing is built for an empty section
    ([None] inside the result), a member list otherwise. *)
Definition opl_parse_relation_members (s e : list ascii)
  : option (Result opl_exception (option (list Member))) :=
  if ptr_eqb s e then Some (Ok None)
  else
    match opl_parse_relation_members_loop (S (length s)) s e [] with
    | None => None
    | Some (Err err) => Some (Err err)
    | Some (Ok builder) => Some (Ok (Some builder))
    end.

(** *** The texts the parsers take, as a grammar *)

(** An OPL string and what it stands for: plain characters stand for
    themselves, an escape of at most seven hexadecimal digits between two
    '%' stands for the UTF-8 form of the code point it names. *)
Inductive opl_encoded : list ascii -> list ascii -> Prop :=
| encoded_nil : opl_encoded [] []
| encoded_plain c e w :
    is_plain c = true -> opl_encoded e w -> opl_encoded (c :: e) (c :: w)
| encoded_escape ds bytes e w :
    Forall is_hex ds -> (length ds <= 7)%nat ->
    utf32to8 (hex_value ds) = Ok bytes ->
    opl_encoded e w ->
    opl_encoded ("%"%char :: ds ++ "%"%char :: e) (bytes ++ w).

(** The text of an integer of type [T]: one to fifteen digits, with or
    without a minus sign, that name a value within the limits of [T]. *)
Definition int_text (T : IntType) (txt : list ascii) (v : Z) : Prop :=
  exists ds,
    Forall (fun c => is_digit c = true) ds
    /\ (1 <= length ds <= 15)%nat
    /\ ((txt = ds /\ v = dec_value ds /\ v <= T_max T)
        \/ (txt = "-"%char :: ds /\ v = - dec_value ds /\ T_min T <= v)).

(** A tag section: key=value pairs separated by commas. *)
Inductive tags_encoded : list ascii -> list Tag -> Prop :=
| tags_one ek k ev v :
    opl_encoded ek k -> opl_encoded ev v ->
    tags_encoded (ek ++ "="%char :: ev) [(k, v)]
| tags_more ek k ev v e ts :
    opl_encoded ek k -> opl_encoded ev v -> tags_encoded e ts ->
    tags_encoded (ek ++ "="%char :: ev ++ ","%char :: e) ((k, v) :: ts).

(** A member section: members of the form type, id, '@', role, separated
    by commas; a comma may follow the last one. *)
Inductive members_encoded : list ascii -> list Member -> Prop :=
| members_nil : members_encoded [] []
| members_last tc txt ref erole role :
    is_member_type (char_to_item_type tc) = true ->
    int_text object_id_type txt ref ->
    opl_encoded erole role ->
    members_encoded (tc :: txt ++ "@"%char :: erole)
                    [(char_to_item_type tc, ref, role)]
| members_more tc txt ref erole role e ms :
    is_member_type (char_to_item_type tc) = true ->
    int_text object_id_type txt ref ->
    opl_encoded erole role ->
    members_encoded e ms ->
    members_encoded (tc :: txt ++ "@"%char :: erole ++ ","%char :: e)
                    ((char_to_item_type tc, ref, role) :: ms).

(** A character inside a section: [opl_non_empty] at a pointer to it. *)
Definition section_char (c : ascii) : bool :=
  negb (Ascii.eqb c NUL) && negb (Ascii.eqb c " ") && negb (Ascii.eqb c "009").

(* ===================================================================== *)
(** ** PBF input: streams cut into chunks                                *)
(* ===================================================================== *)

Section PBF_chunks.
Context `{D : PBFDecoders}.

(** Two parsers that have produced the same and hold the same stream of
    bytes in front of the end of their input, cut into chunks in whatever
    way (or that are in the same state altogether). *)
Definition same_stream (st1 st2 : PBFParser) : Prop :=
  st1 = st2
  \/ (same_outputs st1 st2
      /\ exists data, pending st1 data [] /\ pending st2 data []).

(** A member function that does not tell such parsers apart. *)
Definition chunk_independent {A : Type} (m : Framer A) : Prop :=
  forall st1 st2,
    same_stream st1 st2 ->
    snd (m st1) = snd (m st2) /\ same_stream (fst (m st1)) (fst (m st2)).

End PBF_chunks.

(** The stream of the example in one chunk. *)
Definition example_truncated_queue_whole : list bytes :=
  [example_truncated_stream; []].

Section PBF_errors.
Context `{D : PBFDecoders}.

(** A BlobHeader of an allowed size that the reader or
    [decode_blob_header] refuses with the exception [e]. *)
Definition bad_blob_header (expected_type : string) (blob_header : bytes)
    (e : exception) : Prop :=
  0 < Z.of_nat (length blob_header) <= max_blob_header_size
  /\ (pbf_message blob_header = Err e
      \/ exists fields,
           pbf_message blob_header = Ok fields
           /\ decode_blob_header fields expected_type = Err e).

(** [PBFInputFormat::header]: the error of the parser task if it has
    ended with one, the value of the header promise otherwise; waiting for
    a promise that is never fulfilled does not end. *)
Definition header (parser_thread : option (Result stop bool))
    (header_promise : option Header) : Result stop Header :=
  _ ← check_for_exception parser_thread;
  match header_promise with
  | Some h => Ok h
  | None => Err wait_forever
  end.

(** The parser after a member function has run on it: everything but
    the input as before, or futures added to the result queue. *)
Definition keeps_outputs {A : Type} (m : Framer A) : Prop :=
  forall st, same_outputs st (fst (m st)).

Definition only_pushes (st st' : PBFParser) : Prop :=
  same_settings st st' /\ exists pushed, m_queue st' = m_queue st ++ pushed.

End PBF_errors.

(** Decoders for the examples that can fail: the last byte of a
    BlobHeader is its datasize as a signed byte, and a data Blob that
    starts with '!' is refused. *)
Definition example_strict_decoders : PBFDecoders := {|
  Header := nat;
  Buffer := bytes;
  default_header := 0%nat;
  empty_buffer := [];
  pbf_message := fun data =>
    Ok [required_string_type (removelast data);
        required_int32_datasize
          (let c := char_code (List.last data NUL) in
           if c <? 128 then c else c - 256)];
  decode_header := fun data => Ok (length data);
  PBFDataBlobDecoder := fun data _ =>
    if Ascii.eqb (peek data) "!" then Err (other_error "bad blob")
    else Ok data
|}.

Definition example_negative_blob : bytes * bytes :=
  (chars "OSMData" ++ [char_of_code 251], chars "xy").

Definition example_refused_blob : bytes * bytes :=
  (example_blob_header "OSMData" 3, chars "!bc").

Definition example_refused_queue : list bytes :=
  [blob_bytes example_header_blob ++ blob_bytes example_data_blob
   ++ blob_bytes example_refused_blob ++ chars "rest"; []].

(** Streams for the example decoders: a second OSMHeader blob where an
    OSMData blob is due, and an OSMData blob whose header carries a
    length prefix that is too large. *)
Definition example_wrong_type_queue : list bytes :=
  [blob_bytes example_header_blob ++ blob_bytes example_data_blob
   ++ blob_bytes example_header_blob; []].

Definition example_oversized_queue : list bytes :=
  [blob_bytes example_header_blob ++ blob_bytes example_data_blob
   ++ htonl 65537 ++ chars "rest"; []].


(** The parser of the example on the short queue when [operator()] has
    returned. *)
Definition example_short_final : @PBFParser example_decoders :=
  Eval vm_compute in
    match @run example_decoders (PBFParser_new example_short_queue 1 false) with
    | Some (st, _) => st
    | None => PBFParser_new [] 0 false
    end.

(* ===================================================================== *)
(** ** OPL: objects and lines                                            *)
(* ===================================================================== *)

(** What the object parsers call into and what is not among the sources:
    [osmium::Timestamp], the member functions of [osmium::Location] that
    read a coordinate and test the location, the integer types of the
    counts of a changeset ([osmium/osm/types.hpp]) and the bits that ask
    for a kind of object ([osmium/osm/entity_bits.hpp]). *)
Class OPLDeps : Type := {
  Timestamp : Type;
  (** [osmium::Timestamp{}] *)
  default_timestamp : Timestamp;
  (** [osmium::Timestamp{const char*}]; [None] stands for the
      [std::invalid_argument] it throws *)
  timestamp_of : list ascii -> option Timestamp;
  (** [set_lon_partial] and [set_lat_partial]: the location and the data
      pointer behind the coordinate, or the message of the
      [osmium::invalid_location] thrown *)
  set_lon_partial : Location -> list ascii -> Result string (Location * list ascii);
  set_lat_partial : Location -> list ascii -> Result string (Location * list ascii);
  (** [Location::valid] *)
  valid : Location -> bool;
  (** [osmium::num_changes_type] and [osmium::num_comments_type] *)
  num_changes_type : IntType;
  num_comments_type : IntType;
  (** [osmium::osm_entity_bits::node] and the like *)
  entity_bits_node : Z;
  entity_bits_way : Z;
  entity_bits_relation : Z;
  entity_bits_changeset : Z
}.

(** What is thrown while an object is parsed: an exception of the scalar
    parsers, or [osmium::invalid_location]. *)
Inductive object_exception : Type :=
| parse_error (e : opl_exception)
| invalid_location (what : string).

(** What leaves [opl_parse_line]: an [opl_error] with its position set,
    or one of the other exceptions, which pass through unchanged. *)
Inductive line_exception : Type :=
| opl_error_at (line column : Z) (data : list ascii) (msg : string)
| other_exception (e : object_exception).

Section OPL_objects.
Context `{Deps : OPLDeps}.

(** The builders ([osm_object_builder.hpp]) are not among the sources: a
    builder stands for the calls made to it, in their order. *)
Inductive builder_call : Type :=
| set_id (v : Z)
| set_version (v : Z)
| set_visible (b : bool)
| set_changeset (v : Z)
| set_timestamp (t : Timestamp)
| set_uid (v : Z)
| set_location (l : Location)
| set_num_changes (v : Z)
| set_created_at (t : Timestamp)
| set_closed_at (t : Timestamp)
| set_num_comments (v : Z)
| bounds_extend (l : Location)
| add_user (u : list ascii)
| add_tags (ts : list Tag)
| add_node_refs (ns : list (Z * Location))
| add_members (ms : list Member).

(** The object a line has added to the buffer. *)
Inductive object : Type :=
| node_object (calls : list builder_call)
| way_object (calls : list builder_call)
| relation_object (calls : list builder_call)
| changeset_object (calls : list builder_call).

Definition opl_parse_timestamp (s : list ascii)
  : Result opl_exception (Timestamp * list ascii) :=
  if Ascii.eqb (peek s) NUL || Ascii.eqb (peek s) " "
     || Ascii.eqb (peek s) "009"
  then Ok (default_timestamp, s)
  else
    match timestamp_of s with
    | Some timestamp => Ok (timestamp, drop 20 s)
    | None => Err (opl_error "can not parse timestamp" s)
    end.

(** A result of a scalar parser inside an object parser. *)
Definition lift {A : Type} (r : Result opl_exception A)
  : option (Result object_exception A) :=
  match r with
  | Ok a => Some (Ok a)
  | Err e => Some (Err (parse_error e))
  end.

Definition lift_location {A : Type} (r : Result string A)
  : option (Result object_exception A) :=
  match r with
  | Ok a => Some (Ok a)
  | Err what => Some (Err (invalid_location what))
  end.

(** Computations that can run out of fuel or throw. *)
Definition Parser (A : Type) : Type := option (Result object_exception A).

Definition Parser_bind {A B : Type} (m : Parser A) (k : A -> Parser B)
  : Parser B :=
  match m with
  | None => None
  | Some (Err e) => Some (Err e)
  | Some (Ok a) => k a
  end.

(** The loop of [opl_parse_way_nodes]; [e] is the end of the section. *)
Fixpoint opl_parse_way_nodes_loop (fuel : nat) (s e : list ascii)
    (builder : list (Z * Location)) : Parser (list (Z * Location)) :=
  match fuel with
  | O => None
  | S fuel' =>
    if ptr_ltb s e then
      Parser_bind (lift (opl_parse_char s "n")) (fun s =>
      if ptr_eqb s e
      then Some (Err (parse_error (opl_error "expected integer" s)))
      else
        Parser_bind (lift (opl_parse_id s)) (fun '(ref, s) =>
        if ptr_eqb s e then Some (Ok (builder ++ [(ref, undefined_location)]))
        else
          Parser_bind
            (if Ascii.eqb (peek s) "x" then
               Parser_bind (lift_location (set_lon_partial undefined_location (tail s)))
                 (fun '(location, s) =>
                    if Ascii.eqb (peek s) "y"
                    then lift_location (set_lat_partial location (tail s))
                    else Some (Ok (location, s)))
             else Some (Ok (undefined_location, s)))
            (fun '(location, s) =>
               let builder := builder ++ [(ref, location)] in
               if ptr_eqb s e then Some (Ok builder)
               else
                 Parser_bind (lift (opl_parse_char s ","))
                   (fun s => opl_parse_way_nodes_loop fuel' s e builder))))
    else Some (Ok builder)
  end.

(** [opl_parse_way_nodes]: nothing is built for an empty section ([None]
    inside the result), a node list otherwise. *)
Definition opl_parse_way_nodes (s e : list ascii)
  : Parser (option (list (Z * Location))) :=
  if ptr_eqb s e then Some (Ok None)
  else
    Parser_bind (opl_parse_way_nodes_loop (S (length s)) s e [])
      (fun builder => Some (Ok (Some builder))).

(** The local variables of the four object parsers, with the calls made
    to the builder so far: [l_location] is [location] of a node and
    [location1] of a changeset, [l_section_begin] and [l_section_end] are
    [nodes_begin] and [nodes_end] of a way and [members_begin] and
    [members_end] of a relation.  A null pointer is [None]. *)
Record locals : Type := mkLocals {
  l_calls : list builder_call;
  l_user : list ascii;
  l_tags_begin : option (list ascii);
  l_location : Location;
  l_location2 : Location;
  l_section_begin : option (list ascii);
  l_section_end : option (list ascii)
}.

Definition locals_new (id : Z) : locals :=
  mkLocals [set_id id] [] None undefined_location undefined_location None None.

Definition tell (c : builder_call) (st : locals) : locals :=
  mkLocals (l_calls st ++ [c]) (l_user st) (l_tags_begin st) (l_location st)
           (l_location2 st) (l_section_begin st) (l_section_end st).

Definition with_user (u : list ascii) (st : locals) : locals :=
  mkLocals (l_calls st) u (l_tags_begin st) (l_location st) (l_location2 st)
           (l_section_begin st) (l_section_end st).

Definition with_tags_begin (s : list ascii) (st : locals) : locals :=
  mkLocals (l_calls st) (l_user st) (Some s) (l_location st) (l_location2 st)
           (l_section_begin st) (l_section_end st).

Definition with_location (l : Location) (st : locals) : locals :=
  mkLocals (l_calls st) (l_user st) (l_tags_begin st) l (l_location2 st)
           (l_section_begin st) (l_section_end st).

Definition with_location2 (l : Location) (st : locals) : locals :=
  mkLocals (l_calls st) (l_user st) (l_tags_begin st) (l_location st) l
           (l_section_begin st) (l_section_end st).

Definition with_section (b e : list ascii) (st : locals) : locals :=
  mkLocals (l_calls st) (l_user st) (l_tags_begin st) (l_location st) (l_location2 st)
           (Some b) (Some e).

(** The result of one case of a [switch]: the data pointer and the local
    variables behind it. *)
Definition Step : Type := Parser (list ascii * locals).

Definition told {A : Type} (r : Result opl_exception (A * list ascii))
    (c : A -> builder_call) (st : locals) : Step :=
  Parser_bind (lift r) (fun '(v, data) => Some (Ok (data, tell (c v) st))).

(** [case 'u'] *)
Definition user_attribute (data : list ascii) (st : locals) : Step :=
  match opl_parse_string data (l_user st) with
  | None => None
  | Some (Err e) => Some (Err (parse_error e))
  | Some (Ok (data, u)) => Some (Ok (data, with_user u st))
  end.

(** [case 'T'] *)
Definition tags_attribute (data : list ascii) (st : locals) : Step :=
  if opl_non_empty data
  then Some (Ok (opl_skip_section data, with_tags_begin data st))
  else Some (Ok (data, st)).

(** A coordinate: [if (opl_non_empty( *data)) location.set_..._partial(data)] *)
Definition coordinate_attribute
    (set : Location -> list ascii -> Result string (Location * list ascii))
    (get : locals -> Location) (put : Location -> locals -> locals)
    (data : list ascii) (st : locals) : Step :=
  if opl_non_empty data
  then Parser_bind (lift_location (set (get st) data))
         (fun '(l, data) => Some (Ok (data, put l st)))
  else Some (Ok (data, st)).

(** [default:] the data pointer is stepped back to the attribute. *)
Definition unknown_attribute (c : ascii) (data : list ascii) : Step :=
  Some (Err (parse_error (opl_error "unknown attribute" (c :: data)))).

(** The cases of the [switch] that [opl_parse_node], [opl_parse_way] and
    [opl_parse_relation] have in common; [None] when [c] is none of them.
    [data] is the data pointer behind the attribute character. *)
Definition object_attribute (c : ascii) (data : list ascii) (st : locals)
  : option Step :=
  if Ascii.eqb c "v" then Some (told (opl_parse_version data) set_version st)
  else if Ascii.eqb c "d" then Some (told (opl_parse_visible data) set_visible st)
  else if Ascii.eqb c "c" then
    Some (told (opl_parse_changeset_id data) set_changeset st)
  else if Ascii.eqb c "t" then
    Some (told (opl_parse_timestamp data) set_timestamp st)
  else if Ascii.eqb c "i" then Some (told (opl_parse_uid data) set_uid st)
  else if Ascii.eqb c "u" then Some (user_attribute data st)
  else if Ascii.eqb c "T" then Some (tags_attribute data st)
  else None.

(** The [switch] of [opl_parse_node]. *)
Definition node_attribute (c : ascii) (data : list ascii) (st : locals) : Step :=
  match object_attribute c data st with
  | Some r => r
  | None =>
    if Ascii.eqb c "x"
    then coordinate_attribute set_lon_partial l_location with_location data st
    else if Ascii.eqb c "y"
    then coordinate_attribute set_lat_partial l_location with_location data st
    else unknown_attribute c data
  end.

(** The [switch] of [opl_parse_way]. *)
Definition way_attribute (c : ascii) (data : list ascii) (st : locals) : Step :=
  match object_attribute c data st with
  | Some r => r
  | None =>
    if Ascii.eqb c "N"
    then Some (Ok (opl_skip_section data,
                   with_section data (opl_skip_section data) st))
    else unknown_attribute c data
  end.

(** The [switch] of [opl_parse_relation]. *)
Definition relation_attribute (c : ascii) (data : list ascii) (st : locals)
  : Step :=
  match object_attribute c data st with
  | Some r => r
  | None =>
    if Ascii.eqb c "M"
    then Some (Ok (opl_skip_section data,
                   with_section data (opl_skip_section data) st))
    else unknown_attribute c data
  end.

(** The [switch] of [opl_parse_changeset]. *)
Definition changeset_attribute (c : ascii) (data : list ascii) (st : locals)
  : Step :=
  if Ascii.eqb c "k" then
    told (opl_parse_int num_changes_type data) set_num_changes st
  else if Ascii.eqb c "s" then told (opl_parse_timestamp data) set_created_at st
  else if Ascii.eqb c "e" then told (opl_parse_timestamp data) set_closed_at st
  else if Ascii.eqb c "d" then
    told (opl_parse_int num_comments_type data) set_num_comments st
  else if Ascii.eqb c "i" then told (opl_parse_uid data) set_uid st
  else if Ascii.eqb c "u" then user_attribute data st
  else if Ascii.eqb c "x"
  then coordinate_attribute set_lon_partial l_location with_location data st
  else if Ascii.eqb c "y"
  then coordinate_attribute set_lat_partial l_location with_location data st
  else if Ascii.eqb c "X"
  then coordinate_attribute set_lon_partial l_location2 with_location2 data st
  else if Ascii.eqb c "Y"
  then coordinate_attribute set_lat_partial l_location2 with_location2 data st
  else if Ascii.eqb c "T" then tags_attribute data st
  else unknown_attribute c data.

(** The [while] loop that the four object parsers share, with the
    [switch] of each as [attribute].  Every iteration takes at least one
    space out of the line, which bounds the iterations by [fuel]. *)
Fixpoint attributes (attribute : ascii -> list ascii -> locals -> Step)
    (fuel : nat) (data : list ascii) (st : locals) : Step :=
  match fuel with
  | O => None
  | S fuel' =>
    if Ascii.eqb (peek data) NUL then Some (Ok (data, st))
    else
      Parser_bind (lift (opl_parse_space data)) (fun data =>
      let c := peek data in
      if Ascii.eqb c NUL then Some (Ok (data, st))
      else
        Parser_bind (attribute c (tail data) st) (fun '(data, st) =>
        attributes attribute fuel' data st))
  end.

(** [if (tags_begin) opl_parse_tags(tags_begin, buffer, &builder)] *)
Definition add_tags_from (st : locals) : Parser (list builder_call) :=
  match l_tags_begin st with
  | None => Some (Ok [])
  | Some s =>
    match opl_parse_tags s with
    | None => None
    | Some (Err e) => Some (Err (parse_error e))
    | Some (Ok ts) => Some (Ok [add_tags ts])
    end
  end.

Definition opl_parse_node (data : list ascii)
  : Parser (list ascii * list builder_call) :=
  Parser_bind (lift (opl_parse_id data)) (fun '(id, data) =>
  Parser_bind (attributes node_attribute (S (length data)) data (locals_new id))
    (fun '(data, st) =>
       let located :=
         if valid (l_location st) then [set_location (l_location st)] else [] in
       Parser_bind (add_tags_from st) (fun tags =>
       Some (Ok (data, l_calls st ++ located ++ [add_user (l_user st)] ++ tags))))).

Definition opl_parse_way (data : list ascii)
  : Parser (list ascii * list builder_call) :=
  Parser_bind (lift (opl_parse_id data)) (fun '(id, data) =>
  Parser_bind (attributes way_attribute (S (length data)) data (locals_new id))
    (fun '(data, st) =>
       Parser_bind (add_tags_from st) (fun tags =>
       Parser_bind
         (match l_section_begin st, l_section_end st with
          | Some s, Some e => opl_parse_way_nodes s e
          | _, _ => Some (Ok None)
          end)
         (fun nodes =>
            Some (Ok (data,
                      l_calls st ++ [add_user (l_user st)] ++ tags
                      ++ match nodes with
                         | Some ns => [add_node_refs ns]
                         | None => []
                         end)))))).

Definition opl_parse_relation (data : list ascii)
  : Parser (list ascii * list builder_call) :=
  Parser_bind (lift (opl_parse_id data)) (fun '(id, data) =>
  Parser_bind
    (attributes relation_attribute (S (length data)) data (locals_new id))
    (fun '(data, st) =>
       Parser_bind (add_tags_from st) (fun tags =>
       Parser_bind
         (match l_section_begin st, l_section_end st with
          | Some s, Some e =>
            if negb (ptr_eqb s e)
            then
              match opl_parse_relation_members s e with
              | None => None
              | Some (Err err) => Some (Err (parse_error err))
              | Some (Ok members) => Some (Ok members)
              end
            else Some (Ok None)
          | _, _ => Some (Ok None)
          end)
         (fun members =>
            Some (Ok (data,
                      l_calls st ++ [add_user (l_user st)] ++ tags
                      ++ match members with
                         | Some ms => [add_members ms]
                         | None => []
                         end)))))).

Definition opl_parse_changeset (data : list ascii)
  : Parser (list ascii * list builder_call) :=
  Parser_bind (lift (opl_parse_changeset_id data)) (fun '(id, data) =>
  Parser_bind
    (attributes changeset_attribute (S (length data)) data (locals_new id))
    (fun '(data, st) =>
       let bounds :=
         if valid (l_location st) && valid (l_location2 st)
         then [bounds_extend (l_location st); bounds_extend (l_location2 st)]
         else [] in
       Parser_bind (add_tags_from st) (fun tags =>
       Some (Ok (data, l_calls st ++ bounds ++ [add_user (l_user st)] ++ tags))))).

(** [opl_error::set_pos] on an error with the message [what]. *)
Definition set_pos (what : string) (data : list ascii) (l col : Z)
  : line_exception :=
  opl_error_at l col data
    ("OPL error: " +:+ what +:+ " on line " +:+ pretty l
     +:+ " column " +:+ pretty col).

(** The handler of [opl_parse_line]: an [opl_error] gets its position,
    the column being the distance of its data pointer from the start of
    the line. *)
Definition locate (line_count : Z) (start_of_line : list ascii)
    (e : object_exception) : line_exception :=
  match e with
  | parse_error (opl_error what data) =>
    set_pos what data line_count
            (Z.of_nat (length start_of_line) - Z.of_nat (length data))
  | _ => other_exception e
  end.

(** One of the four cases of [opl_parse_line] that parse an object. *)
Definition parse_object (line_count : Z) (start_of_line : list ascii)
    (wanted : bool)
    (parse : list ascii -> Parser (list ascii * list builder_call))
    (make : list builder_call -> object)
  : option (Result line_exception (option object)) :=
  if wanted then
    match parse (tail start_of_line) with
    | None => None
    | Some (Err e) => Some (Err (locate line_count start_of_line e))
    | Some (Ok (_, calls)) => Some (Ok (Some (make calls)))
    end
  else Some (Ok None).

(** [opl_parse_line]: the object added to the buffer when the function
    returns true, [None] when it returns false. *)
Definition opl_parse_line (line_count : Z) (data : list ascii)
    (read_types : Z) : option (Result line_exception (option object)) :=
  let c := peek data in
  if Ascii.eqb c NUL then Some (Ok None)
  else if Ascii.eqb c "#" then Some (Ok None)
  else if Ascii.eqb c "n" then
    parse_object line_count data
      (negb (Z.land read_types entity_bits_node =? 0))
      opl_parse_node node_object
  else if Ascii.eqb c "w" then
    parse_object line_count data
      (negb (Z.land read_types entity_bits_way =? 0))
      opl_parse_way way_object
  else if Ascii.eqb c "r" then
    parse_object line_count data
      (negb (Z.land read_types entity_bits_relation =? 0))
      opl_parse_relation relation_object
  else if Ascii.eqb c "c" then
    parse_object line_count data
      (negb (Z.land read_types entity_bits_changeset =? 0))
      opl_parse_changeset changeset_object
  else
    Some (Err (locate line_count data
                 (parse_error (opl_error "unknown type" data)))).

End OPL_objects.

(** An instance for examples: a timestamp is the twenty characters it is
    written with, a coordinate is a decimal integer, the counts are
    unsigned 32-bit integers, and the kinds of object have the bits 1, 2, 4
    and 16. *)
Definition example_coordinate (put : Z -> Location -> Location)
    (l : Location) (s : list ascii) : Result string (Location * list ascii) :=
  match opl_parse_int int32_T s with
  | Ok (v, s') => Ok (put v l, s')
  | Err _ => Err "wrong format for coordinate"
  end.

Definition example_deps : OPLDeps := {|
  Timestamp := list ascii;
  default_timestamp := [];
  timestamp_of := fun s =>
    if (20 <=? length s)%nat then Some (take 20 s) else None;
  set_lon_partial :=
    example_coordinate (fun v l => mkLocation v (loc_y l));
  set_lat_partial :=
    example_coordinate (fun v l => mkLocation (loc_x l) v);
  valid := Location_valid;
  num_changes_type := uint32_T;
  num_comments_type := uint32_T;
  entity_bits_node := 1;
  entity_bits_way := 2;
  entity_bits_relation := 4;
  entity_bits_changeset := 16
|}.

(** *** Pointers into a line *)

(** The data pointer of an [opl_error] points into [s]. *)
Definition error_within (s : list ascii) (e : opl_exception) : Prop :=
  match e with
  | opl_error _ data => data `suffix_of` s
  | invalid_code_point _ => True
  end.

(** A parser that moves its data pointer forward inside [s], or throws
    an error that points into [s]. *)
Definition result_within {A : Type} (s : list ascii)
    (r : Result opl_exception (A * list ascii)) : Prop :=
  match r with
  | Ok (_, s') => s' `suffix_of` s
  | Err e => error_within s e
  end.

(** What the object parsers need of the coordinate readers: they move
    the data pointer forward. *)
Definition setters_advance `{Deps : OPLDeps} : Prop :=
  forall l s l' s',
    (set_lon_partial l s = Ok (l', s') -> s' `suffix_of` s)
    /\ (set_lat_partial l s = Ok (l', s') -> s' `suffix_of` s).

Section OPL_within.
Context `{Deps : OPLDeps}.

Definition object_error_within (s : list ascii) (e : object_exception)
  : Prop :=
  match e with
  | parse_error e => error_within s e
  | invalid_location _ => True
  end.

(** The pointers kept in the local variables point into the line. *)
Definition locals_within (line : list ascii) (st : locals) : Prop :=
  (forall p, l_tags_begin st = Some p -> p `suffix_of` line)
  /\ (forall p, l_section_begin st = Some p -> p `suffix_of` line)
  /\ (forall p, l_section_end st = Some p -> p `suffix_of` line).

(** A case of a [switch] that ends: it moves the data pointer forward
    from [data] and keeps the pointers inside the line, or throws an
    error that points into the line. *)
Definition step_within (line data : list ascii) (r : Step) : Prop :=
  match r with
  | Some (Ok (data', st')) => data' `suffix_of` data /\ locals_within line st'
  | Some (Err e) => object_error_within line e
  | None => False
  end.

(** An object parser that ends, with an error that points into the
    line if it throws. *)
Definition parser_within {A : Type} (line : list ascii) (r : Parser A)
  : Prop :=
  match r with
  | Some (Ok _) => True
  | Some (Err e) => object_error_within line e
  | None => False
  end.

End OPL_within.

Section OPL_kinds.
Context `{Deps : OPLDeps}.

(** The character a line of an object starts with, and the bit that asks
    for objects of its kind. *)
Definition kind_char (obj : object) : ascii :=
  match obj with
  | node_object _ => "n"
  | way_object _ => "w"
  | relation_object _ => "r"
  | changeset_object _ => "c"
  end.

Definition kind_bit (obj : object) : Z :=
  match obj with
  | node_object _ => entity_bits_node
  | way_object _ => entity_bits_way
  | relation_object _ => entity_bits_relation
  | changeset_object _ => entity_bits_changeset
  end.

End OPL_kinds.

(* ===================================================================== *)
(** * Theorems                                                           *)
(* ===================================================================== *)

(** ** Fixed-width integers *)

Lemma wrap64_small (z : Z) : in_int64 z -> wrap64 z = z.
Proof.
  unfold in_int64, INT64_MIN, INT64_MAX, wrap64. intros H.
  rewrite Z.mod_small; lia.
Qed.

(** ** Segments *)

Lemma Location_eqb_eq (a b : Location) : Location_eqb a b = true <-> a = b.
Proof.
  unfold Location_eqb. destruct a as [ax ay], b as [bx by_]. simpl.
  rewrite andb_true_iff, !Z.eqb_eq. split.
  - intros [-> ->]. reflexivity.
  - intros H. injection H as -> ->. split; reflexivity.
Qed.

Lemma Location_eqb_neq (a b : Location) : Location_eqb a b = false <-> a <> b.
Proof.
  rewrite <- Location_eqb_eq. destruct (Location_eqb a b); split; congruence.
Qed.

Lemma Location_leb_le_lex (a b : Location) :
  Location_leb a b = true <-> Location_le_lex a b.
Proof.
  unfold Location_leb, Location_ltb, Location_le_lex.
  rewrite negb_true_iff, orb_false_iff, andb_false_iff.
  rewrite !Z.ltb_ge, Z.eqb_neq. lia.
Qed.

Lemma NodeRefSegment_new_canonical nr1 nr2 role way :
  Location_leb (location (first (NodeRefSegment_new nr1 nr2 role way)))
               (location (second (NodeRefSegment_new nr1 nr2 role way))) = true.
Proof.
  unfold NodeRefSegment_new.
  destruct (Location_ltb (location nr2) (location nr1)) eqn:Hlt; simpl.
  - unfold Location_leb, Location_ltb in *.
    apply orb_true_iff in Hlt. rewrite andb_true_iff in Hlt.
    rewrite negb_true_iff, orb_false_iff, andb_false_iff.
    rewrite ?Z.ltb_lt, ?Z.ltb_ge, ?Z.eqb_eq, ?Z.eqb_neq in *. lia.
  - unfold Location_leb. rewrite Hlt. reflexivity.
Qed.

(** The constructor keeps both node references and only chooses their
    order. *)
Lemma NodeRefSegment_new_endpoints nr1 nr2 role way :
  let s := NodeRefSegment_new nr1 nr2 role way in
  (first s = nr1 /\ second s = nr2) \/ (first s = nr2 /\ second s = nr1).
Proof.
  unfold NodeRefSegment_new.
  destruct (Location_ltb (location nr2) (location nr1)); simpl; auto.
Qed.

(** C9: the constructor canonicalizes the pair, so that the first location
    is not after the second in the lexicographic (x, then y) order, and
    [operator==] holds exactly when the first locations agree and the second
    locations agree: ids, roles and way handles play no part. *)
Theorem segment_canonical_and_equality :
  (forall nr1 nr2 role way,
     let s := NodeRefSegment_new nr1 nr2 role way in
     Location_leb (location (first s)) (location (second s)) = true
     /\ Location_le_lex (location (first s)) (location (second s)))
  /\ (forall s1 s2 : NodeRefSegment,
        NodeRefSegment_eqb s1 s2 = true
        <-> location (first s1) = location (first s2)
            /\ location (second s1) = location (second s2))
  /\ (forall l1 l2 id1 id2 id1' id2' role role' way way',
        NodeRefSegment_eqb
          (NodeRefSegment_new (mkNodeRef id1 l1) (mkNodeRef id2 l2) role way)
          (NodeRefSegment_new (mkNodeRef id1' l1) (mkNodeRef id2' l2) role' way')
        = true).
Proof.
  split; [|split].
  - intros nr1 nr2 role way s. split.
    + apply NodeRefSegment_new_canonical.
    + apply Location_leb_le_lex, NodeRefSegment_new_canonical.
  - intros s1 s2. unfold NodeRefSegment_eqb.
    rewrite andb_true_iff, !Location_eqb_eq. reflexivity.
  - intros. unfold NodeRefSegment_eqb, NodeRefSegment_new. simpl.
    destruct (Location_ltb l2 l1); simpl;
      apply andb_true_iff; split; apply Location_eqb_eq; reflexivity.
Qed.

(** [operator<] orders segments by their first location and, for equal
    first locations, by their second. *)
Lemma NodeRefSegment_ltb_spec (lhs rhs : NodeRefSegment) :
  NodeRefSegment_ltb lhs rhs = true
  <-> Location_ltb (location (first lhs)) (location (first rhs)) = true
      \/ (location (first lhs) = location (first rhs)
          /\ Location_ltb (location (second lhs)) (location (second rhs)) = true).
Proof.
  unfold NodeRefSegment_ltb.
  rewrite orb_true_iff, andb_true_iff, Location_eqb_eq. tauto.
Qed.

(** *** [to_left_of] *)

Lemma checked64_Some (z r : Z) :
  checked64 z = Some r <-> r = z /\ in_int64 z.
Proof.
  unfold checked64, in_int64.
  destruct (Z.leb_spec INT64_MIN z) as [H1 | H1],
    (Z.leb_spec z INT64_MAX) as [H2 | H2]; cbn;
    (split; [intros H | intros [-> H]]); try discriminate; try lia.
  - injection H as <-. lia.
  - reflexivity.
Qed.

Lemma checked64_small (z : Z) : in_int64 z -> checked64 z = Some z.
Proof. intros H. apply checked64_Some. auto. Qed.

Lemma ordered_by_y_spec (f g : Location) :
  let a := fst (ordered_by_y f g) in
  let b := snd (ordered_by_y f g) in
  loc_y a <= loc_y b /\ ((a = f /\ b = g) \/ (a = g /\ b = f)).
Proof.
  unfold ordered_by_y. destruct (Z.ltb_spec (loc_y g) (loc_y f)); simpl.
  - split; [lia | right; auto].
  - split; [lia | left; auto].
Qed.

(** Read while they hold what they were given, the references of
    [std::minmax] give the endpoints ordered by y. *)
Lemma deref_live (s : NodeRefSegment) :
  let mm := minmax_by_y (location (first s)) (location (second s)) in
  (deref (live s) (fst mm), deref (live s) (snd mm))
  = ordered_by_y (location (first s)) (location (second s)).
Proof.
  unfold minmax_by_y, ordered_by_y, live.
  destruct (loc_y (location (second s)) <? loc_y (location (first s)));
    reflexivity.
Qed.

Lemma live_reads_endpoints (s : NodeRefSegment) : reads_endpoints (live s) s.
Proof. split; [left | right]; reflexivity. Qed.

Lemma overlaid_reads_endpoints (l : Location) (s : NodeRefSegment) :
  l = location (first s) \/ l = location (second s) ->
  reads_endpoints (overlaid l) s.
Proof. intros H. split; exact H. Qed.

(** At an endpoint the answer is given before [mm] is looked at. *)
Lemma to_left_of_endpoint (t : temporaries) (s : NodeRefSegment)
    (p : Location) :
  p = location (first s) \/ p = location (second s) ->
  to_left_of t s p = Some false.
Proof.
  intros Hp. unfold to_left_of.
  assert (Location_eqb (location (first s)) p
          || Location_eqb (location (second s)) p = true) as ->;
    [|reflexivity].
  apply orb_true_iff. rewrite !Location_eqb_eq.
  destruct Hp as [-> | ->]; auto.
Qed.

(** The third rejection test reads [first()] itself, not [mm]. *)
Lemma to_left_of_first_x (t : temporaries) (s : NodeRefSegment)
    (p : Location) :
  loc_x (location (first s)) > loc_x p -> to_left_of t s p = Some false.
Proof.
  intros Hx. unfold to_left_of.
  destruct (Location_eqb _ _ || Location_eqb _ _); [reflexivity|].
  cbv zeta.
  assert ((loc_x (location (first s)) >? loc_x p) = true) as ->
    by (apply Z.gtb_gt; exact Hx).
  rewrite orb_true_r. reflexivity.
Qed.

(** When both references read the same object, one of the two tests on y
    rejects: the answer is false at every point. *)
Lemma to_left_of_overlaid (l : Location) (s : NodeRefSegment) (p : Location) :
  to_left_of (overlaid l) s p = Some false.
Proof.
  unfold to_left_of.
  destruct (Location_eqb _ _ || Location_eqb _ _); [reflexivity|].
  cbv zeta.
  assert (forall r, deref (overlaid l) r = l) as Hd by (intros []; reflexivity).
  rewrite !Hd.
  destruct (Z.geb_spec (loc_y l) (loc_y p)) as [Hge | Hlt]; [reflexivity|].
  assert ((loc_y l <? loc_y p) = true) as -> by (apply Z.ltb_lt; lia).
  reflexivity.
Qed.

(** Behind the three rejection tests the answer is that of the cross
    product of what was read. *)
Lemma to_left_of_accepts (t : temporaries) (s : NodeRefSegment)
    (p : Location) (r : bool) :
  let mm := minmax_by_y (location (first s)) (location (second s)) in
  to_left_of t s p = Some r ->
  r = false
  \/ (p <> location (first s) /\ p <> location (second s)
      /\ loc_y (deref t (fst mm)) < loc_y p <= loc_y (deref t (snd mm))
      /\ loc_x (location (first s)) <= loc_x p
      /\ exists c, cross64 (deref t (fst mm)) (deref t (snd mm)) p = Some c
                   /\ r = (c <=? 0)).
Proof.
  intros mm. unfold to_left_of. fold mm.
  destruct (Location_eqb (location (first s)) p) eqn:Ef;
    [intros H; injection H as <-; auto|].
  destruct (Location_eqb (location (second s)) p) eqn:Eg;
    [intros H; injection H as <-; auto|].
  cbn [orb]. cbv zeta.
  destruct (Z.geb_spec (loc_y (deref t (fst mm))) (loc_y p)) as [H1 | H1];
    [intros H; injection H as <-; auto|].
  destruct (Z.ltb_spec (loc_y (deref t (snd mm))) (loc_y p)) as [H2 | H2];
    [intros H; injection H as <-; auto|].
  destruct (Z.gtb_spec (loc_x (location (first s))) (loc_x p)) as [H3 | H3];
    [intros H; injection H as <-; auto|].
  cbn [orb].
  destruct (cross64 (deref t (fst mm)) (deref t (snd mm)) p) as [c|];
    [|discriminate].
  cbn. intros H. injection H as <-. right.
  apply Location_eqb_neq in Ef, Eg.
  repeat split; try congruence; try lia. exists c. auto.
Qed.

(** When each object holds the location of an endpoint, a point that is
    not above the lower endpoint, or is above the higher one, is rejected. *)
Lemma to_left_of_outside_y (t : temporaries) (s : NodeRefSegment)
    (p : Location) :
  let a := fst (ordered_by_y (location (first s)) (location (second s))) in
  let b := snd (ordered_by_y (location (first s)) (location (second s))) in
  reads_endpoints t s ->
  loc_y a >= loc_y p \/ loc_y b < loc_y p ->
  to_left_of t s p = Some false.
Proof.
  intros a b Hreads Hy.
  destruct (to_left_of t s p) as [r|] eqn:E.
  - apply to_left_of_accepts in E as [-> | (_ & _ & Hin & _)]; [reflexivity|].
    exfalso.
    destruct (ordered_by_y_spec (location (first s)) (location (second s)))
      as [Hab Hends].
    fold a b in Hab, Hends.
    assert (forall r, loc_y a <= loc_y (deref t r) <= loc_y b) as Hd.
    { intros r0.
      assert (deref t r0 = location (first s)
              \/ deref t r0 = location (second s)) as [-> | ->]
        by (destruct Hreads, r0; assumption);
        destruct Hends as [[-> ->] | [-> ->]]; lia. }
    pose proof (Hd (fst (minmax_by_y (location (first s))
                                     (location (second s))))).
    pose proof (Hd (snd (minmax_by_y (location (first s))
                                     (location (second s))))).
    lia.
  - exfalso. revert E. unfold to_left_of.
    destruct (Location_eqb _ _ || Location_eqb _ _); [discriminate|].
    cbv zeta.
    set (mm := minmax_by_y (location (first s)) (location (second s))).
    destruct (ordered_by_y_spec (location (first s)) (location (second s)))
      as [Hab Hends].
    fold a b in Hab, Hends.
    assert (forall r, loc_y a <= loc_y (deref t r) <= loc_y b) as Hd.
    { intros r0.
      assert (deref t r0 = location (first s)
              \/ deref t r0 = location (second s)) as [-> | ->]
        by (destruct Hreads, r0; assumption);
        destruct Hends as [[-> ->] | [-> ->]]; lia. }
    pose proof (Hd (fst mm)). pose proof (Hd (snd mm)).
    destruct (Z.geb_spec (loc_y (deref t (fst mm))) (loc_y p));
      [discriminate|].
    destruct (Z.ltb_spec (loc_y (deref t (snd mm))) (loc_y p));
      [discriminate|].
    lia.
Qed.

(** When each object holds the location of an endpoint and the answer is
    true, the reads gave the endpoints in the order of their y. *)
Lemma to_left_of_true_reads (t : temporaries) (s : NodeRefSegment)
    (p : Location) :
  let a := fst (ordered_by_y (location (first s)) (location (second s))) in
  let b := snd (ordered_by_y (location (first s)) (location (second s))) in
  reads_endpoints t s ->
  to_left_of t s p = Some true ->
  p <> location (first s) /\ p <> location (second s)
  /\ loc_y a < loc_y p <= loc_y b
  /\ loc_x (location (first s)) <= loc_x p
  /\ exists c, cross64 a b p = Some c /\ c <= 0.
Proof.
  intros a b Hreads Htrue.
  apply to_left_of_accepts in Htrue
    as [Hf | (Hpf & Hpg & Hin & Hx & c & Hc & Hle)]; [discriminate|].
  set (mm := minmax_by_y (location (first s)) (location (second s))) in *.
  destruct (ordered_by_y_spec (location (first s)) (location (second s)))
    as [Hab Hends].
  fold a b in Hab, Hends.
  assert (forall r, deref t r = a \/ deref t r = b) as Hd.
  { intros r0.
    assert (deref t r0 = location (first s)
            \/ deref t r0 = location (second s)) as [-> | ->]
      by (destruct Hreads, r0; assumption);
      destruct Hends as [[-> ->] | [-> ->]]; auto. }
  assert (deref t (fst mm) = a /\ deref t (snd mm) = b) as [Ea Eb].
  { destruct (Hd (fst mm)) as [E1 | E1], (Hd (snd mm)) as [E2 | E2];
      rewrite E1, E2 in Hin; try (split; assumption); exfalso; lia. }
  rewrite Ea, Eb in Hin, Hc.
  repeat split; try assumption; try lia.
  exists c. split; [exact Hc|]. symmetry in Hle. apply Z.leb_le in Hle.
  exact Hle.
Qed.

(** While the two objects hold what they were given, [to_left_of] is the
    three tests and the cross product on the endpoints ordered by y. *)
Lemma to_left_of_live (s : NodeRefSegment) (p : Location) :
  let f := location (first s) in
  let g := location (second s) in
  let a := fst (ordered_by_y f g) in
  let b := snd (ordered_by_y f g) in
  to_left_of (live s) s p
  = if Location_eqb f p || Location_eqb g p then Some false
    else if (loc_y a >=? loc_y p) || (loc_y b <? loc_y p)
            || (loc_x f >? loc_x p)
         then Some false
         else c ← cross64 a b p; Some (c <=? 0).
Proof.
  intros f g a b. unfold to_left_of. fold f g. cbv zeta.
  pose proof (deref_live s) as Hd. cbv zeta in Hd. fold f g in Hd.
  pose proof (f_equal fst Hd) as Ha. pose proof (f_equal snd Hd) as Hb.
  cbn [fst snd] in Ha, Hb. rewrite Ha, Hb. reflexivity.
Qed.

(** C2 (as the code has it): [to_left_of] is false when p equals either
    endpoint, and false when first().x > p.x -- the x coordinate of the
    segment's first endpoint, not of a -- whatever the reads through [mm]
    find.  When each of the two objects read through [mm] holds the
    location of an endpoint, then with (a, b) the endpoints ordered by y
    the answer is false if a.y >= p.y or b.y < p.y, and it is true only if
    p is no endpoint, none of the three tests rejects, and the signed 64-bit
    cross product (b.x-a.x)(p.y-a.y) - (b.y-a.y)(p.x-a.x) is <= 0.  When
    the two objects hold what they were given, then in the case that is
    left the answer is true exactly when that cross product is <= 0, and
    false exactly when it is > 0. *)
Theorem to_left_of_characterisation (t : temporaries) (s : NodeRefSegment)
    (p : Location) :
  let f := location (first s) in
  let g := location (second s) in
  let a := fst (ordered_by_y f g) in
  let b := snd (ordered_by_y f g) in
  (p = f \/ p = g \/ loc_x f > loc_x p -> to_left_of t s p = Some false)
  /\ (reads_endpoints t s ->
      (loc_y a >= loc_y p \/ loc_y b < loc_y p ->
       to_left_of t s p = Some false)
      /\ (to_left_of t s p = Some true ->
          p <> f /\ p <> g
          /\ ~ (loc_y a >= loc_y p \/ loc_y b < loc_y p \/ loc_x f > loc_x p)
          /\ exists c, cross64 a b p = Some c /\ c <= 0))
  /\ (t = live s ->
      p <> f -> p <> g ->
      ~ (loc_y a >= loc_y p \/ loc_y b < loc_y p \/ loc_x f > loc_x p) ->
      (to_left_of t s p = Some true
       <-> exists c, cross64 a b p = Some c /\ c <= 0)
      /\ (to_left_of t s p = Some false
          <-> exists c, cross64 a b p = Some c /\ c > 0)).
Proof.
  intros f g a b. split; [|split].
  - intros [Hp | [Hp | Hx]].
    + apply to_left_of_endpoint. auto.
    + apply to_left_of_endpoint. auto.
    + apply to_left_of_first_x. exact Hx.
  - intros Hreads. split.
    + apply to_left_of_outside_y. exact Hreads.
    + intros Htrue.
      destruct (to_left_of_true_reads t s p Hreads Htrue)
        as (Hf & Hg & Hy & Hx & Hc).
      fold f g a b in Hf, Hg, Hy, Hx, Hc.
      repeat split; try assumption. lia.
  - intros -> Hf Hg Hrej.
    pose proof (to_left_of_live s p) as Hlive. cbv zeta in Hlive.
    fold f g a b in Hlive. rewrite Hlive.
    assert (Location_eqb f p || Location_eqb g p = false) as ->.
    { apply orb_false_iff. rewrite !Location_eqb_neq. split; congruence. }
    assert ((loc_y a >=? loc_y p) || (loc_y b <? loc_y p)
            || (loc_x f >? loc_x p) = false) as ->.
    { rewrite !orb_false_iff. rewrite Z.geb_leb, Z.gtb_ltb, !Z.leb_gt, !Z.ltb_ge.
      lia. }
    destruct (cross64 a b p) as [c|]; cbn.
    + destruct (Z.leb_spec c 0); split; split.
      * intros _. exists c. auto.
      * reflexivity.
      * discriminate.
      * intros (c' & Hc' & Hlt). injection Hc' as <-. lia.
      * discriminate.
      * intros (c' & Hc' & Hlt). injection Hc' as <-. lia.
      * intros _. exists c. split; [reflexivity | lia].
      * reflexivity.
    + split; split; try discriminate; intros (c & Hc & _); discriminate.
Qed.

(** *** No overflow for coordinates of the globe *)

Lemma cross_bound (ax ay bx by_ px py : Z) :
  -1800000000 <= ax <= 1800000000 -> -1800000000 <= bx <= 1800000000 ->
  -1800000000 <= px <= 1800000000 ->
  -900000000 <= ay <= 900000000 -> -900000000 <= by_ <= 900000000 ->
  -900000000 <= py <= 900000000 ->
  ay < py <= by_ -> Z.min ax bx <= px ->
  - 6480000000000000000
  <= (bx - ax) * (py - ay) - (by_ - ay) * (px - ax)
  <= 6480000000000000000.
Proof.
  intros Hax Hbx Hpx Hay Hby Hpy Hy Hx.
  set (dx := bx - ax) in *. set (dy := by_ - ay) in *.
  set (t := py - ay) in *. set (u := px - ax) in *.
  assert (0 < t <= dy) as Ht by (subst t dy; lia).
  assert (dy <= 1800000000) as Hdy by (subst dy; lia).
  assert (-3600000000 <= dx <= 3600000000) as Hdx by (subst dx; lia).
  assert (Z.min 0 dx <= u) as Hu1 by (subst u dx; lia).
  assert (u <= 3600000000) as Hu2 by (subst u; lia).
  assert (dx < 0 -> u <= 3600000000 + dx) as Hu3 by (subst u dx; lia).
  clearbody dx dy t u.
  destruct (Z_lt_le_dec dx 0) as [Hneg | Hpos].
  - assert (dx <= u) by lia. split.
    + destruct (Z_lt_le_dec u 0).
      * assert (0 <= - (dy * u)) by nia.
        assert (-6480000000000000000 <= dx * t) by nia. lia.
      * assert (dx * t >= dx * dy) by nia.
        assert (dy * u <= dy * (3600000000 + dx)) by nia. nia.
    + assert (dy * u >= dy * dx) by nia.
      assert (dx * t - dy * dx = (- dx) * (dy - t)) by lia.
      assert ((- dx) * (dy - t) <= 3600000000 * 1800000000) by nia. lia.
  - assert (0 <= u) by lia. split.
    + assert (0 <= dx * t) by nia.
      assert (dy * u <= 1800000000 * 3600000000) by nia. lia.
    + assert (0 <= dy * u) by nia.
      assert (dx * t <= 3600000000 * 1800000000) by nia. lia.
Qed.

(** Where [to_left_of] evaluates the cross product -- behind its three
    rejection tests -- and for coordinates of the globe, no operation on
    [int64_t] overflows: the value computed is the cross product itself. *)
Lemma cross64_exact (a b p : Location) :
  valid_coordinates a -> valid_coordinates b -> valid_coordinates p ->
  loc_y a < loc_y p <= loc_y b ->
  Z.min (loc_x a) (loc_x b) <= loc_x p ->
  cross64 a b p = Some (cross a b p).
Proof.
  intros [Hax Hay] [Hbx Hby] [Hpx Hpy] Hy Hx.
  pose proof (cross_bound _ _ _ _ _ _ Hax Hbx Hpx Hay Hby Hpy Hy Hx) as Hc.
  unfold cross64, cross.
  rewrite (checked64_small (loc_x b - loc_x a)),
    (checked64_small (loc_y p - loc_y a)),
    (checked64_small (loc_y b - loc_y a)),
    (checked64_small (loc_x p - loc_x a))
    by (unfold in_int64, INT64_MIN, INT64_MAX; lia).
  cbn.
  rewrite (checked64_small ((loc_x b - loc_x a) * (loc_y p - loc_y a)))
    by (unfold in_int64, INT64_MIN, INT64_MAX; nia).
  cbn.
  rewrite (checked64_small ((loc_y b - loc_y a) * (loc_x p - loc_x a)))
    by (unfold in_int64, INT64_MIN, INT64_MAX; nia).
  cbn.
  apply checked64_small. unfold in_int64, INT64_MIN, INT64_MAX. lia.
Qed.

(** For a constructed segment the x coordinate of [first()] is the smaller
    of the two x coordinates, whichever endpoint has the smaller y. *)
Lemma first_x_is_min nr1 nr2 role way :
  let s := NodeRefSegment_new nr1 nr2 role way in
  let ab := ordered_by_y (location (first s)) (location (second s)) in
  loc_x (location (first s)) = Z.min (loc_x (fst ab)) (loc_x (snd ab)).
Proof.
  intros s ab.
  pose proof (NodeRefSegment_new_canonical nr1 nr2 role way) as Hc.
  apply Location_leb_le_lex in Hc. fold s in Hc. unfold Location_le_lex in Hc.
  destruct (ordered_by_y_spec (location (first s)) (location (second s)))
    as [_ [[Ha Hb] | [Ha Hb]]]; fold ab in Ha, Hb; rewrite Ha, Hb; lia.
Qed.

(** For a constructed segment and coordinates of the globe, read while the
    two objects hold what they were given, [to_left_of] has an answer, and
    the answer is true exactly when the point is no endpoint, lies above the
    lower endpoint and not above the higher one, not to the left of both,
    and the cross product over the integers is <= 0. *)
Lemma to_left_of_exact (nr1 nr2 : NodeRef) (role : option string)
    (way : option Z) (p : Location) :
  valid_coordinates (location nr1) -> valid_coordinates (location nr2) ->
  valid_coordinates p ->
  let s := NodeRefSegment_new nr1 nr2 role way in
  let a := fst (ordered_by_y (location (first s)) (location (second s))) in
  let b := snd (ordered_by_y (location (first s)) (location (second s))) in
  exists r,
    to_left_of (live s) s p = Some r
    /\ (r = true
        <-> p <> location (first s) /\ p <> location (second s)
            /\ loc_y a < loc_y p <= loc_y b
            /\ Z.min (loc_x a) (loc_x b) <= loc_x p
            /\ cross a b p <= 0).
Proof.
  intros H1 H2 Hp s a b.
  pose proof (first_x_is_min nr1 nr2 role way) as Hmin.
  cbv zeta in Hmin. fold s in Hmin. fold a b in Hmin.
  assert (valid_coordinates a /\ valid_coordinates b) as [Ha Hb].
  { destruct (NodeRefSegment_new_endpoints nr1 nr2 role way) as [[Hf Hg] | [Hf Hg]];
      fold s in Hf, Hg;
      destruct (ordered_by_y_spec (location (first s)) (location (second s)))
        as [_ [[Ea Eb] | [Ea Eb]]];
      fold a in Ea; fold b in Eb; rewrite Ea, Eb, Hf, Hg; auto. }
  pose proof (to_left_of_live s p) as Hlive. cbv zeta in Hlive.
  fold a b in Hlive. rewrite Hlive. clear Hlive.
  destruct (Location_eqb (location (first s)) p) eqn:Ef.
  { apply Location_eqb_eq in Ef. exists false. split; [reflexivity|].
    split; [discriminate | intros (Hf & _); congruence]. }
  destruct (Location_eqb (location (second s)) p) eqn:Eg.
  { apply Location_eqb_eq in Eg. exists false. split; [reflexivity|].
    split; [discriminate | intros (_ & Hg & _); congruence]. }
  apply Location_eqb_neq in Ef, Eg. cbn [orb].
  destruct (Z.geb_spec (loc_y a) (loc_y p)) as [Hy1 | Hy1].
  { exists false. split; [reflexivity|].
    split; [discriminate | intros (_ & _ & Hy & _); lia]. }
  destruct (Z.ltb_spec (loc_y b) (loc_y p)) as [Hy2 | Hy2].
  { exists false. split; [reflexivity|].
    split; [discriminate | intros (_ & _ & Hy & _); lia]. }
  destruct (Z.gtb_spec (loc_x (location (first s))) (loc_x p)) as [Hx | Hx].
  { exists false. split; [reflexivity|].
    split; [discriminate | intros (_ & _ & _ & Hx' & _); lia]. }
  cbn [orb]. rewrite cross64_exact by (assumption || lia). cbn.
  exists (cross a b p <=? 0). split; [reflexivity|].
  rewrite Z.leb_le. split.
  - intros Hc. repeat split; try congruence; lia.
  - intros (_ & _ & _ & _ & Hc). exact Hc.
Qed.

(** The predicate of the specification is not what the code computes,
    whichever way the reads through [mm] go.  While the two objects hold
    what they were given: on the segment descending from (0,10) to (10,0)
    and the point (5,6) to its right, a.x = 10 > 5 = p.x, so the rejection
    test on a.x answers false, and the code answers true.  When both
    references read one object, whichever endpoint it holds: on the segment
    from (0,0) to (10,10) and the point (5,4) to its right, no test of the
    specification rejects and the cross product is -10, so its answer is
    true, and the code answers false. *)
Lemma to_left_of_rejects_on_first_not_a :
  (mkLocation 5 6 <> location (first example_descending)
   /\ mkLocation 5 6 <> location (second example_descending)
   /\ loc_x (fst (ordered_by_y (location (first example_descending))
                               (location (second example_descending))))
      > 5
   /\ to_left_of (live example_descending) example_descending
                 (mkLocation 5 6) = Some true
   /\ to_left_of_spec example_descending (mkLocation 5 6) = Some false)
  /\ (to_left_of (overlaid (mkLocation 0 0)) example_diagonal
                 (mkLocation 5 4) = Some false
      /\ to_left_of (overlaid (mkLocation 10 10)) example_diagonal
                    (mkLocation 5 4) = Some false
      /\ cross64 (mkLocation 0 0) (mkLocation 10 10) (mkLocation 5 4)
         = Some (-10)
      /\ to_left_of_spec example_diagonal (mkLocation 5 4) = Some true).
Proof.
  repeat split; try discriminate; vm_compute; reflexivity.
Qed.

(** The characterisation applied to the descending segment and the point
    (5,6), read while the two objects hold what they were given. *)
Lemma to_left_of_characterisation_witness :
  (to_left_of (live example_descending) example_descending (mkLocation 5 6)
   = Some true
   <-> exists c, cross64 (mkLocation 10 0) (mkLocation 0 10) (mkLocation 5 6)
                 = Some c /\ c <= 0)
  /\ (to_left_of (live example_descending) example_descending (mkLocation 5 6)
      = Some false
      <-> exists c, cross64 (mkLocation 10 0) (mkLocation 0 10) (mkLocation 5 6)
                    = Some c /\ c > 0).
Proof.
  refine (proj2 (proj2 (to_left_of_characterisation
    (live example_descending) example_descending (mkLocation 5 6)))
    _ _ _ _).
  - reflexivity.
  - discriminate.
  - discriminate.
  - simpl. lia.
Defined.

(** C3 (as the code has it): for the segment from (0,0) to (10,10),
    [to_left_of((5,6))] is false whenever each of the two objects read
    through [mm] holds the location of an endpoint (the segment passes to
    the right of the point), and [to_left_of((-1,5))] is false whatever the
    reads find (first().x = 0 > -1). *)
Theorem to_left_of_diagonal_examples :
  (forall t, reads_endpoints t example_diagonal ->
             to_left_of t example_diagonal (mkLocation 5 6) = Some false)
  /\ (forall t, to_left_of t example_diagonal (mkLocation (-1) 5) = Some false).
Proof.
  split.
  - intros [ta tb] [[Ha | Ha] [Hb | Hb]]; cbn in Ha, Hb; subst ta tb;
      reflexivity.
  - intros t. apply to_left_of_first_x. cbn. lia.
Qed.

(** The two answers for the two ways the reads go in practice. *)
Lemma to_left_of_diagonal_examples_witness :
  to_left_of (live example_diagonal) example_diagonal (mkLocation 5 6)
  = Some false
  /\ to_left_of (overlaid (mkLocation 10 10)) example_diagonal
                (mkLocation 5 6) = Some false.
Proof.
  split.
  - apply (proj1 to_left_of_diagonal_examples (live example_diagonal)).
    split; [left | right]; reflexivity.
  - apply (proj1 to_left_of_diagonal_examples (overlaid (mkLocation 10 10))).
    split; right; reflexivity.
Defined.

(** The answer the specification lists for (5,6) is not one the code
    gives: no way of reading the endpoints' locations through [mm] makes
    [to_left_of((5,6))] true. *)
Lemma to_left_of_diagonal_not_as_listed :
  ~ (exists t, reads_endpoints t example_diagonal
               /\ to_left_of t example_diagonal (mkLocation 5 6) = Some true).
Proof.
  intros ([ta tb] & [[Ha | Ha] [Hb | Hb]] & H); cbn in Ha, Hb; subst ta tb;
    vm_compute in H; discriminate.
Qed.

(** For the point (5,5), which lies on that segment, the answer depends on
    what the reads through [mm] find: true while the two objects hold what
    they were given (the cross product is 0, and 0 <= 0), false when both
    references read one object. *)
Example to_left_of_diagonal_on_segment :
  to_left_of (live example_diagonal) example_diagonal (mkLocation 5 5)
  = Some true
  /\ (forall l, to_left_of (overlaid l) example_diagonal (mkLocation 5 5)
                = Some false).
Proof.
  split; [reflexivity|]. intros l. apply to_left_of_overlaid.
Qed.

(** ** OPL escapes and strings *)

Lemma hex_digit_range (c : ascii) (d : Z) :
  hex_digit c = Some d -> 0 <= d <= 15.
Proof.
  destruct c as [[] [] [] [] [] [] [] []]; vm_compute; intros H;
    try discriminate; injection H as <-; split; discriminate.
Qed.

Lemma hex_digit_not_special (c : ascii) (d : Z) :
  hex_digit c = Some d ->
  Ascii.eqb c NUL = false /\ Ascii.eqb c "%" = false.
Proof.
  destruct c as [[] [] [] [] [] [] [] []]; vm_compute; intros H;
    try discriminate; split; reflexivity.
Qed.

Lemma opl_parse_escaped_loop_digits (ds : list ascii) :
  forall (n : nat) (rest : list ascii) (value : Z) (result : list ascii),
    Forall is_hex ds ->
    opl_parse_escaped_loop (length ds + n) (ds ++ rest) value result
    = opl_parse_escaped_loop n rest (fold_left hex_step ds value) result.
Proof.
  induction ds as [|c ds IH]; intros n rest value result Hhex.
  - reflexivity.
  - apply Forall_cons in Hhex as [[d Hd] Hhex].
    destruct (hex_digit_not_special c d Hd) as [Hnul Hpct].
    cbn [length Nat.add app opl_parse_escaped_loop peek tail].
    rewrite Hnul, Hpct, Hd. rewrite IH by assumption.
    cbn [fold_left].
    replace (hex_step value c) with (wrap_u32 (wrap_u32 (Z.shiftl value 4) + d));
      [reflexivity | unfold hex_step; rewrite Hd; reflexivity].
Qed.

Lemma hex_step_exact (ds : list ascii) :
  forall value : Z,
    Forall is_hex ds ->
    0 <= value ->
    (value + 1) * 16 ^ Z.of_nat (length ds) <= 2 ^ 32 ->
    fold_left hex_step ds value
    = fold_left (fun v c => 16 * v + default 0 (hex_digit c)) ds value.
Proof.
  induction ds as [|c ds IH]; intros value Hhex H0 Hb.
  - reflexivity.
  - apply Forall_cons in Hhex as [[d Hd] Hhex].
    pose proof (hex_digit_range c d Hd) as Hr.
    cbn [fold_left]. cbn [length] in Hb.
    rewrite Nat2Z.inj_succ, Z.pow_succ_r in Hb by lia.
    assert (0 < 16 ^ Z.of_nat (length ds)) as Hpos by (apply Z.pow_pos_nonneg; lia).
    assert (16 * value + d < 2 ^ 32) as Hlt by nia.
    assert (hex_step value c = 16 * value + d) as ->.
    { unfold hex_step, wrap_u32. rewrite Hd. cbn [default].
      rewrite Z.shiftl_mul_pow2 by lia.
      replace (value * 2 ^ 4) with (16 * value) by lia.
      rewrite (Z.mod_small (16 * value)) by lia.
      apply Z.mod_small. lia. }
    rewrite Hd. cbn [default]. rewrite IH; [reflexivity | assumption | lia | nia].
Qed.

Lemma hex_value_fold (ds : list ascii) :
  Forall is_hex ds -> (length ds <= 8)%nat ->
  fold_left hex_step ds 0 = hex_value ds.
Proof.
  intros Hhex Hlen. unfold hex_value. apply hex_step_exact; [assumption | lia |].
  rewrite Z.mul_1_l. change (2 ^ 32) with (16 ^ 8).
  apply Z.pow_le_mono_r; lia.
Qed.

(** An escape of at most seven hexadecimal digits closed by '%' is
    accepted: the data pointer moves behind the '%' and the UTF-8 encoding
    of the value is appended to the result. *)
Lemma opl_parse_escaped_accepts (ds rest result : list ascii) :
  Forall is_hex ds -> (length ds <= 7)%nat ->
  opl_parse_escaped (ds ++ "%"%char :: rest) result
  = (bytes ← utf32to8 (hex_value ds); Ok (rest, result ++ bytes)).
Proof.
  intros Hhex Hlen. unfold opl_parse_escaped, max_length.
  replace 8%nat with (length ds + S (7 - length ds))%nat by lia.
  rewrite opl_parse_escaped_loop_digits by assumption.
  cbn [opl_parse_escaped_loop peek tail].
  rewrite hex_value_fold by (assumption || lia). reflexivity.
Qed.

(** Eight hexadecimal digits use up all eight iterations of the loop: the
    parser gives up in front of whatever follows, the closing '%'
    included. *)
Lemma opl_parse_escaped_eight_digits (ds rest result : list ascii) :
  Forall is_hex ds -> length ds = 8%nat ->
  opl_parse_escaped (ds ++ rest) result
  = Err (opl_error "hex escape too long" rest).
Proof.
  intros Hhex Hlen. unfold opl_parse_escaped, max_length.
  replace 8%nat with (length ds + 0)%nat by lia.
  rewrite opl_parse_escaped_loop_digits by assumption. reflexivity.
Qed.

(** A malformed escape -- hexadecimal digits followed by the end of the
    line or by a character that is neither a hexadecimal digit nor '%' --
    raises [opl_error]. *)
Lemma opl_parse_escaped_malformed (ds rest result : list ascii) :
  Forall is_hex ds ->
  hex_digit (peek rest) = None -> peek rest <> "%"%char ->
  exists what data,
    opl_parse_escaped (ds ++ rest) result = Err (opl_error what data).
Proof.
  intros Hhex Hnone Hpct.
  destruct (le_lt_dec (length ds) 7) as [Hle | Hgt].
  - unfold opl_parse_escaped, max_length.
    replace 8%nat with (length ds + S (7 - length ds))%nat by lia.
    rewrite opl_parse_escaped_loop_digits by assumption.
    cbn [opl_parse_escaped_loop].
    destruct (Ascii.eqb (peek rest) NUL); [eauto|].
    destruct (Ascii.eqb_spec (peek rest) "%"%char) as [|_]; [contradiction|].
    rewrite Hnone. eauto.
  - assert (ds ++ rest = take 8 ds ++ (drop 8 ds ++ rest)) as ->.
    { rewrite app_assoc, take_drop. reflexivity. }
    rewrite opl_parse_escaped_eight_digits; [eauto | |].
    + apply Forall_take. assumption.
    + rewrite length_take. lia.
Qed.

Lemma opl_parse_escaped_loop_shorter (n : nat) :
  forall s value result s' result',
    opl_parse_escaped_loop n s value result = Ok (s', result') ->
    (length s' < length s)%nat.
Proof.
  induction n as [|n IH]; intros s value result s' result' H.
  - discriminate.
  - cbn [opl_parse_escaped_loop] in H.
    destruct s as [|c s]; [discriminate|]. cbn [peek tail] in H.
    destruct (Ascii.eqb c NUL); [discriminate|].
    destruct (Ascii.eqb c "%").
    + destruct (utf32to8 value); [|discriminate].
      cbn in H. injection H as <- _. cbn. lia.
    + destruct (hex_digit c); [|discriminate].
      apply IH in H. cbn. lia.
Qed.

(** [opl_parse_string] always returns: the fuel it starts with is never
    used up. *)
Lemma opl_parse_string_loop_total (fuel : nat) :
  forall s result,
    (length s < fuel)%nat -> is_Some (opl_parse_string_loop fuel s result).
Proof.
  induction fuel as [|fuel IH]; intros s result Hlen; [lia|].
  cbn [opl_parse_string_loop].
  destruct (is_string_end (peek s)) eqn:Hend; [eauto|].
  destruct s as [|c s]; [discriminate Hend|]. cbn [peek tail length] in *.
  destruct (Ascii.eqb c "%").
  - destruct (opl_parse_escaped s result) as [[s' result']|e] eqn:He; [|eauto].
    apply opl_parse_escaped_loop_shorter in He. apply IH. lia.
  - apply IH. lia.
Qed.

Lemma opl_parse_string_total (data result : list ascii) :
  is_Some (opl_parse_string data result).
Proof. apply opl_parse_string_loop_total. lia. Qed.

(** More fuel than needed changes nothing. *)
Lemma opl_parse_string_loop_fuel (fuel : nat) :
  forall fuel' s result r,
    opl_parse_string_loop fuel s result = Some r ->
    (fuel <= fuel')%nat ->
    opl_parse_string_loop fuel' s result = Some r.
Proof.
  induction fuel as [|fuel IH]; intros fuel' s result r H Hle; [discriminate|].
  destruct fuel' as [|fuel']; [lia|].
  cbn [opl_parse_string_loop] in *.
  destruct (is_string_end (peek s)); [assumption|].
  destruct (Ascii.eqb (peek s) "%").
  - destruct (opl_parse_escaped (tail s) result) as [[s' result']|e];
      [|assumption]. apply IH; [assumption | lia].
  - apply IH; [assumption | lia].
Qed.

Lemma opl_parse_string_loop_percent (fuel : nat) (s result : list ascii) :
  opl_parse_string_loop (S fuel) ("%"%char :: s) result
  = match opl_parse_escaped s result with
    | Ok (s', result') => opl_parse_string_loop fuel s' result'
    | Err e => Some (Err e)
    end.
Proof. reflexivity. Qed.

(** Inside a string, an escape of at most seven digits is decoded in place
    and parsing goes on behind it. *)
Lemma opl_parse_string_escape (ds rest result bytes : list ascii) :
  Forall is_hex ds -> (length ds <= 7)%nat ->
  utf32to8 (hex_value ds) = Ok bytes ->
  opl_parse_string ("%"%char :: ds ++ "%"%char :: rest) result
  = opl_parse_string rest (result ++ bytes).
Proof.
  intros Hhex Hlen Hutf. unfold opl_parse_string at 1.
  rewrite opl_parse_string_loop_percent.
  rewrite opl_parse_escaped_accepts by assumption. rewrite Hutf.
  unfold mbind, Result_bind. cbn beta iota.
  destruct (opl_parse_string_total rest (result ++ bytes)) as [r Hr].
  rewrite Hr. unfold opl_parse_string in Hr.
  eapply opl_parse_string_loop_fuel; [exact Hr|].
  cbn [length]. rewrite length_app. cbn [length]. lia.
Qed.

(** The escapes for U+0041, U+00E9, U+20AC and U+1F600, and the empty
    escape, which stands for U+0000. *)
Example opl_parse_string_examples :
  opl_parse_string (chars "%41%%e9%%20ac%%1F600% x") []
  = Some (Ok (chars " x",
              List.map char_of_code
                [65; 195; 169; 226; 130; 172; 240; 159; 152; 128]))
  /\ opl_parse_string (chars "a%%b") [] = Some (Ok ([], ["a"; NUL; "b"]%char)).
Proof. split; vm_compute; reflexivity. Qed.

(** C4 (where the code departs from it): an escape of eight hexadecimal
    digits, the longest the specification allows, is refused by the string
    parser with [opl_error] "hex escape too long", whatever follows the
    closing '%'. *)
Theorem opl_parse_string_eight_digit_escape (ds rest result : list ascii) :
  Forall is_hex ds -> length ds = 8%nat ->
  opl_parse_string ("%"%char :: ds ++ "%"%char :: rest) result
  = Some (Err (opl_error "hex escape too long" ("%"%char :: rest))).
Proof.
  intros Hhex Hlen. unfold opl_parse_string.
  rewrite opl_parse_string_loop_percent.
  rewrite opl_parse_escaped_eight_digits by assumption. reflexivity.
Qed.

(** U+0041 written with eight digits. *)
Lemma opl_parse_string_eight_digit_escape_witness :
  opl_parse_string (chars "%00000041%") []
  = Some (Err (opl_error "hex escape too long" (chars "%"))).
Proof.
  apply (opl_parse_string_eight_digit_escape (chars "00000041") [] []).
  - repeat constructor; eexists; vm_compute; reflexivity.
  - reflexivity.
Defined.

(** ** OPL integers *)

Lemma is_digit_range (c : ascii) :
  is_digit c = true -> 0 <= char_code c - char_code "0" <= 9.
Proof.
  destruct c as [[] [] [] [] [] [] [] []]; vm_compute; intros H;
    try discriminate; split; discriminate.
Qed.

Lemma is_digit_not_special (c : ascii) :
  is_digit c = true ->
  Ascii.eqb c NUL = false /\ Ascii.eqb c "-" = false.
Proof.
  destruct c as [[] [] [] [] [] [] [] []]; vm_compute; intros H;
    try discriminate; split; reflexivity.
Qed.

(** Fewer digits than the counter: all of them are taken. *)
Lemma opl_parse_int_digits_take (ds : list ascii) :
  forall (n value : Z) (rest : list ascii),
    Forall (fun c => is_digit c = true) ds ->
    is_digit (peek rest) = false ->
    Z.of_nat (length ds) < n ->
    opl_parse_int_digits (ds ++ rest) n value
    = Ok (n - Z.of_nat (length ds), fold_left dec_step ds value, rest).
Proof.
  induction ds as [|c ds IH]; intros n value rest Hd Hrest Hlen.
  - cbn [app length fold_left]. rewrite Z.sub_0_r.
    destruct rest as [|c rest]; [reflexivity|].
    cbn [peek] in Hrest. cbn [opl_parse_int_digits]. rewrite Hrest. reflexivity.
  - apply Forall_cons in Hd as [Hc Hd]. cbn [length] in Hlen.
    cbn [app opl_parse_int_digits]. rewrite Hc. cbn zeta.
    destruct (Z.eqb_spec (n - 1) 0) as [|_]; [lia|].
    rewrite IH by (assumption || lia).
    cbn [length fold_left].
    replace (n - 1 - Z.of_nat (length ds)) with (n - Z.of_nat (S (length ds)))
      by lia.
    reflexivity.
Qed.

(** As many digits as the counter, or more: the digit that brings the
    counter to zero is refused. *)
Lemma opl_parse_int_digits_too_long (ds : list ascii) :
  forall (n value : Z) (c : ascii) (rest : list ascii),
    Forall (fun c => is_digit c = true) ds ->
    is_digit c = true ->
    n = Z.of_nat (length ds) + 1 ->
    opl_parse_int_digits (ds ++ c :: rest) n value
    = Err (opl_error "integer too long" (c :: rest)).
Proof.
  induction ds as [|c' ds IH]; intros n value c rest Hd Hc Hn.
  - cbn [app opl_parse_int_digits]. rewrite Hc. cbn zeta.
    cbn [length] in Hn. subst n. reflexivity.
  - apply Forall_cons in Hd as [Hc' Hd]. cbn [length] in Hn.
    cbn [app opl_parse_int_digits]. rewrite Hc'. cbn zeta.
    destruct (Z.eqb_spec (n - 1) 0) as [|_]; [lia|].
    apply IH; [assumption | assumption | lia].
Qed.

Lemma dec_step_exact (ds : list ascii) :
  forall value : Z,
    Forall (fun c => is_digit c = true) ds ->
    0 <= value ->
    (value + 1) * 10 ^ Z.of_nat (length ds) <= 2 ^ 63 ->
    fold_left dec_step ds value
    = fold_left (fun v c => 10 * v + (char_code c - char_code "0")) ds value
    /\ 0 <= fold_left dec_step ds value
         < (value + 1) * 10 ^ Z.of_nat (length ds).
Proof.
  induction ds as [|c ds IH]; intros value Hd H0 Hb.
  - cbn [fold_left length] in *. simpl in *. split; [reflexivity | lia].
  - apply Forall_cons in Hd as [Hc Hd].
    pose proof (is_digit_range c Hc) as Hr.
    cbn [fold_left]. cbn [length] in *.
    rewrite Nat2Z.inj_succ, Z.pow_succ_r in * by lia.
    assert (0 < 10 ^ Z.of_nat (length ds)) as Hpos by (apply Z.pow_pos_nonneg; lia).
    assert (10 * value + 9 < 2 ^ 63) as Hlt by nia.
    assert (dec_step value c = 10 * value + (char_code c - char_code "0")) as ->.
    { unfold dec_step, mul64.
      rewrite (wrap64_small (value * 10))
        by (unfold in_int64, INT64_MIN, INT64_MAX; lia).
      rewrite wrap64_small by (unfold in_int64, INT64_MIN, INT64_MAX; lia).
      lia. }
    destruct (IH (10 * value + (char_code c - char_code "0")) Hd) as [He Hbound];
      [lia | nia |].
    split; [exact He | nia].
Qed.

(** Up to fifteen digits never overflow the accumulator, and denote a
    value below 10^15. *)
Lemma dec_value_fold (ds : list ascii) :
  Forall (fun c => is_digit c = true) ds -> (length ds <= 15)%nat ->
  fold_left dec_step ds 0 = dec_value ds /\ 0 <= dec_value ds < 10 ^ 15.
Proof.
  intros Hd Hlen.
  assert (10 ^ Z.of_nat (length ds) <= 10 ^ 15) as Hp
    by (apply Z.pow_le_mono_r; lia).
  destruct (dec_step_exact ds 0 Hd) as [He Hb]; [lia | lia |].
  unfold dec_value. rewrite <- He. split; [reflexivity | lia].
Qed.

Lemma opl_parse_int_unsigned (T : IntType) (c : ascii) (s : list ascii) :
  is_digit c = true ->
  opl_parse_int T (c :: s)
  = ('(n, value, s') ← opl_parse_int_digits (c :: s) max_int_len 0;
     if n =? max_int_len then Err (opl_error "expected integer" s')
     else if value >? T_max T then Err (opl_error "integer too long" s')
     else Ok (value, s')).
Proof.
  intros Hc. destruct (is_digit_not_special c Hc) as [Hnul Hminus].
  unfold opl_parse_int. cbn [peek]. rewrite Hnul, Hminus. reflexivity.
Qed.

Lemma opl_parse_int_signed (T : IntType) (s : list ascii) :
  opl_parse_int T ("-"%char :: s)
  = ('(n, value, s') ← opl_parse_int_digits s max_int_len 0;
     if n =? max_int_len then Err (opl_error "expected integer" s')
     else if wrap64 (- value) <? T_min T
          then Err (opl_error "integer too long" s')
          else Ok (wrap64 (- value), s')).
Proof. reflexivity. Qed.

(** A literal of one to fifteen digits whose value fits the target type is
    parsed to that value; the data pointer ends behind the last digit. *)
Lemma opl_parse_int_accepts (T : IntType) (ds rest : list ascii) :
  Forall (fun c => is_digit c = true) ds ->
  (1 <= length ds <= 15)%nat ->
  is_digit (peek rest) = false ->
  dec_value ds <= T_max T ->
  opl_parse_int T (ds ++ rest) = Ok (dec_value ds, rest).
Proof.
  intros Hd Hlen Hrest Hmax.
  destruct ds as [|c ds]; [cbn in Hlen; lia|].
  pose proof Hd as Hd'. apply Forall_cons in Hd' as [Hc _].
  change ((c :: ds) ++ rest) with (c :: (ds ++ rest)).
  rewrite opl_parse_int_unsigned by assumption.
  change (c :: (ds ++ rest)) with ((c :: ds) ++ rest).
  rewrite opl_parse_int_digits_take
    by (assumption || (unfold max_int_len; lia)).
  destruct (dec_value_fold (c :: ds) Hd) as [-> Hb]; [lia|].
  unfold mbind, Result_bind. cbn beta iota.
  destruct (Z.eqb_spec (max_int_len - Z.of_nat (length (c :: ds))) max_int_len)
    as [He|_]; [cbn [length] in He; lia|].
  destruct (Z.gtb_spec (dec_value (c :: ds)) (T_max T)); [lia | reflexivity].
Qed.

Lemma opl_parse_int_accepts_negative (T : IntType) (ds rest : list ascii) :
  Forall (fun c => is_digit c = true) ds ->
  (1 <= length ds <= 15)%nat ->
  is_digit (peek rest) = false ->
  T_min T <= - dec_value ds ->
  opl_parse_int T ("-"%char :: ds ++ rest) = Ok (- dec_value ds, rest).
Proof.
  intros Hd Hlen Hrest Hmin.
  rewrite opl_parse_int_signed.
  rewrite opl_parse_int_digits_take
    by (assumption || (unfold max_int_len; lia)).
  destruct (dec_value_fold ds Hd) as [-> Hb]; [lia|].
  unfold mbind, Result_bind. cbn beta iota.
  destruct (Z.eqb_spec (max_int_len - Z.of_nat (length ds)) max_int_len)
    as [He|_]; [lia|].
  rewrite wrap64_small
    by (unfold in_int64, INT64_MIN, INT64_MAX; lia).
  destruct (Z.ltb_spec (- dec_value ds) (T_min T)); [lia | reflexivity].
Qed.

(** A literal whose value is outside the target type raises [opl_error]. *)
Lemma opl_parse_int_out_of_range (T : IntType) (ds rest : list ascii) :
  Forall (fun c => is_digit c = true) ds ->
  (1 <= length ds <= 15)%nat ->
  is_digit (peek rest) = false ->
  (T_max T < dec_value ds ->
   opl_parse_int T (ds ++ rest) = Err (opl_error "integer too long" rest))
  /\ (- dec_value ds < T_min T ->
      opl_parse_int T ("-"%char :: ds ++ rest)
      = Err (opl_error "integer too long" rest)).
Proof.
  intros Hd Hlen Hrest.
  destruct (dec_value_fold ds Hd) as [Hf Hb]; [lia|]. split; intros Hr.
  - destruct ds as [|c ds]; [cbn in Hlen; lia|].
    pose proof Hd as Hd'. apply Forall_cons in Hd' as [Hc _].
    change ((c :: ds) ++ rest) with (c :: (ds ++ rest)).
    rewrite opl_parse_int_unsigned by assumption.
    change (c :: (ds ++ rest)) with ((c :: ds) ++ rest).
    rewrite opl_parse_int_digits_take
      by (assumption || (unfold max_int_len; lia)).
    rewrite Hf. unfold mbind, Result_bind. cbn beta iota.
    destruct (Z.eqb_spec (max_int_len - Z.of_nat (length (c :: ds))) max_int_len)
      as [He|_]; [cbn [length] in He; lia|].
    destruct (Z.gtb_spec (dec_value (c :: ds)) (T_max T)); [reflexivity | lia].
  - rewrite opl_parse_int_signed.
    rewrite opl_parse_int_digits_take
      by (assumption || (unfold max_int_len; lia)).
    rewrite Hf. unfold mbind, Result_bind. cbn beta iota.
    destruct (Z.eqb_spec (max_int_len - Z.of_nat (length ds)) max_int_len)
      as [He|_]; [lia|].
    rewrite wrap64_small
      by (unfold in_int64, INT64_MIN, INT64_MAX; lia).
    destruct (Z.ltb_spec (- dec_value ds) (T_min T)); [reflexivity | lia].
Qed.

(** A field without any digit raises [opl_error] "expected integer",
    with or without a sign in front. *)
Lemma opl_parse_int_no_digits (T : IntType) (s : list ascii) :
  is_digit (peek s) = false ->
  opl_parse_int T ("-"%char :: s) = Err (opl_error "expected integer" s)
  /\ (peek s <> "-"%char ->
      opl_parse_int T s = Err (opl_error "expected integer" s)).
Proof.
  intros Hs.
  assert (opl_parse_int_digits s max_int_len 0 = Ok (max_int_len, 0, s)) as Hloop.
  { destruct s as [|c s]; [reflexivity|]. cbn [peek] in Hs.
    cbn [opl_parse_int_digits]. rewrite Hs. reflexivity. }
  split.
  - rewrite opl_parse_int_signed, Hloop. reflexivity.
  - intros Hm. unfold opl_parse_int.
    destruct (Ascii.eqb (peek s) NUL) eqn:Hnul; [reflexivity|].
    destruct (Ascii.eqb_spec (peek s) "-"%char) as [|_]; [contradiction|].
    rewrite Hloop. reflexivity.
Qed.

(** C5 (where the code departs from it): the counter starts at
    [max_int_len] = 16 and is decremented before the test against zero, so
    the sixteenth digit of a literal is refused with [opl_error]
    "integer too long", whatever the target type and however small the
    value; a literal of sixteen digits is never parsed. *)
Theorem opl_parse_int_sixteenth_digit (T : IntType) (ds : list ascii)
    (c : ascii) (rest : list ascii) :
  Forall (fun c => is_digit c = true) ds ->
  length ds = 15%nat ->
  is_digit c = true ->
  opl_parse_int T (ds ++ c :: rest)
  = Err (opl_error "integer too long" (c :: rest))
  /\ opl_parse_int T ("-"%char :: ds ++ c :: rest)
    = Err (opl_error "integer too long" (c :: rest)).
Proof.
  intros Hd Hlen Hc.
  assert (opl_parse_int_digits (ds ++ c :: rest) max_int_len 0
          = Err (opl_error "integer too long" (c :: rest))) as Hloop.
  { apply opl_parse_int_digits_too_long; try assumption.
    unfold max_int_len. lia. }
  split.
  - destruct ds as [|c' ds]; [discriminate Hlen|].
    apply Forall_cons in Hd as [Hc' _].
    change ((c' :: ds) ++ c :: rest) with (c' :: (ds ++ c :: rest)) in *.
    rewrite opl_parse_int_unsigned by assumption.
    rewrite Hloop. reflexivity.
  - rewrite opl_parse_int_signed, Hloop. reflexivity.
Qed.

(** 10^15, the smallest value written with sixteen digits, at the 64-bit
    object id type. *)
Lemma opl_parse_int_sixteenth_digit_witness :
  opl_parse_int object_id_type (chars "1000000000000000")
  = Err (opl_error "integer too long" (chars "0"))
  /\ opl_parse_int object_id_type (chars "-1000000000000000")
    = Err (opl_error "integer too long" (chars "0")).
Proof.
  apply (opl_parse_int_sixteenth_digit object_id_type
           (chars "100000000000000") "0"%char []).
  - repeat constructor.
  - reflexivity.
  - reflexivity.
Defined.

(** ** PBF: the BlobHeader check *)

Section PBF_blob_header.
Context `{D : PBFDecoders}.

Lemma strncmp_prefix (e t : list ascii) :
  t `prefix_of` e -> strncmp e t (length t) = 0.
Proof.
  revert e. induction t as [|c t IH]; intros e Hp; [reflexivity|].
  destruct Hp as [k ->]. cbn [length strncmp app peek tail].
  rewrite Ascii.eqb_refl. cbn [negb].
  destruct (Ascii.eqb c NUL); [reflexivity|].
  apply IH. exists k. reflexivity.
Qed.

Lemma strncmp_full_then_nul (e r : list ascii) :
  strncmp e (e ++ NUL :: r) (length (e ++ NUL :: r)) = 0.
Proof.
  induction e as [|c e IH]; [reflexivity|].
  cbn [length strncmp app peek tail].
  rewrite Ascii.eqb_refl. cbn [negb].
  destruct (Ascii.eqb c NUL); [reflexivity | exact IH].
Qed.

(** Against an expected type without NUL characters, the comparison
    yields 0 exactly for the prefixes of the expected type and for the
    expected type followed by a NUL and anything else. *)
Lemma strncmp_zero_iff (e t : list ascii) :
  NUL ∉ e ->
  strncmp e t (length t) = 0
  <-> t `prefix_of` e \/ exists r, t = e ++ NUL :: r.
Proof.
  intros Hnul. split.
  - revert e Hnul. induction t as [|c t IH]; intros e Hnul H.
    + left. apply prefix_nil.
    + cbn [length strncmp peek] in H.
      destruct (Ascii.eqb_spec (peek e) c) as [Hc | Hc]; cbn [negb] in H.
      * destruct e as [|c' e]; cbn [peek tail] in *.
        -- subst c. right. exists t. reflexivity.
        -- subst c'. apply not_elem_of_cons in Hnul as [Hc Hnul].
           destruct (Ascii.eqb_spec c NUL) as [|_]; [congruence|].
           destruct (IH e Hnul H) as [Hp | [r ->]].
           ++ left. apply prefix_cons. exact Hp.
           ++ right. exists r. reflexivity.
      * exfalso.
        assert (char_code (peek e) = char_code c) as He by lia.
        apply Hc. unfold char_code in He.
        apply N2Z.inj in He.
        rewrite <- (ascii_N_embedding (peek e)), <- (ascii_N_embedding c).
        congruence.
  - intros [Hp | [r ->]].
    + apply strncmp_prefix. exact Hp.
    + apply strncmp_full_then_nul.
Qed.

(** A BlobHeader without datasize, or with datasize 0, raises
    [pbf_error], whatever its type. *)
Lemma decode_blob_header_datasize_zero (fields : list BlobHeaderField)
    (expected_type : string) :
  snd (blob_header_fields fields) = 0 ->
  decode_blob_header fields expected_type
  = Err (pbf_error "PBF format error: BlobHeader.datasize missing or zero.").
Proof.
  intros H. unfold decode_blob_header.
  destruct (blob_header_fields fields) as [ty ds]. cbn [snd] in H. subst ds.
  reflexivity.
Qed.

Lemma blob_header_fields_missing :
  blob_header_fields [] = ([], 0)
  /\ (forall ty, blob_header_fields [required_string_type ty] = (ty, 0)).
Proof. split; reflexivity. Qed.

(** The result of [decode_blob_header] in terms of the type and the
    datasize of the header, for an expected type without NUL
    characters. *)
Lemma decode_blob_header_spec (fields : list BlobHeaderField)
    (expected_type : string) :
  NUL ∉ chars expected_type ->
  let ty := fst (blob_header_fields fields) in
  let datasize := snd (blob_header_fields fields) in
  datasize <> 0 ->
  (ty `prefix_of` chars expected_type
   \/ (exists r, ty = chars expected_type ++ NUL :: r) ->
   decode_blob_header fields expected_type = Ok datasize)
  /\ (~ (ty `prefix_of` chars expected_type
         \/ exists r, ty = chars expected_type ++ NUL :: r) ->
      decode_blob_header fields expected_type
      = Err (pbf_error "blob does not have expected type (OSMHeader in first blob, OSMData in following blobs)")).
Proof.
  intros Hnul ty datasize Hds. unfold decode_blob_header.
  subst ty datasize. destruct (blob_header_fields fields) as [ty ds].
  cbn [fst snd] in *.
  destruct (Z.eqb_spec ds 0) as [|_]; [contradiction|].
  pose proof (strncmp_zero_iff (chars expected_type) ty Hnul) as Hiff.
  destruct (Z.eqb_spec (strncmp (chars expected_type) ty (length ty)) 0)
    as [Hz | Hz]; cbn [negb].
  - split; [reflexivity|]. intros Hn. exfalso. apply Hn, Hiff, Hz.
  - split; [|reflexivity]. intros Hp. exfalso. apply Hz, Hiff, Hp.
Qed.

(** C8 (where the code departs from it): the type of the BlobHeader is
    compared with [strncmp] over the length of the type found in the
    header, so a header whose type is only a prefix of the expected one --
    "OSM", or no type at all -- passes the check, and its datasize is
    returned. *)
Theorem decode_blob_header_accepts_prefix (fields : list BlobHeaderField)
    (expected_type : string) :
  fst (blob_header_fields fields) `prefix_of` chars expected_type ->
  snd (blob_header_fields fields) <> 0 ->
  decode_blob_header fields expected_type
  = Ok (snd (blob_header_fields fields)).
Proof.
  intros Hp Hds. unfold decode_blob_header.
  destruct (blob_header_fields fields) as [ty ds]. cbn [fst snd] in *.
  destruct (Z.eqb_spec ds 0) as [|_]; [contradiction|].
  rewrite strncmp_prefix by assumption. reflexivity.
Qed.

(** A BlobHeader of type "OSM" and datasize 5 where "OSMData" is
    expected. *)
Lemma decode_blob_header_accepts_prefix_witness :
  decode_blob_header
    [required_string_type (chars "OSM"); required_int32_datasize 5] "OSMData"
  = Ok 5.
Proof.
  apply (decode_blob_header_accepts_prefix
           [required_string_type (chars "OSM"); required_int32_datasize 5]
           "OSMData").
  - exists (chars "Data"). reflexivity.
  - discriminate.
Defined.

End PBF_blob_header.

(** ** PBF: reading from the input queue *)

Section PBF_framing.
Context `{D : PBFDecoders}.

Lemma same_outputs_refl (st : PBFParser) : same_outputs st st.
Proof. repeat split. Qed.

Lemma same_outputs_trans (st1 st2 st3 : PBFParser) :
  same_outputs st1 st2 -> same_outputs st2 st3 -> same_outputs st1 st3.
Proof.
  unfold same_outputs, same_settings. intros (?&?&?&?) (?&?&?&?).
  repeat split; congruence.
Qed.

Lemma same_outputs_set_input (st : PBFParser) queue buffer :
  same_outputs st (set_input st queue buffer).
Proof. repeat split. Qed.

(** Enough bytes in front of the end of the input: the loop stops with
    at least [size] bytes in the buffer, and no byte is lost. *)
Lemma fill_input_buffer_enough (queue : list bytes) :
  forall (buffer : bytes) (size : Z),
    size <= Z.of_nat (length (buffer ++ until_eof queue)) ->
    exists buffer' queue',
      fill_input_buffer size buffer queue = (buffer', queue', Ok ())
      /\ buffer' ++ until_eof queue' = buffer ++ until_eof queue
      /\ size <= Z.of_nat (length buffer')
      /\ after_eof queue' = after_eof queue.
Proof.
  induction queue as [|chunk queue IH]; intros buffer size Hsize.
  - cbn [until_eof] in Hsize. rewrite app_nil_r in Hsize.
    cbn [fill_input_buffer].
    destruct (Z.ltb_spec (Z.of_nat (length buffer)) size); [lia|].
    exists buffer, []. auto.
  - cbn [fill_input_buffer].
    destruct (Z.ltb_spec (Z.of_nat (length buffer)) size) as [Hlt | Hge].
    + destruct chunk as [|c chunk].
      * cbn [until_eof] in Hsize. rewrite app_nil_r in Hsize. lia.
      * cbn [until_eof] in Hsize. rewrite app_assoc in Hsize.
        destruct (IH (buffer ++ c :: chunk) size Hsize)
          as (buffer' & queue' & Hfill & Hdata & Hlen & Heof).
        exists buffer', queue'. rewrite Hfill, Hdata.
        cbn [until_eof after_eof]. rewrite <- app_assoc. auto.
    + exists buffer, (chunk :: queue). auto.
Qed.

(** Fewer bytes than asked for in front of the end of the input: the
    loop pops the empty chunk and throws, with everything it has read in
    the buffer. *)
Lemma fill_input_buffer_truncated (queue : list bytes) :
  forall (buffer : bytes) (size : Z) (post : list bytes),
    after_eof queue = Some post ->
    Z.of_nat (length (buffer ++ until_eof queue)) < size ->
    fill_input_buffer size buffer queue
    = (buffer ++ until_eof queue, post,
       Err (throw (pbf_error "truncated data (EOF encountered)"))).
Proof.
  induction queue as [|chunk queue IH]; intros buffer size post Heof Hsize.
  - discriminate Heof.
  - cbn [fill_input_buffer].
    destruct (Z.ltb_spec (Z.of_nat (length buffer)) size) as [Hlt | Hge].
    + destruct chunk as [|c chunk].
      * cbn [until_eof after_eof] in *. injection Heof as <-.
        rewrite app_nil_r. reflexivity.
      * cbn [until_eof after_eof] in *. rewrite app_assoc in *.
        apply IH; assumption.
    + rewrite length_app in Hsize. lia.
Qed.

Lemma read_from_input_queue_enough (st : PBFParser) (data : bytes)
    (post : list bytes) (size : Z) :
  pending st data post ->
  0 <= size <= Z.of_nat (length data) ->
  exists st',
    read_from_input_queue size st = (st', Ok (take (Z.to_nat size) data))
    /\ pending st' (drop (Z.to_nat size) data) post
    /\ same_outputs st st'.
Proof.
  intros [Hdata Heof] Hsize. unfold read_from_input_queue.
  destruct (fill_input_buffer_enough (m_input_queue st) (m_input_buffer st) size)
    as (buffer' & queue' & Hfill & Hdata' & Hlen & Heof').
  { rewrite Hdata. lia. }
  rewrite Hfill. eexists. split; [|split].
  - f_equal. f_equal. rewrite <- Hdata, <- Hdata'.
    rewrite take_app_le by lia. reflexivity.
  - split; cbn [set_input m_input_buffer m_input_queue].
    + rewrite <- Hdata, <- Hdata'. rewrite drop_app_le by lia. reflexivity.
    + congruence.
  - apply same_outputs_set_input.
Qed.

Lemma read_from_input_queue_truncated (st : PBFParser) (data : bytes)
    (post : list bytes) (size : Z) :
  pending st data post ->
  Z.of_nat (length data) < size ->
  read_from_input_queue size st
  = (set_input st post data,
     Err (throw (pbf_error "truncated data (EOF encountered)"))).
Proof.
  intros [Hdata Heof] Hsize. unfold read_from_input_queue.
  rewrite (fill_input_buffer_truncated _ _ _ post Heof)
    by (rewrite Hdata; exact Hsize).
  rewrite Hdata. reflexivity.
Qed.

Lemma char_code_of_code (z : Z) : char_code (char_of_code z) = z mod 256.
Proof.
  unfold char_code, char_of_code.
  rewrite N_ascii_embedding.
  - apply Z2N.id. apply Z.mod_pos_bound. lia.
  - apply N2Z.inj_lt. rewrite Z2N.id by (apply Z.mod_pos_bound; lia).
    apply Z.mod_pos_bound. lia.
Qed.

Lemma ntohl_htonl (n : Z) : 0 <= n < 2 ^ 32 -> ntohl (htonl n) = n.
Proof.
  intros Hn. unfold ntohl, htonl. rewrite !char_code_of_code.
  change (2 ^ 24) with 16777216. change (2 ^ 16) with 65536.
  change (2 ^ 8) with 256. change (2 ^ 32) with 4294967296 in Hn.
  Z.div_mod_to_equations. lia.
Qed.

(** *** The length prefix *)

Lemma read_blob_header_size_from_file_ok (st : PBFParser) (n : Z)
    (data : bytes) (post : list bytes) :
  pending st (htonl n ++ data) post ->
  0 <= n <= max_blob_header_size ->
  exists st',
    read_blob_header_size_from_file st = (st', Ok n)
    /\ pending st' data post
    /\ same_outputs st st'.
Proof.
  intros Hp Hn. unfold read_blob_header_size_from_file.
  destruct (read_from_input_queue_enough st _ post 4 Hp)
    as (st' & Hread & Hp' & Hsame).
  { rewrite length_app. cbn. lia. }
  exists st'. split; [|split; assumption].
  unfold mbind at 1, Framer_bind, catch_pbf_error.
  unfold mbind at 1, Framer_bind. rewrite Hread.
  cbn [mret Framer_ret]. change (take (Z.to_nat 4) (htonl n ++ data)) with (htonl n).
  rewrite ntohl_htonl by (unfold max_blob_header_size in Hn; lia).
  unfold wrap_u32. rewrite (Z.mod_small max_blob_header_size) by (cbv; split; congruence).
  destruct (Z.gtb_spec n max_blob_header_size); [lia | reflexivity].
Qed.

(** The end of the input inside the length prefix: the [pbf_error] of
    [read_from_input_queue] is caught and 0 is returned, with the stray
    bytes left in the buffer. *)
Lemma read_blob_header_size_from_file_eof (st : PBFParser) (data : bytes)
    (post : list bytes) :
  pending st data post ->
  (length data < 4)%nat ->
  read_blob_header_size_from_file st = (set_input st post data, Ok 0).
Proof.
  intros Hp Hlen. unfold read_blob_header_size_from_file.
  unfold mbind at 1, Framer_bind, catch_pbf_error.
  unfold mbind at 1, Framer_bind.
  rewrite (read_from_input_queue_truncated st data post 4 Hp) by lia.
  reflexivity.
Qed.

(** *** The BlobHeader *)

Lemma check_type_and_get_blob_size_ok (st : PBFParser)
    (expected_type : string) (blob_header data : bytes) (datasize : Z)
    (post : list bytes) :
  pending st (htonl (Z.of_nat (length blob_header)) ++ blob_header ++ data) post ->
  good_blob_header expected_type blob_header datasize ->
  exists st',
    check_type_and_get_blob_size expected_type st = (st', Ok datasize)
    /\ pending st' data post
    /\ same_outputs st st'.
Proof.
  intros Hp (Hlen & fields & Hmsg & Hdec).
  destruct (read_blob_header_size_from_file_ok st _ _ post Hp)
    as (st1 & Hsize & Hp1 & Hsame1); [lia|].
  destruct (read_from_input_queue_enough st1 _ post
              (Z.of_nat (length blob_header)) Hp1)
    as (st2 & Hread & Hp2 & Hsame2).
  { rewrite length_app. lia. }
  rewrite Nat2Z.id, take_app_length in Hread.
  rewrite Nat2Z.id, drop_app_length in Hp2.
  exists st2. split; [|split].
  - unfold check_type_and_get_blob_size.
    unfold mbind at 1, Framer_bind. rewrite Hsize.
    destruct (Z.eqb_spec (Z.of_nat (length blob_header)) 0) as [|_]; [lia|].
    unfold mbind at 1, Framer_bind. rewrite Hread.
    unfold mbind, Framer_bind, call. rewrite Hmsg, Hdec. reflexivity.
  - exact Hp2.
  - eapply same_outputs_trans; eassumption.
Qed.

Lemma check_type_and_get_blob_size_eof (st : PBFParser)
    (expected_type : string) (data : bytes) (post : list bytes) :
  pending st data post ->
  (length data < 4)%nat ->
  check_type_and_get_blob_size expected_type st
  = (set_input st post data, Ok 0).
Proof.
  intros Hp Hlen. unfold check_type_and_get_blob_size.
  unfold mbind at 1, Framer_bind.
  rewrite (read_blob_header_size_from_file_eof st data post Hp Hlen).
  reflexivity.
Qed.

(** A good BlobHeader that announces more than what is left: reading
    the Blob throws. *)
Lemma truncated_blob_throws (st : PBFParser) (expected_type : string)
    (blob : bytes * bytes) (post : list bytes) :
  pending st (blob_bytes blob) post ->
  truncated_blob expected_type blob ->
  exists st1 datasize,
    check_type_and_get_blob_size expected_type st = (st1, Ok datasize)
    /\ datasize <> 0
    /\ same_outputs st st1
    /\ read_from_input_queue datasize st1
       = (set_input st1 post (snd blob),
          Err (throw (pbf_error "truncated data (EOF encountered)"))).
Proof.
  intros Hp (datasize & Hgood & Hshort).
  unfold blob_bytes in Hp.
  destruct (check_type_and_get_blob_size_ok st _ _ _ _ post Hp Hgood)
    as (st1 & Hcheck & Hp1 & Hsame1).
  exists st1, datasize. split; [exact Hcheck|]. split; [lia|].
  split; [exact Hsame1|].
  apply read_from_input_queue_truncated; assumption.
Qed.

(** *** OSMData blobs *)

Lemma handle_data_blob_ok (st : PBFParser) (blob_data data : bytes)
    (post : list bytes) :
  pending st (blob_data ++ data) post ->
  Z.of_nat (length blob_data) <= max_uncompressed_blob_size ->
  (m_use_thread_pool st = false ->
   exists buffer, PBFDataBlobDecoder blob_data (m_read_types st) = Ok buffer) ->
  exists st',
    handle_data_blob (Z.of_nat (length blob_data)) st = (st', Ok ())
    /\ pending st' data post
    /\ m_queue st'
       = m_queue st ++ [PBFDataBlobDecoder blob_data (m_read_types st)]
    /\ same_settings st st'.
Proof.
  intros Hp Hmax Hdec.
  destruct (read_from_input_queue_enough st _ post
              (Z.of_nat (length blob_data)) Hp)
    as (st1 & Hread & Hp1 & Hq1 & Hh1 & Ht1 & Hu1).
  { rewrite length_app. lia. }
  rewrite Nat2Z.id, take_app_length in Hread.
  rewrite Nat2Z.id, drop_app_length in Hp1.
  unfold handle_data_blob. unfold mbind, Framer_bind. rewrite Hread.
  destruct (Z.gtb_spec (Z.of_nat (length blob_data)) max_uncompressed_blob_size);
    [lia|].
  rewrite Hu1, Ht1.
  destruct (m_use_thread_pool st) eqn:Hpool.
  - eexists. split; [reflexivity|].
    split; [exact Hp1|]. split; [cbn; congruence|].
    repeat split; cbn; congruence.
  - destruct (Hdec eq_refl) as [buffer Hbuf]. rewrite Hbuf.
    eexists. split; [reflexivity|].
    split; [exact Hp1|]. split; [cbn; congruence|].
    repeat split; cbn; congruence.
Qed.

(** The loop takes a run of good OSMData blobs one by one and pushes one
    future for each, in the order of the stream. *)
Lemma data_blobs_good (blobs : list (bytes * bytes)) :
  forall (st : PBFParser) (rest : bytes) (post : list bytes) (fuel : nat),
    pending st (concat (map blob_bytes blobs) ++ rest) post ->
    Forall (good_data_blob (m_read_types st) (m_use_thread_pool st)) blobs ->
    exists st',
      data_blobs (length blobs + fuel) st = data_blobs fuel st'
      /\ pending st' rest post
      /\ m_queue st' = m_queue st ++ data_futures (m_read_types st) blobs
      /\ same_settings st st'.
Proof.
  induction blobs as [|blob blobs IH]; intros st rest post fuel Hp Hgood.
  - exists st. split; [reflexivity|]. split; [exact Hp|].
    split; [cbn; rewrite app_nil_r; reflexivity | repeat split].
  - apply Forall_cons in Hgood as [(Hhdr & Hmax & Hdec) Hgood].
    cbn [map concat] in Hp. unfold blob_bytes at 1 in Hp.
    rewrite <- !app_assoc in Hp.
    destruct (check_type_and_get_blob_size_ok st _ _ _ _ post Hp Hhdr)
      as (st1 & Hcheck & Hp1 & Hq1 & Hh1 & Ht1 & Hu1).
    destruct (handle_data_blob_ok st1 _ _ post Hp1 Hmax)
      as (st2 & Hblob & Hp2 & Hq2 & Hh2 & Ht2 & Hu2).
    { rewrite Hu1, Ht1. exact Hdec. }
    destruct (IH st2 rest post fuel Hp2) as (st3 & Hloop & Hp3 & Hq3 & Hh3 & Ht3 & Hu3).
    { rewrite Ht2, Hu2, Ht1, Hu1. exact Hgood. }
    exists st3. split; [|split; [exact Hp3|split]].
    + cbn [length Nat.add data_blobs]. rewrite Hcheck.
      destruct Hhdr as [_ (fields & _ & Hd)].
      destruct (Z.eqb_spec (Z.of_nat (length (snd blob))) 0) as [Hz|_].
      * (* a datasize of 0 is refused by decode_blob_header *)
        exfalso. unfold decode_blob_header in Hd.
        destruct (blob_header_fields fields) as [ty ds].
        destruct (Z.eqb_spec ds 0); [discriminate|].
        destruct (negb _); [discriminate|]. congruence.
      * rewrite Hblob. exact Hloop.
    + rewrite Hq3, Hq2, Hq1, Ht2, Ht1. cbn [data_futures map].
      rewrite <- app_assoc. reflexivity.
    + repeat split; congruence.
Qed.

(** Fewer than four bytes left where a length prefix is due: the loop
    ends normally. *)
Lemma data_blobs_eof (st : PBFParser) (rest : bytes) (post : list bytes)
    (fuel : nat) :
  pending st rest post ->
  (length rest < 4)%nat ->
  data_blobs (S fuel) st = Some (set_input st post rest, Ok ()).
Proof.
  intros Hp Hlen. cbn [data_blobs].
  rewrite (check_type_and_get_blob_size_eof st "OSMData" rest post Hp Hlen).
  reflexivity.
Qed.

(** A truncated OSMData blob: the loop is left by the [pbf_error], and
    nothing is pushed for the blob. *)
Lemma data_blobs_truncated (st : PBFParser) (blob : bytes * bytes)
    (post : list bytes) (fuel : nat) :
  pending st (blob_bytes blob) post ->
  truncated_blob "OSMData" blob ->
  exists st',
    data_blobs (S fuel) st
    = Some (st', Err (throw (pbf_error "truncated data (EOF encountered)")))
    /\ same_outputs st st'.
Proof.
  intros Hp Htr.
  destruct (truncated_blob_throws st _ _ post Hp Htr)
    as (st1 & datasize & Hcheck & Hnz & Hsame & Hread).
  eexists. split.
  - cbn [data_blobs]. rewrite Hcheck.
    destruct (Z.eqb_spec datasize 0) as [|_]; [contradiction|].
    unfold handle_data_blob. unfold mbind, Framer_bind. rewrite Hread.
    reflexivity.
  - eapply same_outputs_trans; [exact Hsame | apply same_outputs_set_input].
Qed.

(** The loop returns whatever the input: the fuel [run] gives it is
    enough. *)
Lemma fill_input_buffer_size (queue : list bytes) :
  forall (buffer : bytes) (size : Z),
    let '(buffer', queue', r) := fill_input_buffer size buffer queue in
    (length buffer' + length (concat queue') <= length buffer + length (concat queue))%nat
    /\ (r = Ok () -> size <= Z.of_nat (length buffer')).
Proof.
  induction queue as [|chunk queue IH]; intros buffer size.
  - cbn [fill_input_buffer].
    destruct (Z.ltb_spec (Z.of_nat (length buffer)) size);
      split; (lia || congruence).
  - cbn [fill_input_buffer].
    destruct (Z.ltb_spec (Z.of_nat (length buffer)) size).
    + destruct chunk as [|c chunk].
      * cbn [concat app]. split; [lia | congruence].
      * specialize (IH (buffer ++ c :: chunk) size).
        destruct (fill_input_buffer size (buffer ++ c :: chunk) queue)
          as [[buffer' queue'] r].
        destruct IH as [IH1 IH2]. split; [|exact IH2].
        cbn [concat]. rewrite !length_app in *. lia.
    + split; [lia|]. intros _. lia.
Qed.

Lemma read_from_input_queue_size (st : PBFParser) (size : Z) :
  let '(st', r) := read_from_input_queue size st in
  (input_size st' <= input_size st)%nat
  /\ (forall out, r = Ok out ->
      0 <= size -> Z.of_nat (input_size st') + size <= Z.of_nat (input_size st)).
Proof.
  unfold read_from_input_queue, input_size.
  pose proof (fill_input_buffer_size (m_input_queue st) (m_input_buffer st) size) as H.
  destruct (fill_input_buffer size (m_input_buffer st) (m_input_queue st))
    as [[buffer' queue'] r].
  destruct H as [H1 H2]. destruct r as [[]|e]; cbn [set_input m_input_buffer m_input_queue].
  - specialize (H2 eq_refl). rewrite length_drop. split; [lia|].
    intros out _ Hs. lia.
  - split; [lia|]. intros out Hout. discriminate.
Qed.

Lemma read_blob_header_size_from_file_size (st : PBFParser) :
  let '(st', r) := read_blob_header_size_from_file st in
  (input_size st' <= input_size st)%nat
  /\ (forall n, r = Ok n -> n <> 0 -> (input_size st' + 4 <= input_size st)%nat).
Proof.
  unfold read_blob_header_size_from_file.
  unfold mbind at 1, Framer_bind, catch_pbf_error.
  unfold mbind at 1, Framer_bind.
  pose proof (read_from_input_queue_size st 4) as H.
  destruct (read_from_input_queue 4 st) as [st1 [input_data | e]].
  - destruct H as [H1 H2]. specialize (H2 input_data eq_refl).
    cbn [mret Framer_ret].
    destruct (ntohl input_data >? wrap_u32 max_blob_header_size);
      cbn [raise mret Framer_ret]; split; try lia; intros n Hn; try discriminate.
  - destruct H as [H1 _].
    destruct e as [[what | what] |]; cbn [mret Framer_ret];
      split; try lia; intros n Hn Hnz; try discriminate.
    injection Hn as <-. contradiction.
Qed.

Lemma check_type_and_get_blob_size_size (st : PBFParser)
    (expected_type : string) :
  let '(st', r) := check_type_and_get_blob_size expected_type st in
  forall n, r = Ok n -> n <> 0 -> (input_size st' < input_size st)%nat.
Proof.
  unfold check_type_and_get_blob_size. unfold mbind at 1, Framer_bind.
  pose proof (read_blob_header_size_from_file_size st) as H.
  destruct (read_blob_header_size_from_file st) as [st1 [size | e]];
    [|intros n Hn; discriminate].
  destruct H as [_ H]. specialize (H size eq_refl).
  destruct (Z.eqb_spec size 0) as [-> | Hnz].
  - cbn [mret Framer_ret]. intros n Hn Hz. injection Hn as <-. contradiction.
  - specialize (H Hnz). unfold mbind at 1, Framer_bind.
    pose proof (read_from_input_queue_size st1 size) as H'.
    destruct (read_from_input_queue size st1) as [st2 [blob_header | e]];
      [|intros n Hn; discriminate].
    destruct H' as [H' _]. unfold mbind, Framer_bind, call.
    destruct (pbf_message blob_header) as [fields | e];
      [|intros n Hn; discriminate].
    destruct (decode_blob_header fields expected_type);
      intros m Hm; [intros _; lia | discriminate].
Qed.

Lemma handle_data_blob_size (st : PBFParser) (size : Z) :
  (input_size (fst (handle_data_blob size st)) <= input_size st)%nat.
Proof.
  unfold handle_data_blob. unfold mbind, Framer_bind.
  pose proof (read_from_input_queue_size st size) as H.
  destruct (read_from_input_queue size st) as [st1 [input_buffer | e]];
    destruct H as [H _]; [|exact H].
  destruct (Z.of_nat (length input_buffer) >? max_uncompressed_blob_size);
    [exact H|].
  destruct (m_use_thread_pool st1); [exact H|].
  destruct (PBFDataBlobDecoder input_buffer (m_read_types st1)); exact H.
Qed.

Lemma data_blobs_total (fuel : nat) :
  forall st : PBFParser,
    (input_size st < fuel)%nat -> is_Some (data_blobs fuel st).
Proof.
  induction fuel as [|fuel IH]; intros st Hfuel; [lia|].
  cbn [data_blobs].
  pose proof (check_type_and_get_blob_size_size st "OSMData") as Hc.
  destruct (check_type_and_get_blob_size "OSMData" st) as [st1 [size | e]];
    [|eauto].
  destruct (Z.eqb_spec size 0) as [|Hnz]; [eauto|].
  specialize (Hc size eq_refl Hnz).
  pose proof (handle_data_blob_size st1 size) as Hh.
  destruct (handle_data_blob size st1) as [st2 [[] | e]]; [|eauto].
  cbn [fst] in Hh. apply IH. lia.
Qed.

(** [operator()] always comes to an end: it returns, throws, or waits on
    the input queue. *)
Lemma run_total (st : PBFParser) : is_Some (run st).
Proof.
  unfold run. destruct (parse_header_blob st) as [st1 [[] | e]]; [|eauto].
  destruct (m_read_types st1 =? nothing); [eauto|].
  destruct (data_blobs_total (S (input_size st1)) st1) as [[st2 r] Hr]; [lia|].
  rewrite Hr. destruct r; eauto.
Qed.

Lemma data_blobs_fuel (fuel : nat) :
  forall (fuel' : nat) (st : PBFParser) r,
    data_blobs fuel st = Some r -> (fuel <= fuel')%nat ->
    data_blobs fuel' st = Some r.
Proof.
  induction fuel as [|fuel IH]; intros fuel' st r H Hle; [discriminate|].
  destruct fuel' as [|fuel']; [lia|]. cbn [data_blobs] in *.
  destruct (check_type_and_get_blob_size "OSMData" st) as [st1 [size | e]];
    [|exact H].
  destruct (size =? 0); [exact H|].
  destruct (handle_data_blob size st1) as [st2 [[] | e]]; [|exact H].
  apply IH; [exact H | lia].
Qed.

(** *** The OSMHeader blob *)

Lemma parse_header_blob_good (st : PBFParser) (blob : bytes * bytes)
    (header : Header) (rest : bytes) (post : list bytes) :
  pending st (blob_bytes blob ++ rest) post ->
  good_header_blob blob header ->
  exists st',
    parse_header_blob st = (st', Ok ())
    /\ pending st' rest post
    /\ m_queue st' = m_queue st
    /\ m_header_promise st' = Some header
    /\ m_read_types st' = m_read_types st
    /\ m_use_thread_pool st' = m_use_thread_pool st.
Proof.
  intros Hp [Hhdr Hdec]. unfold blob_bytes in Hp. rewrite <- !app_assoc in Hp.
  destruct (check_type_and_get_blob_size_ok st _ _ _ _ post Hp Hhdr)
    as (st1 & Hcheck & Hp1 & Hq1 & Hh1 & Ht1 & Hu1).
  destruct (read_from_input_queue_enough st1 _ post
              (Z.of_nat (length (snd blob))) Hp1)
    as (st2 & Hread & Hp2 & Hq2 & Hh2 & Ht2 & Hu2).
  { rewrite length_app. lia. }
  rewrite Nat2Z.id, take_app_length in Hread.
  rewrite Nat2Z.id, drop_app_length in Hp2.
  unfold parse_header_blob. unfold mbind at 1, Framer_bind. rewrite Hcheck.
  unfold mbind, Framer_bind. rewrite Hread. unfold call. rewrite Hdec.
  eexists. split; [reflexivity|]. split; [exact Hp2|].
  cbn. repeat split; congruence.
Qed.

Lemma parse_header_blob_truncated (st : PBFParser) (blob : bytes * bytes)
    (post : list bytes) :
  pending st (blob_bytes blob) post ->
  truncated_blob "OSMHeader" blob ->
  exists st',
    parse_header_blob st
    = (st', Err (throw (pbf_error "truncated data (EOF encountered)")))
    /\ m_queue st' = m_queue st
    /\ m_header_promise st' = Some default_header.
Proof.
  intros Hp Htr.
  destruct (truncated_blob_throws st _ _ post Hp Htr)
    as (st1 & datasize & Hcheck & Hnz & (Hq1 & _) & Hread).
  unfold parse_header_blob. unfold mbind at 1, Framer_bind. rewrite Hcheck.
  unfold mbind, Framer_bind. rewrite Hread.
  eexists. split; [reflexivity|]. split; [exact Hq1 | reflexivity].
Qed.

(** *** The whole of [operator()] *)

Lemma pending_new (input_queue : list bytes) (post : list bytes)
    (read_types : Z) (use_thread_pool : bool) :
  after_eof input_queue = Some post ->
  pending (PBFParser_new input_queue read_types use_thread_pool)
          (until_eof input_queue) post.
Proof. intros H. split; [reflexivity | exact H]. Qed.

Lemma input_size_pending (st : PBFParser) (data : bytes) (post : list bytes) :
  pending st data post -> (length data <= input_size st)%nat.
Proof.
  intros [<- _]. unfold input_size. rewrite length_app.
  assert (forall q : list bytes, (length (until_eof q) <= length (concat q))%nat) as H.
  { induction q as [|[|c chunk] q IH]; cbn [until_eof concat]; [lia | cbn; lia |].
    rewrite !length_app. lia. }
  specialize (H (m_input_queue st)). lia.
Qed.

Lemma blob_bytes_length (blob : bytes * bytes) :
  (4 <= length (blob_bytes blob))%nat.
Proof. unfold blob_bytes. rewrite length_app. cbn. lia. Qed.

Lemma concat_blob_bytes_length (blobs : list (bytes * bytes)) :
  (length blobs <= length (concat (map blob_bytes blobs)))%nat.
Proof.
  induction blobs as [|blob blobs IH]; [cbn; lia|].
  cbn [map concat length]. rewrite length_app.
  pose proof (blob_bytes_length blob). lia.
Qed.

(** After a good OSMHeader blob and a run of good OSMData blobs, the
    loop of [operator()] is at the rest of the input with one future
    pushed per blob. *)
Lemma run_good_prefix (input_queue : list bytes) (post : list bytes)
    (read_types : Z) (use_thread_pool : bool)
    (header_blob : bytes * bytes) (header : Header)
    (blobs : list (bytes * bytes)) (rest : bytes) (fuel : nat) :
  after_eof input_queue = Some post ->
  until_eof input_queue
  = blob_bytes header_blob ++ concat (map blob_bytes blobs) ++ rest ->
  good_header_blob header_blob header ->
  Forall (good_data_blob read_types use_thread_pool) blobs ->
  exists st1 st2,
    parse_header_blob (PBFParser_new input_queue read_types use_thread_pool)
    = (st1, Ok ())
    /\ m_read_types st1 = read_types
    /\ (length blobs + length rest <= input_size st1)%nat
    /\ data_blobs (length blobs + fuel) st1 = data_blobs fuel st2
    /\ pending st2 rest post
    /\ m_queue st2 = data_futures read_types blobs
    /\ m_header_promise st2 = Some header
    /\ m_read_types st2 = read_types.
Proof.
  intros Heof Hstream Hhdr Hgood.
  pose proof (pending_new input_queue post read_types use_thread_pool Heof) as Hp.
  rewrite Hstream in Hp.
  destruct (parse_header_blob_good _ _ _ _ post Hp Hhdr)
    as (st1 & Hparse & Hp1 & Hq1 & Hh1 & Ht1 & Hu1).
  cbn [PBFParser_new m_queue m_read_types m_use_thread_pool] in Hq1, Ht1, Hu1.
  destruct (data_blobs_good blobs st1 rest post fuel Hp1)
    as (st2 & Hloop & Hp2 & Hq2 & Hh2 & Ht2 & Hu2).
  { rewrite Ht1, Hu1. exact Hgood. }
  exists st1, st2. repeat split; try congruence.
  - apply input_size_pending in Hp1. rewrite length_app in Hp1.
    pose proof (concat_blob_bytes_length blobs). lia.
  - apply Hp2.
  - apply Hp2.
  - rewrite Hq2, Hq1, Ht1. reflexivity.
Qed.

(** C7 (as the code has it): when the stream is complete up to a
    BlobHeader that is good for its position and announces more bytes
    than remain before the end of the input -- the OSMHeader blob, or an
    OSMData blob when some entity type is asked for -- the framer stops
    with [pbf_error] "truncated data (EOF encountered)".  It has pushed
    one future per complete OSMData blob and no end-of-file sentinel.  As
    long as one of these futures is left in the queue -- the consumer has
    popped fewer than there are complete OSMData blobs -- its next
    [read()] after the parser task has ended pops that future and raises
    the error of the task instead of returning a buffer. *)
Theorem pbf_truncated_blob_raises (input_queue : list bytes)
    (post : list bytes) (read_types : Z) (use_thread_pool : bool)
    (header_blob : bytes * bytes) (header : Header)
    (blobs : list (bytes * bytes)) (last_blob : bytes * bytes) :
  after_eof input_queue = Some post ->
  (until_eof input_queue = blob_bytes last_blob ->
   truncated_blob "OSMHeader" last_blob ->
   exists st',
     run (PBFParser_new input_queue read_types use_thread_pool)
     = Some (st', Err (throw (pbf_error "truncated data (EOF encountered)")))
     /\ m_queue st' = [])
  /\ (until_eof input_queue
      = blob_bytes header_blob ++ concat (map blob_bytes blobs)
        ++ blob_bytes last_blob ->
      good_header_blob header_blob header ->
      Forall (good_data_blob read_types use_thread_pool) blobs ->
      truncated_blob "OSMData" last_blob ->
      read_types <> nothing ->
      exists st' result,
        run (PBFParser_new input_queue read_types use_thread_pool)
        = Some (st', result)
        /\ result = Err (throw (pbf_error "truncated data (EOF encountered)"))
        /\ m_queue st' = data_futures read_types blobs
        /\ forall popped : nat,
             (popped < length blobs)%nat ->
             read (Some result) (drop popped (m_queue st'))
             = (drop (S popped) (m_queue st'),
                Err (throw (pbf_error "truncated data (EOF encountered)")))).
Proof.
  intros Heof. split.
  - intros Hstream Htr.
    pose proof (pending_new input_queue post read_types use_thread_pool Heof) as Hp.
    rewrite Hstream in Hp.
    destruct (parse_header_blob_truncated _ _ post Hp Htr) as (st' & Hparse & Hq & _).
    exists st'. unfold run. rewrite Hparse. split; [reflexivity | exact Hq].
  - intros Hstream Hhdr Hgood Htr Htypes.
    destruct (run_good_prefix input_queue post read_types use_thread_pool
                header_blob header blobs (blob_bytes last_blob) 1
                Heof Hstream Hhdr Hgood)
      as (st1 & st2 & Hparse & Ht1 & Hfuel & Hloop & Hp2 & Hq2 & _ & _).
    destruct (data_blobs_truncated st2 last_blob post 0 Hp2 Htr)
      as (st3 & Hlast & Hq3 & _).
    exists st3, (Err (throw (pbf_error "truncated data (EOF encountered)"))).
    assert (m_queue st3 = data_futures read_types blobs) as Hq by congruence.
    split; [|split; [reflexivity|split; [exact Hq|]]].
    + unfold run. rewrite Hparse, Ht1.
      destruct (Z.eqb_spec read_types nothing) as [|_]; [contradiction|].
      rewrite Hlast in Hloop.
      rewrite (data_blobs_fuel _ (S (input_size st1)) _ _ Hloop); [reflexivity|].
      pose proof (blob_bytes_length last_blob). lia.
    + intros popped Hpopped. rewrite Hq.
      destruct (lookup_lt_is_Some_2 (data_futures read_types blobs) popped)
        as [buffer_future Hf].
      { unfold data_futures. rewrite length_map. exact Hpopped. }
      rewrite (drop_S _ _ _ Hf). reflexivity.
Qed.

(** C10 (as the code has it): whenever fewer than four bytes are left
    in front of the end of the input, the [pbf_error] is caught in
    [read_blob_header_size_from_file], which returns 0 and leaves the
    stray bytes in the buffer.  Where an OSMData blob is due -- after a
    good OSMHeader blob and any number of good OSMData blobs, with some
    entity type asked for -- the framer then pushes the empty sentinel
    buffer behind the futures of the blobs and returns true. *)
Theorem pbf_eof_in_length_prefix (input_queue : list bytes)
    (post : list bytes) (read_types : Z) (use_thread_pool : bool)
    (header_blob : bytes * bytes) (header : Header)
    (blobs : list (bytes * bytes)) (rest : bytes) :
  (length rest < 4)%nat ->
  (forall st : PBFParser,
     pending st rest post ->
     read_blob_header_size_from_file st = (set_input st post rest, Ok 0))
  /\ (after_eof input_queue = Some post ->
      until_eof input_queue
      = blob_bytes header_blob ++ concat (map blob_bytes blobs) ++ rest ->
      good_header_blob header_blob header ->
      Forall (good_data_blob read_types use_thread_pool) blobs ->
      read_types <> nothing ->
      exists st',
        run (PBFParser_new input_queue read_types use_thread_pool)
        = Some (st', Ok true)
        /\ m_queue st' = data_futures read_types blobs ++ [Ok empty_buffer]
        /\ m_header_promise st' = Some header
        /\ m_input_buffer st' = rest).
Proof.
  intros Hrest. split.
  - intros st Hp. apply read_blob_header_size_from_file_eof; assumption.
  - intros Heof Hstream Hhdr Hgood Htypes.
    destruct (run_good_prefix input_queue post read_types use_thread_pool
                header_blob header blobs rest 1 Heof Hstream Hhdr Hgood)
      as (st1 & st2 & Hparse & Ht1 & Hfuel & Hloop & Hp2 & Hq2 & Hh2 & _).
    rewrite (data_blobs_eof st2 rest post 0 Hp2 Hrest) in Hloop.
    eexists. split; [|split; [|split]].
    + unfold run. rewrite Hparse, Ht1.
      destruct (Z.eqb_spec read_types nothing) as [|_]; [contradiction|].
      rewrite (data_blobs_fuel _ (S (input_size st1)) _ _ Hloop); [reflexivity|].
      lia.
    + cbn. rewrite Hq2. reflexivity.
    + cbn. exact Hh2.
    + reflexivity.
Qed.
End PBF_framing.

(** The expected type is "OSMHeader" for the first blob and "OSMData" for
    every later one: a stream that starts with an OSMData blob, and one
    with a second OSMHeader blob, are refused.  A later blob of type "OSM"
    is taken for an OSMData blob. *)
Example pbf_blob_types_examples :
  (exists st',
     @run example_decoders
       (PBFParser_new [blob_bytes example_data_blob; []] 1 false)
     = Some (st', Err (throw (pbf_error "blob does not have expected type (OSMHeader in first blob, OSMData in following blobs)")))
     /\ m_queue st' = [])
  /\ (exists st',
        @run example_decoders
          (PBFParser_new [blob_bytes example_header_blob;
                          blob_bytes example_header_blob; []] 1 false)
        = Some (st', Err (throw (pbf_error "blob does not have expected type (OSMHeader in first blob, OSMData in following blobs)")))
        /\ m_queue st' = [])
  /\ (exists st',
        @run example_decoders
          (PBFParser_new [blob_bytes example_header_blob;
                          blob_bytes (example_blob_header "OSM" 3, chars "abc");
                          []] 1 false)
        = Some (st', Ok true)
        /\ m_queue st' = [Ok (chars "abc"); Ok []]).
Proof.
  split; [|split]; eexists; split; vm_compute; reflexivity.
Qed.

(** With nothing queued, [read] waits, whatever the state of the parser
    task. *)
Lemma read_empty_queue `{D : PBFDecoders}
    (parser_thread : option (Result stop bool)) :
  read parser_thread [] = ([], Err wait_forever).
Proof. reflexivity. Qed.

(** *** The framer on concrete streams *)

Lemma example_header_blob_good :
  @good_header_blob example_decoders example_header_blob 2%nat.
Proof.
  split; [split|].
  - vm_compute. split; [reflexivity | discriminate].
  - eexists. split; reflexivity.
  - reflexivity.
Qed.

Lemma example_data_blob_good (read_types : Z) (use_thread_pool : bool) :
  @good_data_blob example_decoders read_types use_thread_pool example_data_blob.
Proof.
  split; [split|split].
  - vm_compute. split; [reflexivity | discriminate].
  - eexists. split; reflexivity.
  - vm_compute. discriminate.
  - intros _. eexists. reflexivity.
Qed.

Lemma example_truncated_blob_truncated :
  @truncated_blob example_decoders "OSMData" example_truncated_blob.
Proof.
  exists 5. split; [split|].
  - vm_compute. split; [reflexivity | discriminate].
  - eexists. split; reflexivity.
  - reflexivity.
Qed.

(** An OSMHeader blob, one complete OSMData blob and a truncated one, with
    nodes asked for: the framer throws behind the future of the complete
    blob, and the [read()] that pops this future raises the error. *)
Lemma pbf_truncated_blob_raises_witness :
  exists st' result,
    @run example_decoders (PBFParser_new example_truncated_queue 1 false)
    = Some (st', result)
    /\ result = Err (throw (pbf_error "truncated data (EOF encountered)"))
    /\ m_queue st' = [Ok (chars "abc")]
    /\ forall popped : nat,
         (popped < 1)%nat ->
         read (Some result) (drop popped (m_queue st'))
         = (drop (S popped) (m_queue st'),
            Err (throw (pbf_error "truncated data (EOF encountered)"))).
Proof.
  refine (proj2 (@pbf_truncated_blob_raises example_decoders
            example_truncated_queue [] 1 false example_header_blob 2%nat
            [example_data_blob] example_truncated_blob _) _ _ _ _ _).
  - reflexivity.
  - reflexivity.
  - exact example_header_blob_good.
  - constructor; [apply example_data_blob_good | constructor].
  - exact example_truncated_blob_truncated.
  - discriminate.
Defined.

(** Two streams on which the claim fails.  The stream above with no entity
    type asked for ([osm_entity_bits::nothing]): [operator()] returns true
    behind the OSMHeader blob; the truncated OSMData blob is never looked
    at, no error is raised and nothing is pushed.  And a stream whose first
    OSMData blob is the truncated one, with nodes asked for: the framer
    throws, but it has pushed no future, and [read()] waits in
    [wait_and_pop] -- which comes before [check_for_exception] -- for a
    future that nobody will push. *)
Lemma pbf_truncated_blob_unnoticed :
  (@truncated_blob example_decoders "OSMData" example_truncated_blob
   /\ until_eof example_truncated_queue
      = blob_bytes example_header_blob ++ blob_bytes example_data_blob
        ++ blob_bytes example_truncated_blob
   /\ exists st',
        @run example_decoders
          (PBFParser_new example_truncated_queue nothing false)
        = Some (st', Ok true)
        /\ m_queue st' = [])
  /\ (until_eof example_truncated_first_queue
      = blob_bytes example_header_blob ++ blob_bytes example_truncated_blob
      /\ exists st' result,
           @run example_decoders
             (PBFParser_new example_truncated_first_queue 1 false)
           = Some (st', result)
           /\ result
              = Err (throw (pbf_error "truncated data (EOF encountered)"))
           /\ m_queue st' = []
           /\ read (Some result) (m_queue st') = ([], Err wait_forever)).
Proof.
  split.
  - split; [exact example_truncated_blob_truncated|].
    split; [reflexivity|].
    eexists. split; vm_compute; reflexivity.
  - split; [reflexivity|].
    eexists. eexists. split; [vm_compute; reflexivity|].
    split; [reflexivity|]. split; reflexivity.
Qed.

(** The stream that ends two bytes into the length prefix of the third
    blob: the framer pushes the future of the data blob, then the sentinel,
    and returns true. *)
Lemma pbf_eof_in_length_prefix_witness :
  exists st',
    @run example_decoders (PBFParser_new example_short_queue 1 false)
    = Some (st', Ok true)
    /\ m_queue st' = [Ok (chars "abc"); Ok []]
    /\ m_header_promise st' = Some 2%nat
    /\ m_input_buffer st' = chars "ab".
Proof.
  refine (proj2 (@pbf_eof_in_length_prefix example_decoders
            example_short_queue [] 1 false example_header_blob 2%nat
            [example_data_blob] (chars "ab") _) _ _ _ _ _).
  - cbn. lia.
  - reflexivity.
  - reflexivity.
  - exact example_header_blob_good.
  - constructor; [apply example_data_blob_good | constructor].
  - discriminate.
Defined.

(** A stream of two stray bytes, which ends inside the length prefix of
    the first blob.  With no entity type asked for, [operator()] returns
    true and pushes no sentinel; with nodes asked for it goes on to the loop,
    where [read_from_input_queue] pops the input queue again, behind the
    end-of-input marker. *)
Lemma pbf_eof_in_first_length_prefix :
  (exists st',
     @run example_decoders (PBFParser_new example_stray_queue nothing false)
     = Some (st', Ok true)
     /\ m_queue st' = [])
  /\ (exists st',
        @run example_decoders (PBFParser_new example_stray_queue 1 false)
        = Some (st', Err wait_forever)
        /\ m_queue st' = []).
Proof.
  split; eexists; split; vm_compute; reflexivity.
Qed.

(** ** The location index family *)

Module IndexProofs.
Import Index.

Lemma last_set_snoc (ops : list entry) (i : N) (l : Location) (id : N) :
  last_set (ops ++ [(i, l)]) id
  = if (i =? id)%N then Some l else last_set ops id.
Proof. unfold last_set. rewrite fold_left_app. reflexivity. Qed.

Lemma populate_snoc (idx : t) (ops : list entry) (e : entry) :
  populate idx (ops ++ [e]) = set (populate idx ops) (fst e) (snd e).
Proof. unfold populate. rewrite fold_left_app. reflexivity. Qed.

(** *** Dense arrays and maps: every [set] is visible at once *)

Lemma dense_get_set (cells : list Location) (i j : N) (l : Location) :
  dense_get_noexcept (dense_set cells i l) j
  = if (i =? j)%N then l else dense_get_noexcept cells j.
Proof.
  unfold dense_get_noexcept, dense_set.
  destruct (N.eqb_spec i j) as [-> | Hne].
  - rewrite list_lookup_insert_eq; [reflexivity|].
    rewrite length_app, length_replicate. lia.
  - rewrite list_lookup_insert_ne by lia.
    destruct (cells !! N.to_nat j) as [c|] eqn:E.
    + rewrite (lookup_app_l_Some _ _ _ _ E). reflexivity.
    + rewrite lookup_app_r by (apply lookup_ge_None; exact E).
      destruct (replicate _ _ !! _) as [c|] eqn:E2; [|reflexivity].
      apply lookup_replicate_1 in E2 as [-> _]. reflexivity.
Qed.

Lemma populate_dense (ops : list entry) :
  exists cells,
    populate (dense []) ops = dense cells
    /\ forall j, dense_get_noexcept cells j
                 = default undefined_location (last_set ops j).
Proof.
  induction ops as [|[i l] ops IH] using rev_ind.
  - exists []. split; [reflexivity|]. intros j. reflexivity.
  - destruct IH as (cells & Hp & Hget). exists (dense_set cells i l).
    rewrite populate_snoc, Hp. split; [reflexivity|]. intros j.
    rewrite dense_get_set, last_set_snoc, Hget.
    destruct (i =? j)%N; reflexivity.
Qed.

Lemma populate_sparse_map (ops : list entry) :
  exists m : gmap N Location,
    populate (sparse_map ∅) ops = sparse_map m
    /\ forall j, m !! j = last_set ops j.
Proof.
  induction ops as [|[i l] ops IH] using rev_ind.
  - exists ∅. split; [reflexivity|]. intros j. apply lookup_empty.
  - destruct IH as (m & Hp & Hget). exists (<[i := l]> m).
    rewrite populate_snoc, Hp. split; [reflexivity|]. intros j.
    rewrite last_set_snoc.
    destruct (N.eqb_spec i j) as [-> | Hne].
    + apply lookup_insert_eq.
    + rewrite lookup_insert_ne by exact Hne. apply Hget.
Qed.

(** *** Sparse arrays: [set] appends *)

Lemma populate_sparse_array (ops v : list entry) :
  populate (sparse_array v) ops = sparse_array (v ++ ops).
Proof.
  revert v. induction ops as [|[i l] ops IH]; intros v.
  - rewrite app_nil_r. reflexivity.
  - cbn [populate fold_left set fst snd]. fold (populate (sparse_array (v ++ [(i, l)])) ops).
    rewrite IH, <- app_assoc. reflexivity.
Qed.

Lemma populate_flex_sparse (ops v : list entry) :
  populate (flex_sparse v) ops = flex_sparse (v ++ ops).
Proof.
  revert v. induction ops as [|[i l] ops IH]; intros v.
  - rewrite app_nil_r. reflexivity.
  - cbn [populate fold_left set fst snd]. fold (populate (flex_sparse (v ++ [(i, l)])) ops).
    rewrite IH, <- app_assoc. reflexivity.
Qed.

(** *** [sort]: ordered by id, one entry per id, the last one set *)

Lemma insert_entry_Forall (P : entry -> Prop) (e : entry) (v : list entry) :
  P e -> Forall P v -> Forall P (insert_entry e v).
Proof.
  intros He. induction 1 as [|e' v' He' Hv' IH]; cbn [insert_entry].
  - repeat constructor. exact He.
  - destruct (fst e <? fst e')%N; [repeat constructor; assumption|].
    destruct (fst e =? fst e')%N; constructor; assumption.
Qed.

Lemma insert_entry_sorted (e : entry) (v : list entry) :
  StronglySorted id_lt v -> StronglySorted id_lt (insert_entry e v).
Proof.
  induction 1 as [|e' v' Hs IH Hall]; cbn [insert_entry].
  - repeat constructor.
  - destruct (N.ltb_spec (fst e) (fst e')) as [Hlt | Hge].
    + constructor; [constructor; assumption|].
      constructor; [exact Hlt|].
      eapply Forall_impl; [exact Hall|]. unfold id_lt. intros; cbn in *; lia.
    + destruct (N.eqb_spec (fst e) (fst e')) as [Heq | Hne].
      * constructor; [exact Hs|].
        eapply Forall_impl; [exact Hall|]. unfold id_lt. intros; cbn in *; lia.
      * constructor; [exact IH|].
        apply insert_entry_Forall; [unfold id_lt; lia | exact Hall].
Qed.

Lemma insert_entry_elem (e : entry) (v : list entry) (j : N) (l : Location) :
  StronglySorted id_lt v ->
  (j, l) ∈ insert_entry e v <-> (j, l) = e \/ (j <> fst e /\ (j, l) ∈ v).
Proof.
  induction 1 as [|e' v' Hs IH Hall]; cbn [insert_entry].
  - rewrite list_elem_of_singleton. split; [auto | intros [H | [_ H]]; [exact H|]].
    inversion H.
  - rewrite Forall_forall in Hall. unfold id_lt in Hall.
    destruct (N.ltb_spec (fst e) (fst e')) as [Hlt | Hge].
    + rewrite elem_of_cons. split.
      * intros [H | H]; [auto|]. right. split; [|exact H].
        apply elem_of_cons in H as [<- | H]; [cbn in Hlt; lia|].
        specialize (Hall _ H). cbn in Hall. lia.
      * intros [H | [_ H]]; auto.
    + destruct (N.eqb_spec (fst e) (fst e')) as [Heq | Hne].
      * rewrite !elem_of_cons. split.
        -- intros [H | H]; [auto|]. right. split; [|auto].
           specialize (Hall _ H). cbn in Hall. lia.
        -- intros [H | [Hj [<- | H]]]; auto; cbn in Heq; congruence.
      * rewrite !elem_of_cons, IH. split.
        -- intros [<- | [H | [Hj H]]]; auto.
        -- intros [H | [Hj [H | H]]]; auto.
Qed.

Lemma sort_entries_snoc (v : list entry) (e : entry) :
  sort_entries (v ++ [e]) = insert_entry e (sort_entries v).
Proof. unfold sort_entries. rewrite fold_left_app. reflexivity. Qed.

Lemma sort_entries_sorted (v : list entry) :
  StronglySorted id_lt (sort_entries v).
Proof.
  induction v as [|e v IH] using rev_ind; [constructor|].
  rewrite sort_entries_snoc. apply insert_entry_sorted, IH.
Qed.

(** The sorted array holds, for every id that was set, exactly the
    Location it was last set to. *)
Lemma sort_entries_elem (v : list entry) (j : N) (l : Location) :
  (j, l) ∈ sort_entries v <-> last_set v j = Some l.
Proof.
  revert l. induction v as [|[i l0] v IH] using rev_ind; intros l.
  - cbn. split; [intros H; inversion H | discriminate].
  - rewrite sort_entries_snoc, last_set_snoc.
    rewrite insert_entry_elem by apply sort_entries_sorted. cbn [fst].
    destruct (N.eqb_spec i j) as [-> | Hne].
    + split; [intros [H | [H _]]; congruence | intros H; left; congruence].
    + rewrite IH. split; [intros [H | [_ H]]; congruence | auto].
Qed.

(** *** Bisection on a sorted array *)

Lemma sorted_lookup_lt (v : list entry) :
  StronglySorted id_lt v ->
  forall (i k : nat) (a b : entry),
    v !! i = Some a -> v !! k = Some b -> (i < k)%nat -> (fst a < fst b)%N.
Proof.
  induction 1 as [|e v Hs IH Hall]; intros i k a b Ha Hb Hik.
  - discriminate.
  - destruct k as [|k]; [lia|]. cbn in Hb. destruct i as [|i].
    + cbn in Ha. injection Ha as <-.
      rewrite Forall_forall in Hall. apply (Hall b).
      apply list_elem_of_lookup. eauto.
    + cbn in Ha. apply (IH i k); [assumption | assumption | lia].
Qed.

Lemma id_at_mono (v : list entry) (i k : nat) :
  StronglySorted id_lt v ->
  (i <= k)%nat -> (k < length v)%nat -> (id_at v i <= id_at v k)%N.
Proof.
  intros Hs Hik Hk. unfold id_at.
  destruct (lookup_lt_is_Some_2 v k Hk) as [b Hb].
  destruct (lookup_lt_is_Some_2 v i) as [a Ha]; [lia|].
  rewrite Ha, Hb. destruct (decide (i = k)) as [-> | Hne].
  - assert (a = b) as -> by congruence. lia.
  - pose proof (sorted_lookup_lt v Hs i k a b Ha Hb). lia.
Qed.

(** The loop keeps the ids below [first] smaller than the key and the
    ids from [first + count] on at least the key; it ends at the first
    position whose id is not smaller than the key. *)
Lemma lower_bound_loop_spec (v : list entry) (id : N) :
  StronglySorted id_lt v ->
  forall (fuel first count : nat),
    (count <= fuel)%nat ->
    (first + count <= length v)%nat ->
    (forall i, (i < first)%nat -> (id_at v i < id)%N) ->
    (forall i, (first + count <= i)%nat -> (i < length v)%nat ->
               (id <= id_at v i)%N) ->
    (lower_bound_loop fuel v id first count <= length v)%nat
    /\ (forall i, (i < lower_bound_loop fuel v id first count)%nat ->
                  (id_at v i < id)%N)
    /\ (forall i, (lower_bound_loop fuel v id first count <= i)%nat ->
                  (i < length v)%nat -> (id <= id_at v i)%N).
Proof.
  intros Hs. induction fuel as [|fuel IH]; intros first count Hfuel Hlen Hlo Hhi.
  - assert (count = 0)%nat as -> by lia. cbn [lower_bound_loop].
    split; [lia|]. split; [exact Hlo|].
    intros i Hi. apply Hhi. lia.
  - cbn [lower_bound_loop]. destruct (Nat.eqb_spec count 0) as [-> | Hnz].
    + split; [lia|]. split; [exact Hlo|]. intros i Hi. apply Hhi. lia.
    + assert (count / 2 < count)%nat as Hstep by (apply Nat.div_lt; lia).
      cbv zeta.
      destruct (N.ltb_spec (id_at v (first + count / 2)) id) as [Hlt | Hge].
      * apply IH; [lia | lia | | ].
        -- intros i Hi.
           pose proof (id_at_mono v i (first + count / 2) Hs) as Hm.
           assert (id_at v i <= id_at v (first + count / 2))%N by (apply Hm; lia).
           lia.
        -- intros i Hi1 Hi2. apply Hhi; lia.
      * apply IH; [lia | lia | exact Hlo | ].
        intros i Hi1 Hi2.
        pose proof (id_at_mono v (first + count / 2) i Hs) as Hm.
        assert (id_at v (first + count / 2) <= id_at v i)%N by (apply Hm; lia).
        lia.
Qed.

Lemma lower_bound_spec (v : list entry) (id : N) :
  StronglySorted id_lt v ->
  (lower_bound v id <= length v)%nat
  /\ (forall i, (i < lower_bound v id)%nat -> (id_at v i < id)%N)
  /\ (forall i, (lower_bound v id <= i)%nat -> (i < length v)%nat ->
                (id <= id_at v i)%N).
Proof.
  intros Hs. unfold lower_bound.
  apply lower_bound_loop_spec; [exact Hs | lia | lia | intros; lia | intros; lia].
Qed.

(** On a sorted array the search finds the entry of an id if there is
    one, and no entry otherwise. *)
Lemma sparse_find_sorted (v : list entry) (id : N) :
  StronglySorted id_lt v ->
  (forall l, (id, l) ∈ v -> sparse_find v id = Some l)
  /\ ((forall l, (id, l) ∉ v) -> sparse_find v id = None).
Proof.
  intros Hs. destruct (lower_bound_spec v id Hs) as (Hp & Hlo & Hhi).
  unfold sparse_find. split.
  - intros l Hin. apply list_elem_of_lookup in Hin as [k Hk].
    assert (k < length v)%nat as Hklen by (eapply lookup_lt_Some; exact Hk).
    assert (id_at v k = id) as Hidk by (unfold id_at; rewrite Hk; reflexivity).
    assert (lower_bound v id <= k)%nat as Hpk.
    { destruct (le_lt_dec (lower_bound v id) k) as [|Hlt]; [assumption|].
      specialize (Hlo k Hlt). lia. }
    assert (lower_bound v id = k) as ->.
    { destruct (decide (lower_bound v id = k)) as [|Hne]; [assumption|].
      exfalso.
      destruct (lookup_lt_is_Some_2 v (lower_bound v id)) as [a Ha]; [lia|].
      pose proof (sorted_lookup_lt v Hs _ _ _ _ Ha Hk) as Hlt.
      specialize (Hhi (lower_bound v id)). unfold id_at in Hhi.
      rewrite Ha in Hhi. cbn in Hlt. lia. }
    rewrite Hk. cbn [fst snd]. rewrite N.eqb_refl. reflexivity.
  - intros Hnot. destruct (v !! lower_bound v id) as [[i l]|] eqn:E; [|reflexivity].
    cbn [fst snd]. destruct (N.eqb_spec i id) as [-> | _]; [|reflexivity].
    exfalso. apply (Hnot l). apply list_elem_of_lookup. eauto.
Qed.

(** After [sort] the search finds, for every id, what it was last set
    to. *)
Lemma sparse_find_sort (ops : list entry) (j : N) :
  sparse_find (sort_entries ops) j = last_set ops j.
Proof.
  destruct (sparse_find_sorted (sort_entries ops) j
              (sort_entries_sorted ops)) as [Hin Hout].
  destruct (last_set ops j) as [l|] eqn:E.
  - apply Hin, sort_entries_elem, E.
  - apply Hout. intros l Hl. apply sort_entries_elem in Hl. congruence.
Qed.

(** *** Copying a sorted array into a dense one *)

Lemma copy_entries_length (s : list entry) (cells : list Location) :
  length (copy_entries s cells) = length cells.
Proof.
  revert cells. induction s as [|e s IH]; intros cells; [reflexivity|].
  cbn [copy_entries fold_left]. fold (copy_entries s (<[N.to_nat (fst e) := snd e]> cells)).
  rewrite IH. apply length_insert.
Qed.

Lemma copy_entries_lookup (s : list entry) :
  StronglySorted id_lt s ->
  forall (cells : list Location) (j : N),
    (forall e, e ∈ s -> (N.to_nat (fst e) < length cells)%nat) ->
    (forall l, (j, l) ∈ s -> copy_entries s cells !! N.to_nat j = Some l)
    /\ ((forall l, (j, l) ∉ s) ->
        copy_entries s cells !! N.to_nat j = cells !! N.to_nat j).
Proof.
  induction 1 as [|e s Hs IH Hall]; intros cells j Hrange.
  - split; [intros l H; inversion H | reflexivity].
  - cbn [copy_entries fold_left].
    fold (copy_entries s (<[N.to_nat (fst e) := snd e]> cells)).
    rewrite Forall_forall in Hall. unfold id_lt in Hall.
    destruct (IH (<[N.to_nat (fst e) := snd e]> cells) j) as [IHin IHout].
    { intros e' He'. rewrite length_insert. apply Hrange. right. exact He'. }
    split.
    + intros l Hin. apply elem_of_cons in Hin as [<- | Hin].
      * rewrite IHout.
        -- apply list_lookup_insert_eq. apply (Hrange (j, l)). left.
        -- intros l' Hl'. specialize (Hall _ Hl'). cbn in Hall. lia.
      * apply IHin. exact Hin.
    + intros Hnot. rewrite IHout.
      * apply list_lookup_insert_ne. intros Heq.
        apply (Hnot (snd e)). apply N2Nat.inj in Heq. rewrite <- Heq.
        destruct e. left.
      * intros l Hl. apply (Hnot l). right. exact Hl.
Qed.

(** The allocated size covers every id of the sorted array. *)
Lemma dense_size_covers (s : list entry) (e : entry) :
  StronglySorted id_lt s -> e ∈ s -> (N.to_nat (fst e) < dense_size s)%nat.
Proof.
  intros Hs He. unfold dense_size.
  destruct (last s) as [x|] eqn:Hlast.
  - apply last_Some in Hlast as [s' ->].
    apply elem_of_app in He as [He | He].
    + pose proof (StronglySorted_app_1_elem_of id_lt s' [x] e x Hs He) as Hlt.
      unfold id_lt in Hlt. specialize (Hlt ltac:(left)). lia.
    + apply list_elem_of_singleton in He as ->. lia.
  - apply last_None in Hlast. subst s. inversion He.
Qed.

Lemma switch_to_dense_cells (v : list entry) :
  exists cells,
    switch_to_dense (flex_sparse v) = flex_dense cells
    /\ length cells = dense_size (sort_entries v)
    /\ forall j, dense_get_noexcept cells j
                 = default undefined_location (last_set v j).
Proof.
  eexists. split; [reflexivity|]. split.
  - rewrite copy_entries_length. apply length_replicate.
  - intros j. unfold dense_get_noexcept.
    pose proof (sort_entries_sorted v) as Hs.
    destruct (copy_entries_lookup (sort_entries v) Hs
                (replicate (dense_size (sort_entries v)) undefined_location) j)
      as [Hin Hout].
    { intros e He. rewrite length_replicate. apply dense_size_covers; assumption. }
    destruct (last_set v j) as [l|] eqn:E.
    + rewrite (Hin l); [reflexivity|]. apply sort_entries_elem, E.
    + rewrite Hout.
      * destruct (replicate _ _ !! _) as [c|] eqn:E2; [|reflexivity].
        apply lookup_replicate_1 in E2 as [-> _]. reflexivity.
      * intros l Hl. apply sort_entries_elem in Hl. congruence.
Qed.

(** Entries that were set in increasing order of id are already
    sorted: [sort] changes nothing. *)
Lemma insert_entry_last (e : entry) (v : list entry) :
  Forall (fun e' => id_lt e' e) v -> insert_entry e v = v ++ [e].
Proof.
  induction 1 as [|e' v' He' Hv' IH]; [reflexivity|].
  unfold id_lt in He'. cbn [insert_entry app].
  destruct (N.ltb_spec (fst e) (fst e')); [lia|].
  destruct (N.eqb_spec (fst e) (fst e')); [lia|].
  rewrite IH. reflexivity.
Qed.

Lemma sort_entries_increasing (v : list entry) :
  StronglySorted id_lt v -> sort_entries v = v.
Proof.
  induction v as [|e v IH] using rev_ind; intros Hs; [reflexivity|].
  rewrite sort_entries_snoc.
  apply StronglySorted_app in Hs as (Hlt & Hv & _).
  rewrite IH by exact Hv. apply insert_entry_last.
  apply Forall_forall. intros e' He'. apply Hlt; [exact He' | left].
Qed.

(** Sorting twice is sorting once. *)
Lemma sort_sort (idx : t) : sort (sort idx) = sort idx.
Proof.
  destruct idx; cbn [sort]; try reflexivity;
    rewrite (sort_entries_increasing _ (sort_entries_sorted _)); reflexivity.
Qed.

(** [switch_to_dense] sorts by itself. *)
Lemma switch_to_dense_sort (v : list entry) :
  switch_to_dense (sort (flex_sparse v)) = switch_to_dense (flex_sparse v).
Proof.
  cbn [sort switch_to_dense].
  rewrite (sort_entries_increasing _ (sort_entries_sorted v)). reflexivity.
Qed.

(** *** Lookups on the three representations *)

(** What a lookup gives when the index holds [held] for the id: a dense
    array cannot tell the undefined Location from an absent cell. *)
Lemma dense_get_of_cell (cells : list Location) (id : N)
    (held : option Location) :
  dense_get_noexcept cells id = default undefined_location held ->
  dense_get cells id
  = match held with
    | Some loc =>
      if Location_eqb loc undefined_location then Err (NotFound id)
      else Ok loc
    | None => Err (NotFound id)
    end.
Proof.
  unfold dense_get. intros ->. destruct held as [loc|]; reflexivity.
Qed.

(** *** Lookups after any sequence of [set] calls and [sort] *)

Lemma get_noexcept_sort_populate (k : map_type) (ops : list entry) (j : N) :
  k <> Dummy ->
  get_noexcept (sort (populate (create k) ops)) j
  = default undefined_location (last_set ops j).
Proof.
  intros Hk. destruct k; try contradiction; cbn [create].
  1-3: destruct (populate_dense ops) as (cells & -> & Hget); apply Hget.
  1-2: destruct (populate_sparse_map ops) as (m & -> & Hget);
       cbn [sort get_noexcept]; unfold map_get_noexcept; rewrite Hget;
       reflexivity.
  1-3: rewrite populate_sparse_array; cbn [sort get_noexcept app];
       unfold sparse_get_noexcept; rewrite sparse_find_sort; reflexivity.
  rewrite populate_flex_sparse. cbn [sort get_noexcept app].
  unfold sparse_get_noexcept. rewrite sparse_find_sort. reflexivity.
Qed.

Lemma get_sort_populate (k : map_type) (ops : list entry) (j : N) :
  k <> Dummy ->
  get (sort (populate (create k) ops)) j
  = match last_set ops j with
    | Some loc =>
      if is_dense_array k && Location_eqb loc undefined_location
      then Err (NotFound j)
      else Ok loc
    | None => Err (NotFound j)
    end.
Proof.
  intros Hk. destruct k; try contradiction; cbn [create is_dense_array andb].
  1-3: destruct (populate_dense ops) as (cells & -> & Hget);
       cbn [sort get]; apply dense_get_of_cell, Hget.
  1-2: destruct (populate_sparse_map ops) as (m & -> & Hget);
       cbn [sort get]; unfold map_get; rewrite Hget;
       destruct (last_set ops j); reflexivity.
  1-3: rewrite populate_sparse_array; cbn [sort get app];
       unfold sparse_get; rewrite sparse_find_sort;
       destruct (last_set ops j); reflexivity.
  rewrite populate_flex_sparse. cbn [sort get app].
  unfold sparse_get. rewrite sparse_find_sort.
  destruct (last_set ops j); reflexivity.
Qed.

(** The dummy index discards every write and fails every read. *)
Lemma populate_dummy (ops : list entry) : populate dummy ops = dummy.
Proof.
  induction ops as [|e ops IH] using rev_ind; [reflexivity|].
  rewrite populate_snoc, IH. reflexivity.
Qed.

(** An id that was never set is absent on every back-end. *)
Lemma get_never_set (k : map_type) (ops : list entry) (j : N) :
  last_set ops j = None ->
  get (sort (populate (create k) ops)) j = Err (NotFound j)
  /\ get_noexcept (sort (populate (create k) ops)) j = undefined_location.
Proof.
  intros Hlast.
  assert (k = Dummy \/ k <> Dummy) as [-> | Hk]
    by (destruct k; (left; reflexivity) || (right; discriminate)).
  - cbn [create]. rewrite populate_dummy. split; reflexivity.
  - rewrite get_sort_populate, get_noexcept_sort_populate by exact Hk.
    rewrite Hlast. split; reflexivity.
Qed.

(** [clear] drops every entry: all reads fail afterwards. *)
Lemma get_clear (idx : t) (j : N) :
  get_noexcept (clear idx) j = undefined_location
  /\ get (clear idx) j = Err (NotFound j).
Proof. destruct idx; split; reflexivity. Qed.

(** C1 (as the model has it): take any sequence of [set] calls followed
    by [sort].  On every back-end other than the dummy, [get] of an id that
    was set returns the Location it was last set to -- on a dense array
    provided this is not the undefined Location, which marks the absent
    cells there -- and so does [get_noexcept].  On every back-end, the
    dummy too, [get] of an id that was never set fails with [not_found] and
    [get_noexcept] returns the undefined Location. *)
Theorem index_completeness (k : map_type) (ops : list entry) :
  (forall id loc,
     k <> Dummy ->
     last_set ops id = Some loc ->
     (k = DenseMemArray \/ k = DenseMmapArray \/ k = DenseFileArray ->
      loc <> undefined_location) ->
     get (sort (populate (create k) ops)) id = Ok loc
     /\ get_noexcept (sort (populate (create k) ops)) id = loc)
  /\ (forall j,
        last_set ops j = None ->
        get (sort (populate (create k) ops)) j = Err (NotFound j)
        /\ get_noexcept (sort (populate (create k) ops)) j
           = undefined_location).
Proof.
  split.
  - intros id loc Hk Hlast Hdense.
    rewrite get_sort_populate, get_noexcept_sort_populate by exact Hk.
    rewrite Hlast. split; [|reflexivity].
    destruct (is_dense_array k) eqn:Ek; [|reflexivity].
    assert (loc <> undefined_location) as Hloc
      by (apply Hdense; destruct k; try discriminate; auto).
    apply Location_eqb_neq in Hloc. rewrite Hloc. reflexivity.
  - intros j Hlast. apply get_never_set. exact Hlast.
Qed.

(** The sequence of the test on a sparse array: set(12, loc1),
    set(3, loc2), sort; then id 3 is looked up. *)
Lemma index_completeness_witness :
  get (sort (populate (create SparseMemArray) [(12%N, loc1); (3%N, loc2)])) 3
  = Ok loc2
  /\ get_noexcept (sort (populate (create SparseMemArray)
                                  [(12%N, loc1); (3%N, loc2)])) 3
     = loc2.
Proof.
  apply (proj1 (index_completeness SparseMemArray
                  [(12%N, loc1); (3%N, loc2)]) 3%N loc2).
  - discriminate.
  - reflexivity.
  - intros [H | [H | H]]; discriminate.
Defined.

(** Two ids that were set and are not read back.  The dummy index
    discards every write: after set(12, loc1) and sort, [get(12)] fails.  A
    dense array holds the undefined Location in its absent cells: after
    set(5, undefined) and sort, [get(5)] fails. *)
Lemma index_set_not_read_back :
  (last_set [(12%N, loc1)] 12 = Some loc1
   /\ get (sort (populate (create Dummy) [(12%N, loc1)])) 12
      = Err (NotFound 12)
   /\ get_noexcept (sort (populate (create Dummy) [(12%N, loc1)])) 12
      = undefined_location)
  /\ (last_set [(5%N, undefined_location)] 5 = Some undefined_location
      /\ get (sort (populate (create DenseMemArray)
                             [(5%N, undefined_location)])) 5
         = Err (NotFound 5)).
Proof. repeat split. Qed.

(** On a map or a sparse array an id that was set to the undefined
    Location has an entry, which [get] returns. *)
Example index_sparse_holds_undefined :
  get (sort (populate (create SparseMemMap) [(5%N, undefined_location)])) 5
  = Ok undefined_location
  /\ get (sort (populate (create SparseMemArray)
                         [(5%N, undefined_location)])) 5
     = Ok undefined_location.
Proof. split; reflexivity. Qed.

(** C6 (as the model has it): a flex index filled in sparse mode by any
    sequence of [set] calls and sorted is sparse; after [switch_to_dense]
    it is dense, [get] of an id that was last set to a Location other than
    the undefined one returns that Location, as before the switch,
    [get_noexcept] gives for every id what it gave before the switch, and
    an id that was not set reads as undefined and is not found, as before
    the switch.  [switch_to_dense] sorts by itself: without the call of
    [sort] it leads to the same dense index. *)
Theorem flex_switch_to_dense_preserves (ops : list entry) :
  let idx := sort (populate (create FlexMem) ops) in
  is_dense idx = false
  /\ is_dense (switch_to_dense idx) = true
  /\ (forall id loc,
        last_set ops id = Some loc ->
        loc <> undefined_location ->
        get idx id = Ok loc
        /\ get (switch_to_dense idx) id = get idx id)
  /\ (forall id,
        get_noexcept (switch_to_dense idx) id = get_noexcept idx id)
  /\ (forall j,
        last_set ops j = None ->
        get_noexcept (switch_to_dense idx) j = undefined_location
        /\ get (switch_to_dense idx) j = Err (NotFound j)
        /\ get idx j = Err (NotFound j))
  /\ switch_to_dense (populate (create FlexMem) ops) = switch_to_dense idx.
Proof.
  intros idx. subst idx.
  cbn [create]. rewrite populate_flex_sparse. cbn [app].
  rewrite switch_to_dense_sort.
  destruct (switch_to_dense_cells ops) as (cells & -> & _ & Hcells).
  cbn [sort is_dense get get_noexcept].
  split; [reflexivity|]. split; [reflexivity|].
  split; [|split; [|split]].
  - intros id loc Hlast Hloc.
    unfold sparse_get. rewrite sparse_find_sort, Hlast.
    split; [reflexivity|].
    rewrite (dense_get_of_cell cells id (Some loc))
      by (rewrite Hcells, Hlast; reflexivity).
    apply Location_eqb_neq in Hloc. rewrite Hloc. reflexivity.
  - intros id. unfold sparse_get_noexcept.
    rewrite Hcells, sparse_find_sort. reflexivity.
  - intros j Hlast. split; [|split].
    + rewrite Hcells, Hlast. reflexivity.
    + rewrite (dense_get_of_cell cells j None)
        by (rewrite Hcells, Hlast; reflexivity).
      reflexivity.
    + unfold sparse_get. rewrite sparse_find_sort, Hlast. reflexivity.
  - reflexivity.
Qed.

(** The sequence of the test: set(17, loc1), set(99, loc2), sort, and the
    switch; id 99 is looked up. *)
Lemma flex_switch_to_dense_preserves_witness :
  get (sort (populate (create FlexMem) [(17%N, loc1); (99%N, loc2)])) 99
  = Ok loc2
  /\ get (switch_to_dense
            (sort (populate (create FlexMem) [(17%N, loc1); (99%N, loc2)])))
         99
     = get (sort (populate (create FlexMem) [(17%N, loc1); (99%N, loc2)])) 99.
Proof.
  apply (proj1 (proj2 (proj2 (flex_switch_to_dense_preserves
                                [(17%N, loc1); (99%N, loc2)]))) 99%N loc2).
  - reflexivity.
  - discriminate.
Defined.

(** Two lookups that the switch changes.  Without [sort], after
    set(12, loc1) and set(3, loc2), the search of the sparse array misses
    id 3, and after the switch, which sorts, [get(3)] returns loc2.  And an
    id set to the undefined Location has an entry in the sorted sparse
    array, which [get] returns, and an absent cell in the dense array, where
    [get] fails. *)
Lemma flex_switch_changes_lookups :
  (get (populate (create FlexMem) [(12%N, loc1); (3%N, loc2)]) 3
   = Err (NotFound 3)
   /\ get (switch_to_dense
             (populate (create FlexMem) [(12%N, loc1); (3%N, loc2)])) 3
      = Ok loc2)
  /\ (get (sort (populate (create FlexMem) [(5%N, undefined_location)])) 5
      = Ok undefined_location
      /\ get (switch_to_dense
                (sort (populate (create FlexMem)
                                [(5%N, undefined_location)]))) 5
         = Err (NotFound 5)).
Proof. repeat split. Qed.

(** A flex index whose entries were set in increasing order of id needs
    no [sort]: [get_noexcept] gives after the switch what it gave before. *)
Lemma flex_switch_increasing (ops : list entry) (id : N) :
  StronglySorted id_lt ops ->
  get_noexcept (switch_to_dense (populate (create FlexMem) ops)) id
  = get_noexcept (populate (create FlexMem) ops) id.
Proof.
  intros Hinc.
  assert (sort (populate (create FlexMem) ops) = populate (create FlexMem) ops)
    as Hid.
  { cbn [create]. rewrite populate_flex_sparse. cbn [sort app].
    rewrite sort_entries_increasing by exact Hinc. reflexivity. }
  rewrite <- Hid at 2.
  cbn [create]. rewrite populate_flex_sparse. cbn [app].
  destruct (switch_to_dense_cells ops) as (cells & -> & _ & Hcells).
  cbn [sort get_noexcept]. unfold sparse_get_noexcept.
  rewrite Hcells, sparse_find_sort. reflexivity.
Qed.

End IndexProofs.

(* ===================================================================== *)
(** * Further properties                                                 *)
(* ===================================================================== *)

(** ** Segments: order and range tests *)

(** Comparisons on [Z] in a goal or a hypothesis, decided one by one. *)
Lemma Location_ltb_iff (a b : Location) :
  Location_ltb a b = true
  <-> loc_x a < loc_x b \/ (loc_x a = loc_x b /\ loc_y a < loc_y b).
Proof.
  unfold Location_ltb.
  rewrite orb_true_iff, andb_true_iff, !Z.ltb_lt, Z.eqb_eq. tauto.
Qed.

Lemma Location_ltb_false_iff (a b : Location) :
  Location_ltb a b = false
  <-> loc_x b < loc_x a \/ (loc_x a = loc_x b /\ loc_y b <= loc_y a).
Proof.
  pose proof (Location_ltb_iff a b) as H.
  destruct (Location_ltb a b).
  - split; [discriminate|]. intros H'. assert (true = true) as E by reflexivity.
    apply H in E. lia.
  - split; [|reflexivity]. intros _.
    assert (~ (loc_x a < loc_x b \/ loc_x a = loc_x b /\ loc_y a < loc_y b))
      by (rewrite <- H; discriminate). lia.
Qed.

Lemma NodeRefSegment_ltb_lex (a b : NodeRefSegment) :
  NodeRefSegment_ltb a b = true
  <-> loc_x (location (first a)) < loc_x (location (first b))
      \/ (loc_x (location (first a)) = loc_x (location (first b))
          /\ (loc_y (location (first a)) < loc_y (location (first b))
              \/ (loc_y (location (first a)) = loc_y (location (first b))
                  /\ (loc_x (location (second a)) < loc_x (location (second b))
                      \/ (loc_x (location (second a)) = loc_x (location (second b))
                          /\ loc_y (location (second a))
                             < loc_y (location (second b))))))).
Proof.
  unfold NodeRefSegment_ltb, Location_ltb, Location_eqb.
  rewrite !orb_true_iff, !andb_true_iff, !orb_true_iff, !andb_true_iff.
  rewrite !Z.ltb_lt, !Z.eqb_eq. lia.
Qed.

Lemma NodeRefSegment_eqb_lex (a b : NodeRefSegment) :
  NodeRefSegment_eqb a b = true
  <-> loc_x (location (first a)) = loc_x (location (first b))
      /\ loc_y (location (first a)) = loc_y (location (first b))
      /\ loc_x (location (second a)) = loc_x (location (second b))
      /\ loc_y (location (second a)) = loc_y (location (second b)).
Proof.
  unfold NodeRefSegment_eqb, Location_eqb.
  rewrite !andb_true_iff, !Z.eqb_eq. tauto.
Qed.

Ltac reflect_compare :=
  repeat match goal with
         | H : true = true <-> ?P |- _ =>
           assert P by (apply H; reflexivity); clear H
         | H : false = true <-> ?P |- _ =>
           assert (~ P) by (rewrite <- H; discriminate); clear H
         end.

(** [operator<] is a strict order on segments, and of two segments either
    one is smaller than the other or they are equal by [operator==], never
    two of the three. *)
Theorem NodeRefSegment_ltb_strict_total :
  (forall s, NodeRefSegment_ltb s s = false)
  /\ (forall a b c,
        NodeRefSegment_ltb a b = true -> NodeRefSegment_ltb b c = true ->
        NodeRefSegment_ltb a c = true)
  /\ (forall a b,
        (NodeRefSegment_ltb a b = true /\ NodeRefSegment_eqb a b = false
         /\ NodeRefSegment_ltb b a = false)
        \/ (NodeRefSegment_ltb a b = false /\ NodeRefSegment_eqb a b = true
            /\ NodeRefSegment_ltb b a = false)
        \/ (NodeRefSegment_ltb a b = false /\ NodeRefSegment_eqb a b = false
            /\ NodeRefSegment_ltb b a = true)).
Proof.
  split; [|split].
  - intros s. pose proof (NodeRefSegment_ltb_lex s s) as H.
    destruct (NodeRefSegment_ltb s s); [|reflexivity].
    reflect_compare. lia.
  - intros a b c Hab Hbc.
    apply NodeRefSegment_ltb_lex in Hab. apply NodeRefSegment_ltb_lex in Hbc.
    apply NodeRefSegment_ltb_lex. lia.
  - intros a b.
    pose proof (NodeRefSegment_ltb_lex a b) as H1.
    pose proof (NodeRefSegment_ltb_lex b a) as H2.
    pose proof (NodeRefSegment_eqb_lex a b) as H3.
    destruct (NodeRefSegment_ltb a b), (NodeRefSegment_eqb a b),
      (NodeRefSegment_ltb b a); reflect_compare;
      first [ left; repeat split; reflexivity
            | right; left; repeat split; reflexivity
            | right; right; repeat split; reflexivity
            | exfalso; lia ].
Qed.

(** [outside_x_range] goes along with [operator<]: once a segment is
    outside the x range of the segment at hand, every larger segment is
    outside it too. *)
Theorem outside_x_range_later (s1 s2 s3 : NodeRefSegment) :
  outside_x_range s2 s1 = true ->
  NodeRefSegment_ltb s2 s3 = true ->
  outside_x_range s3 s1 = true.
Proof.
  unfold outside_x_range. intros H12 H23.
  apply NodeRefSegment_ltb_lex in H23. rewrite Z.gtb_ltb in *.
  destruct (Z.ltb_spec (loc_x (location (second s1))) (loc_x (location (first s2))));
    [|discriminate].
  destruct (Z.ltb_spec (loc_x (location (second s1))) (loc_x (location (first s3))));
    [reflexivity | lia].
Qed.

Lemma outside_x_range_later_witness :
  outside_x_range
    (mkSegment (mkNodeRef 5 (mkLocation 9 0)) (mkNodeRef 6 (mkLocation 9 9)) None None)
    (mkSegment (mkNodeRef 1 (mkLocation 0 0)) (mkNodeRef 2 (mkLocation 3 3)) None None)
  = true.
Proof.
  apply (outside_x_range_later
           (mkSegment (mkNodeRef 1 (mkLocation 0 0)) (mkNodeRef 2 (mkLocation 3 3)) None None)
           (mkSegment (mkNodeRef 3 (mkLocation 4 7)) (mkNodeRef 4 (mkLocation 8 1)) None None));
    reflexivity.
Defined.

(** For constructed segments, a segment outside the x range of another
    lies entirely to its right: its smallest x is beyond the largest x of
    the other, so the two have no point in common. *)
Theorem outside_x_range_separates (a1 a2 b1 b2 : NodeRef)
    (ra rb : option string) (wa wb : option Z) :
  outside_x_range (NodeRefSegment_new b1 b2 rb wb)
                  (NodeRefSegment_new a1 a2 ra wa) = true ->
  Z.max (loc_x (location a1)) (loc_x (location a2))
  < Z.min (loc_x (location b1)) (loc_x (location b2)).
Proof.
  unfold outside_x_range, NodeRefSegment_new. intros H.
  rewrite Z.gtb_ltb in H.
  destruct (Location_ltb (location b2) (location b1)) eqn:Eb;
    destruct (Location_ltb (location a2) (location a1)) eqn:Ea;
    cbn in H;
    match type of H with
    | (if ?x <? ?y then _ else _) = _ =>
      destruct (Z.ltb_spec x y); [|discriminate]
    end;
    rewrite ?Location_ltb_iff, ?Location_ltb_false_iff in *; lia.
Qed.

Lemma outside_x_range_separates_witness :
  Z.max 0 3 < Z.min 9 4.
Proof.
  apply (outside_x_range_separates
           (mkNodeRef 1 (mkLocation 0 0)) (mkNodeRef 2 (mkLocation 3 3))
           (mkNodeRef 3 (mkLocation 9 0)) (mkNodeRef 4 (mkLocation 4 7))
           None None None None).
  reflexivity.
Defined.


(** *** More on [to_left_of] *)

Lemma to_left_of_locations (t : temporaries) (s s' : NodeRefSegment)
    (p : Location) :
  location (first s) = location (first s') ->
  location (second s) = location (second s') ->
  to_left_of t s p = to_left_of t s' p.
Proof. unfold to_left_of. intros -> ->. reflexivity. Qed.

Lemma Location_ltb_total (a b : Location) :
  Location_ltb a b = false -> Location_ltb b a = false -> a = b.
Proof.
  rewrite !Location_ltb_false_iff.
  destruct a as [ax ay], b as [bx by_]. cbn.
  intros H1 H2. f_equal; lia.
Qed.

(** The answer of [to_left_of] depends on the two endpoint locations and
    on what the reads through [mm] find, and on nothing else: not on the
    order in which the endpoints were given to the constructor, and not on
    ids, role or way. *)
Theorem to_left_of_unordered (t : temporaries) (l1 l2 : Location)
    (id1 id2 id1' id2' : Z) (role role' : option string)
    (way way' : option Z) (p : Location) :
  to_left_of t
    (NodeRefSegment_new (mkNodeRef id1 l1) (mkNodeRef id2 l2) role way) p
  = to_left_of t
      (NodeRefSegment_new (mkNodeRef id2' l2) (mkNodeRef id1' l1) role' way') p.
Proof.
  unfold NodeRefSegment_new. cbn [location].
  destruct (Location_ltb l2 l1) eqn:E21; destruct (Location_ltb l1 l2) eqn:E12;
    try (apply to_left_of_locations; reflexivity).
  - exfalso. apply Location_ltb_iff in E21, E12. lia.
  - pose proof (Location_ltb_total l1 l2 E12 E21) as ->.
    apply to_left_of_locations; reflexivity.
Qed.

(** A cross product that is not positive, at a height between the two
    endpoints, puts the point at or right of the smaller x. *)
Lemma cross_le_min (ax ay bx by_ px py : Z) :
  ay < py <= by_ ->
  (bx - ax) * (py - ay) - (by_ - ay) * (px - ax) <= 0 ->
  Z.min ax bx <= px.
Proof.
  intros Hy Hc.
  destruct (Z_lt_le_dec px (Z.min ax bx)) as [Hlt | Hge]; [exfalso | exact Hge].
  assert (0 < py - ay <= by_ - ay) as Ht by lia.
  destruct (Z_lt_le_dec bx ax).
  - assert ((bx - ax) * (py - ay) >= (bx - ax) * (by_ - ay)) by nia.
    assert ((by_ - ay) * (px - ax) < (by_ - ay) * (bx - ax)) by nia. nia.
  - assert (0 <= (bx - ax) * (py - ay)) by nia.
    assert ((by_ - ay) * (px - ax) < 0) by nia. lia.
Qed.

(** For a constructed segment and coordinates of the globe, read while
    the two objects behind [mm] hold what they were given, [to_left_of] has
    an answer, and it says whether the ray going left from p crosses the
    segment: p is not the upper endpoint, its y is above the lower endpoint
    a and not above the upper endpoint b, and the point of the segment at
    the height of p is at p or left of it.  The test on the x coordinate of
    the first endpoint never changes the answer. *)
Theorem to_left_of_crossing (nr1 nr2 : NodeRef) (role : option string)
    (way : option Z) (p : Location) :
  valid_coordinates (location nr1) -> valid_coordinates (location nr2) ->
  valid_coordinates p ->
  let s := NodeRefSegment_new nr1 nr2 role way in
  let a := fst (ordered_by_y (location (first s)) (location (second s))) in
  let b := snd (ordered_by_y (location (first s)) (location (second s))) in
  exists r,
    to_left_of (live s) s p = Some r
    /\ (r = true
        <-> p <> b
            /\ loc_y a < loc_y p <= loc_y b
            /\ loc_x a * (loc_y b - loc_y p) + loc_x b * (loc_y p - loc_y a)
               <= loc_x p * (loc_y b - loc_y a)).
Proof.
  intros H1 H2 Hp s a b.
  destruct (to_left_of_exact nr1 nr2 role way p H1 H2 Hp) as (r & Hr & Hex).
  fold s in Hr, Hex. fold a b in Hex.
  exists r. split; [exact Hr|]. rewrite Hex. clear Hex.
  destruct (ordered_by_y_spec (location (first s)) (location (second s)))
    as [_ Hab]. fold a b in Hab.
  assert (cross a b p
          = loc_x a * (loc_y b - loc_y p) + loc_x b * (loc_y p - loc_y a)
            - loc_x p * (loc_y b - loc_y a)) as Hcross
    by (unfold cross; lia).
  split.
  - intros (Hf & Hg & Hy & Hx & Hc).
    split; [destruct Hab as [[Ea Eb] | [Ea Eb]]; congruence|].
    split; [exact Hy | lia].
  - intros (Hb & Hy & Hc).
    assert (p <> a) as Ha by (intros ->; lia).
    assert (cross a b p <= 0) as Hc' by lia.
    split; [destruct Hab as [[Ea Eb] | [Ea Eb]]; congruence|].
    split; [destruct Hab as [[Ea Eb] | [Ea Eb]]; congruence|].
    split; [exact Hy|]. split; [|exact Hc'].
    apply (cross_le_min _ (loc_y a) _ (loc_y b) _ (loc_y p)); [exact Hy|].
    exact Hc'.
Qed.

Lemma to_left_of_crossing_witness :
  exists r,
    to_left_of (live example_descending) example_descending (mkLocation 5 6)
    = Some r
    /\ (r = true
        <-> mkLocation 5 6 <> mkLocation 0 10
            /\ 0 < 6 <= 10
            /\ 10 * (10 - 6) + 0 * (6 - 0) <= 5 * (10 - 0)).
Proof.
  apply (to_left_of_crossing (mkNodeRef 1 (mkLocation 0 10))
           (mkNodeRef 2 (mkLocation 10 0)) None None (mkLocation 5 6));
    unfold valid_coordinates; cbn; lia.
Defined.

(** A point at the height of an endpoint, under the same conditions: the
    lower endpoint of a segment does not belong to it, the upper endpoint
    does, and a horizontal segment is never met. *)
Theorem to_left_of_endpoint_height (nr1 nr2 : NodeRef) (role : option string)
    (way : option Z) (p : Location) :
  valid_coordinates (location nr1) -> valid_coordinates (location nr2) ->
  valid_coordinates p ->
  let s := NodeRefSegment_new nr1 nr2 role way in
  let a := fst (ordered_by_y (location (first s)) (location (second s))) in
  let b := snd (ordered_by_y (location (first s)) (location (second s))) in
  (loc_y p = loc_y a -> to_left_of (live s) s p = Some false)
  /\ (loc_y a = loc_y b -> to_left_of (live s) s p = Some false)
  /\ (loc_y a < loc_y b -> loc_y p = loc_y b ->
      (to_left_of (live s) s p = Some true <-> loc_x b < loc_x p)).
Proof.
  intros H1 H2 Hp s a b.
  destruct (to_left_of_exact nr1 nr2 role way p H1 H2 Hp) as (r & Hr & Hex).
  fold s in Hr, Hex. fold a b in Hex. rewrite Hr.
  destruct (ordered_by_y_spec (location (first s)) (location (second s)))
    as [_ Hab]. fold a b in Hab.
  split; [|split].
  - intros Hy. f_equal. apply not_true_is_false. intros E.
    apply Hex in E. lia.
  - intros Hy. f_equal. apply not_true_is_false. intros E.
    apply Hex in E. lia.
  - intros Hlt Hy.
    assert (Some r = Some true <-> r = true) as ->
      by (split; [intros E; injection E as ->; reflexivity | intros ->; reflexivity]).
    rewrite Hex. unfold cross. rewrite Hy. split.
    + intros (Hf & Hg & _ & _ & Hc).
      assert (p <> b) as Hb
        by (destruct Hab as [[Ea Eb] | [Ea Eb]]; congruence).
      assert (loc_x b <= loc_x p) by nia.
      assert (loc_x b <> loc_x p); [|lia].
      intros Hx. apply Hb. clear - Hx Hy. destruct p, b. cbn in *. congruence.
    + intros Hx.
      assert (p <> a) as Ha by (intros ->; lia).
      assert (p <> b) as Hb by (intros ->; lia).
      split; [destruct Hab as [[Ea Eb] | [Ea Eb]]; congruence|].
      split; [destruct Hab as [[Ea Eb] | [Ea Eb]]; congruence|].
      split; [lia|]. split; [lia | nia].
Qed.

Lemma to_left_of_endpoint_height_witness :
  to_left_of
    (live (NodeRefSegment_new (mkNodeRef 1 (mkLocation 0 0))
                              (mkNodeRef 2 (mkLocation 4 5)) None None))
    (NodeRefSegment_new (mkNodeRef 1 (mkLocation 0 0))
                        (mkNodeRef 2 (mkLocation 4 5)) None None)
    (mkLocation 7 5)
  = Some true <-> 4 < 7.
Proof.
  refine (proj2 (proj2 (to_left_of_endpoint_height (mkNodeRef 1 (mkLocation 0 0))
           (mkNodeRef 2 (mkLocation 4 5)) None None (mkLocation 7 5) _ _ _))
           _ _);
    unfold valid_coordinates; cbn; lia.
Defined.

(* ===================================================================== *)
(** ** OPL: what the scalar parsers accept, and only that                *)
(* ===================================================================== *)

Lemma peek_cons (s : list ascii) (c : ascii) :
  peek s = c -> c <> NUL -> s = c :: tail s.
Proof. destruct s as [|d s]; cbn; [congruence | intros ->; reflexivity]. Qed.

Lemma ascii_eqb_true (a b : ascii) : Ascii.eqb a b = true -> a = b.
Proof. apply Ascii.eqb_eq. Qed.

Lemma opl_parse_escaped_loop_sound (n : nat) :
  forall s value result s' result',
    opl_parse_escaped_loop n s value result = Ok (s', result') ->
    exists ds bytes,
      s = ds ++ "%"%char :: s' /\ Forall is_hex ds /\ (length ds < n)%nat
      /\ utf32to8 (fold_left hex_step ds value) = Ok bytes
      /\ result' = result ++ bytes.
Proof.
  induction n as [|n IH]; intros s value result s' result' H; cbn in H;
    [discriminate|].
  destruct (Ascii.eqb (peek s) NUL) eqn:E0; [discriminate|].
  destruct (Ascii.eqb (peek s) "%") eqn:Ep.
  - apply ascii_eqb_true in Ep.
    destruct (utf32to8 value) as [bytes|e] eqn:Eu; cbn in H; [|discriminate].
    injection H as <- <-. exists [], bytes. cbn.
    split; [apply peek_cons; [exact Ep | discriminate]|].
    repeat split; [constructor | lia | exact Eu].
  - destruct (hex_digit (peek s)) as [d|] eqn:Ed; [|discriminate].
    apply IH in H as (ds & bytes & Hs & Hds & Hlen & Hu & Hr).
    assert (peek s <> NUL) as Hnul
      by (intros E; rewrite E in E0; discriminate).
    exists (peek s :: ds), bytes. cbn [app length fold_left].
    split; [rewrite <- Hs; apply peek_cons; [reflexivity | exact Hnul]|].
    split; [constructor; [unfold is_hex; rewrite Ed; eauto | exact Hds]|].
    split; [lia|]. split; [|exact Hr].
    unfold hex_step at 2. rewrite Ed. exact Hu.
Qed.

Lemma opl_parse_escaped_sound (s result s' result' : list ascii) :
  opl_parse_escaped s result = Ok (s', result') ->
  exists ds bytes,
    s = ds ++ "%"%char :: s' /\ Forall is_hex ds /\ (length ds <= 7)%nat
    /\ utf32to8 (hex_value ds) = Ok bytes
    /\ result' = result ++ bytes.
Proof.
  intros H. unfold opl_parse_escaped, max_length in H.
  apply opl_parse_escaped_loop_sound in H
    as (ds & bytes & Hs & Hds & Hlen & Hu & Hr).
  exists ds, bytes. rewrite hex_value_fold in Hu by (assumption || lia).
  repeat split; try assumption. lia.
Qed.

(** [opl_parse_escaped] succeeds on exactly the escapes of at most seven
    hexadecimal digits closed by '%' that denote a Unicode scalar value,
    and appends the UTF-8 form of that value; the data pointer ends behind
    the '%'.  The digits may be missing altogether: the escape then denotes
    the code point 0. *)
Theorem opl_parse_escaped_spec (s result s' result' : list ascii) :
  opl_parse_escaped s result = Ok (s', result')
  <-> exists ds bytes,
        s = ds ++ "%"%char :: s' /\ Forall is_hex ds /\ (length ds <= 7)%nat
        /\ utf32to8 (hex_value ds) = Ok bytes
        /\ result' = result ++ bytes.
Proof.
  split.
  - apply opl_parse_escaped_sound.
  - intros (ds & bytes & -> & Hds & Hlen & Hu & ->).
    rewrite opl_parse_escaped_accepts by assumption.
    rewrite Hu. reflexivity.
Qed.

Lemma opl_parse_string_plain_step (c : ascii) (s result : list ascii) :
  is_plain c = true ->
  opl_parse_string (c :: s) result = opl_parse_string s (result ++ [c]).
Proof.
  unfold is_plain, opl_parse_string. rewrite andb_true_iff, !negb_true_iff.
  intros [He Hp]. cbn -[opl_parse_escaped]. rewrite He, Hp. reflexivity.
Qed.

Lemma opl_parse_string_at_end (s result : list ascii) :
  is_string_end (peek s) = true ->
  opl_parse_string s result = Some (Ok (s, result)).
Proof.
  unfold opl_parse_string. cbn -[opl_parse_escaped]. intros ->. reflexivity.
Qed.

Lemma opl_parse_string_encoded (e w : list ascii) :
  opl_encoded e w ->
  forall rest result,
    is_string_end (peek rest) = true ->
    opl_parse_string (e ++ rest) result = Some (Ok (rest, result ++ w)).
Proof.
  induction 1 as [|c e w Hc He IH|ds bytes e w Hds Hlen Hu He IH];
    intros rest result Hrest.
  - cbn. rewrite app_nil_r. apply opl_parse_string_at_end. exact Hrest.
  - cbn [app]. rewrite opl_parse_string_plain_step by exact Hc.
    rewrite IH by exact Hrest. rewrite <- app_assoc. reflexivity.
  - cbn [app]. rewrite <- app_assoc. cbn [app].
    rewrite (opl_parse_string_escape ds (e ++ rest) result bytes Hds Hlen Hu).
    rewrite IH by exact Hrest. rewrite <- app_assoc. reflexivity.
Qed.

Lemma opl_parse_string_loop_sound (fuel : nat) :
  forall s result s' result',
    opl_parse_string_loop fuel s result = Some (Ok (s', result')) ->
    exists e w,
      s = e ++ s' /\ opl_encoded e w /\ result' = result ++ w
      /\ is_string_end (peek s') = true.
Proof.
  induction fuel as [|fuel IH]; intros s result s' result' H;
    cbn -[opl_parse_escaped] in H; [discriminate|].
  destruct (is_string_end (peek s)) eqn:Eend.
  - injection H as <- <-. exists [], []. rewrite app_nil_r.
    repeat split; [constructor | exact Eend].
  - destruct (Ascii.eqb (peek s) "%") eqn:Ep.
    + destruct (opl_parse_escaped (tail s) result) as [[s1 r1]|err] eqn:Eesc;
        [|discriminate].
      apply opl_parse_escaped_sound in Eesc
        as (ds & bytes & Hs & Hds & Hlen & Hu & ->).
      apply IH in H as (e & w & He & Henc & Hw & Hend).
      exists ("%"%char :: ds ++ "%"%char :: e), (bytes ++ w).
      split; [|split; [|split]].
      * apply ascii_eqb_true in Ep.
        rewrite (peek_cons s "%" Ep ltac:(discriminate)), Hs, He.
        cbn. rewrite <- app_assoc. reflexivity.
      * constructor; assumption.
      * rewrite Hw, app_assoc. reflexivity.
      * exact Hend.
    + assert (peek s <> NUL) as Hnul
        by (intros E; rewrite E in Eend; discriminate).
      apply IH in H as (e & w & He & Henc & Hw & Hend).
      exists (peek s :: e), (peek s :: w). split; [|split; [|split]].
      * cbn. rewrite <- He. apply peek_cons; [reflexivity | exact Hnul].
      * constructor; [|exact Henc]. unfold is_plain. rewrite Eend, Ep.
        reflexivity.
      * rewrite Hw, <- app_assoc. reflexivity.
      * exact Hend.
Qed.

Lemma opl_parse_string_sound (data result s' result' : list ascii) :
  opl_parse_string data result = Some (Ok (s', result')) ->
  exists e w,
    data = e ++ s' /\ opl_encoded e w /\ result' = result ++ w
    /\ is_string_end (peek s') = true.
Proof. apply opl_parse_string_loop_sound. Qed.

(** [opl_parse_string] succeeds on exactly the data that starts with an
    encoded string followed by one of the characters that end a string
    (NUL, space, tab, ',' or '='): it appends what the string stands for to
    the result, whatever that held, and leaves the data pointer at the
    character that ends the string. *)
Theorem opl_parse_string_spec (data result s' result' : list ascii) :
  opl_parse_string data result = Some (Ok (s', result'))
  <-> exists e w,
        data = e ++ s' /\ opl_encoded e w /\ result' = result ++ w
        /\ is_string_end (peek s') = true.
Proof.
  split.
  - apply opl_parse_string_sound.
  - intros (e & w & -> & Henc & -> & Hend).
    apply opl_parse_string_encoded; assumption.
Qed.

(** Text without '%' and without a character that ends a string stands
    for itself. *)
Lemma opl_encoded_plain (w : list ascii) :
  Forall (fun c => is_plain c = true) w -> opl_encoded w w.
Proof. induction 1; constructor; assumption. Qed.

(** An error of [opl_parse_string] comes from an escape: it is the error
    of [opl_parse_escaped] on the data behind a '%' that follows a
    correctly encoded part. *)
Theorem opl_parse_string_error (data result : list ascii) (err : opl_exception) :
  opl_parse_string data result = Some (Err err) ->
  exists e w rest,
    data = e ++ "%"%char :: rest /\ opl_encoded e w
    /\ opl_parse_escaped rest (result ++ w) = Err err.
Proof.
  unfold opl_parse_string. generalize (S (length data)) as fuel.
  intros fuel. revert data result.
  induction fuel as [|fuel IH]; intros s result H;
    cbn -[opl_parse_escaped] in H; [discriminate|].
  destruct (is_string_end (peek s)) eqn:Eend; [discriminate|].
  destruct (Ascii.eqb (peek s) "%") eqn:Ep.
  - apply ascii_eqb_true in Ep.
    destruct (opl_parse_escaped (tail s) result) as [[s1 r1]|err'] eqn:Eesc.
    + apply opl_parse_escaped_sound in Eesc
        as (ds & bytes & Hs & Hds & Hlen & Hu & ->).
      apply IH in H as (e & w & rest & He & Henc & Herr).
      exists ("%"%char :: ds ++ "%"%char :: e), (bytes ++ w), rest.
      split; [|split].
      * rewrite (peek_cons s "%" Ep ltac:(discriminate)), Hs, He.
        cbn. rewrite <- app_assoc. reflexivity.
      * constructor; assumption.
      * rewrite app_assoc. exact Herr.
    + injection H as <-. exists [], [], (tail s). rewrite app_nil_r.
      split; [apply peek_cons; [exact Ep | discriminate]|].
      split; [constructor | exact Eesc].
  - assert (peek s <> NUL) as Hnul
      by (intros E; rewrite E in Eend; discriminate).
    apply IH in H as (e & w & rest & He & Henc & Herr).
    exists (peek s :: e), (peek s :: w), rest. split; [|split].
    + cbn. rewrite <- He. apply peek_cons; [reflexivity | exact Hnul].
    + constructor; [|exact Henc]. unfold is_plain. rewrite Eend, Ep.
      reflexivity.
    + rewrite <- app_assoc in Herr. exact Herr.
Qed.

Lemma opl_parse_string_error_witness :
  exists e w rest,
    chars "a%zz%,b" = e ++ "%"%char :: rest /\ opl_encoded e w
    /\ opl_parse_escaped rest (chars "" ++ w)
       = Err (opl_error "not a hex char" (chars "zz%,b")).
Proof.
  apply (opl_parse_string_error (chars "a%zz%,b") (chars "")).
  reflexivity.
Defined.

(** *** Integers *)

Lemma opl_parse_int_digits_sound (s : list ascii) :
  forall n value n' value' s',
    opl_parse_int_digits s n value = Ok (n', value', s') ->
    exists ds,
      s = ds ++ s' /\ Forall (fun c => is_digit c = true) ds
      /\ is_digit (peek s') = false
      /\ n' = n - Z.of_nat (length ds)
      /\ value' = fold_left dec_step ds value
      /\ (n > 0 -> Z.of_nat (length ds) < n).
Proof.
  induction s as [|c s IH]; intros n value n' value' s' H; cbn in H.
  - injection H as <- <- <-. exists []. cbn.
    repeat split; try constructor; lia.
  - destruct (is_digit c) eqn:Ec.
    + destruct (Z.eqb_spec (n - 1) 0) as [E0 | E0]; [discriminate|].
      apply IH in H as (ds & Hs & Hds & Hend & Hn & Hv & Hlen).
      exists (c :: ds). cbn [app length fold_left].
      split; [rewrite Hs; reflexivity|].
      split; [constructor; assumption|].
      split; [exact Hend|]. split; [lia|]. split; [exact Hv | lia].
    + injection H as <- <- <-. exists []. cbn.
      repeat split; try constructor; try assumption; lia.
Qed.

Lemma opl_parse_int_sound (T : IntType) (s : list ascii) (v : Z)
    (s' : list ascii) :
  opl_parse_int T s = Ok (v, s') ->
  exists ds,
    Forall (fun c => is_digit c = true) ds
    /\ (1 <= length ds <= 15)%nat
    /\ is_digit (peek s') = false
    /\ ((s = ds ++ s' /\ v = dec_value ds /\ v <= T_max T)
        \/ (s = "-"%char :: ds ++ s' /\ v = - dec_value ds
            /\ T_min T <= v)).
Proof.
  intros H. unfold opl_parse_int in H.
  destruct (Ascii.eqb (peek s) NUL) eqn:E0; [discriminate|].
  destruct (Ascii.eqb (peek s) "-") eqn:Em.
  - apply ascii_eqb_true in Em.
    apply peek_cons in Em; [|discriminate].
    destruct (opl_parse_int_digits (tail s) max_int_len 0)
      as [[[n value] s1]|e] eqn:Ed; [|discriminate].
    unfold mbind, Result_bind in H. cbn beta iota in H.
    apply opl_parse_int_digits_sound in Ed
      as (ds & Hs & Hds & Hend & Hn & Hv & Hlen).
    unfold max_int_len in *.
    destruct (Z.eqb_spec n 16) as [E16 | E16]; [discriminate|].
    assert (1 <= length ds <= 15)%nat as Hl by lia.
    destruct (dec_value_fold ds Hds ltac:(lia)) as [Hfold Hrange].
    rewrite Hfold in Hv. subst value.
    rewrite wrap64_small in H
      by (unfold in_int64, INT64_MIN, INT64_MAX; lia).
    destruct (Z.ltb_spec (- dec_value ds) (T_min T)); [discriminate|].
    injection H as <- <-. exists ds.
    split; [exact Hds|]. split; [exact Hl|]. split; [exact Hend|].
    right. rewrite Em at 1. rewrite Hs. repeat split. lia.
  - destruct (opl_parse_int_digits s max_int_len 0)
      as [[[n value] s1]|e] eqn:Ed; [|discriminate].
    unfold mbind, Result_bind in H. cbn beta iota in H.
    apply opl_parse_int_digits_sound in Ed
      as (ds & Hs & Hds & Hend & Hn & Hv & Hlen).
    unfold max_int_len in *.
    destruct (Z.eqb_spec n 16) as [E16 | E16]; [discriminate|].
    assert (1 <= length ds <= 15)%nat as Hl by lia.
    destruct (dec_value_fold ds Hds ltac:(lia)) as [Hfold Hrange].
    rewrite Hfold in Hv. subst value.
    rewrite Z.gtb_ltb in H.
    destruct (Z.ltb_spec (T_max T) (dec_value ds)); [discriminate|].
    injection H as <- <-. exists ds.
    split; [exact Hds|]. split; [exact Hl|]. split; [exact Hend|].
    left. repeat split; [exact Hs | lia].
Qed.

(** [opl_parse_int] returns a value in exactly two cases: the data starts
    with one to fifteen decimal digits, or with '-' and one to fifteen
    digits, followed by something that is no digit, and the number written
    is within the limits of the integer type.  The value is that number
    and the data pointer ends behind the last digit.  A minus sign before
    zeros is accepted for the unsigned types as well. *)
Theorem opl_parse_int_spec (T : IntType) (s : list ascii) (v : Z)
    (s' : list ascii) :
  opl_parse_int T s = Ok (v, s')
  <-> exists ds,
        Forall (fun c => is_digit c = true) ds
        /\ (1 <= length ds <= 15)%nat
        /\ is_digit (peek s') = false
        /\ ((s = ds ++ s' /\ v = dec_value ds /\ v <= T_max T)
            \/ (s = "-"%char :: ds ++ s' /\ v = - dec_value ds
                /\ T_min T <= v)).
Proof.
  split.
  - apply opl_parse_int_sound.
  - intros (ds & Hds & Hl & Hend & [(-> & -> & Hmax) | (-> & -> & Hmin)]).
    + apply opl_parse_int_accepts; assumption.
    + apply opl_parse_int_accepts_negative; assumption.
Qed.

(* ===================================================================== *)
(** ** OPL: tag sections                                                 *)
(* ===================================================================== *)

Lemma opl_parse_int_text (T : IntType) (txt : list ascii) (v : Z)
    (rest : list ascii) :
  int_text T txt v -> is_digit (peek rest) = false ->
  opl_parse_int T (txt ++ rest) = Ok (v, rest).
Proof.
  intros (ds & Hds & Hl & [(-> & -> & Hmax) | (-> & -> & Hmin)]) Hrest.
  - apply opl_parse_int_accepts; assumption.
  - apply opl_parse_int_accepts_negative; assumption.
Qed.

Lemma opl_parse_int_ok (T : IntType) (s : list ascii) (v : Z)
    (s' : list ascii) :
  opl_parse_int T s = Ok (v, s') ->
  exists txt, s = txt ++ s' /\ int_text T txt v /\ is_digit (peek s') = false.
Proof.
  intros H. apply opl_parse_int_sound in H
    as (ds & Hds & Hl & Hend & [(Hs & Hv & Hmax) | (Hs & Hv & Hmin)]).
  - exists ds. split; [exact Hs|]. split; [|exact Hend].
    exists ds. auto 10.
  - exists ("-"%char :: ds). split; [exact Hs|]. split; [|exact Hend].
    exists ds. auto 10.
Qed.

Lemma opl_parse_char_ok (s : list ascii) (c : ascii) (s' : list ascii) :
  c <> NUL -> opl_parse_char s c = Ok s' -> s = c :: s'.
Proof.
  unfold opl_parse_char. intros Hc H.
  destruct (Ascii.eqb (peek s) c) eqn:E; [|discriminate].
  injection H as <-. apply ascii_eqb_true in E.
  apply peek_cons; assumption.
Qed.

Lemma opl_parse_char_cons (c : ascii) (s : list ascii) :
  opl_parse_char (c :: s) c = Ok s.
Proof. unfold opl_parse_char. cbn. rewrite Ascii.eqb_refl. reflexivity. Qed.

(** The end of a section: NUL, space or tab. *)
Lemma opl_non_empty_false (s : list ascii) :
  opl_non_empty s = false
  <-> Ascii.eqb (peek s) " " || Ascii.eqb (peek s) "009"
      || Ascii.eqb (peek s) NUL = true.
Proof.
  unfold opl_non_empty.
  destruct (Ascii.eqb (peek s) NUL), (Ascii.eqb (peek s) " "),
    (Ascii.eqb (peek s) "009"); cbn; split; congruence.
Qed.

Lemma opl_non_empty_string_end (s : list ascii) :
  opl_non_empty s = false -> is_string_end (peek s) = true.
Proof.
  unfold opl_non_empty, is_string_end.
  destruct (Ascii.eqb (peek s) NUL), (Ascii.eqb (peek s) " "),
    (Ascii.eqb (peek s) "009"); cbn; congruence.
Qed.

Lemma opl_parse_tags_loop_eq (fuel : nat) (s : list ascii) (builder : list Tag) :
  opl_parse_tags_loop (S fuel) s builder
  = match opl_parse_string s [] with
    | None => None
    | Some (Err e) => Some (Err e)
    | Some (Ok (s, key)) =>
      match opl_parse_char s "=" with
      | Err e => Some (Err e)
      | Ok s =>
        match opl_parse_string s [] with
        | None => None
        | Some (Err e) => Some (Err e)
        | Some (Ok (s, value)) =>
          let builder := builder ++ [(key, value)] in
          if Ascii.eqb (peek s) " " || Ascii.eqb (peek s) "009"
             || Ascii.eqb (peek s) NUL
          then Some (Ok builder)
          else
            match opl_parse_char s "," with
            | Err e => Some (Err e)
            | Ok s => opl_parse_tags_loop fuel s builder
            end
        end
      end
    end.
Proof. reflexivity. Qed.

Lemma tags_encoded_length (e : list ascii) (ts : list Tag) :
  tags_encoded e ts -> (length ts <= length e)%nat.
Proof.
  induction 1 as [ek k ev v Hk Hv | ek k ev v e ts Hk Hv He IH].
  - rewrite length_app. cbn. lia.
  - rewrite length_app. cbn. rewrite length_app. cbn. lia.
Qed.

Lemma opl_parse_tags_loop_encoded (e : list ascii) (ts : list Tag) :
  tags_encoded e ts ->
  forall fuel rest builder,
    (length ts <= fuel)%nat ->
    opl_non_empty rest = false ->
    opl_parse_tags_loop fuel (e ++ rest) builder = Some (Ok (builder ++ ts)).
Proof.
  induction 1 as [ek k ev v Hk Hv | ek k ev v e ts Hk Hv He IH];
    intros fuel rest builder Hfuel Hrest;
    (destruct fuel as [|fuel]; [cbn in Hfuel; lia|]);
    rewrite opl_parse_tags_loop_eq.
  - rewrite <- app_assoc. cbn [app].
    rewrite (opl_parse_string_encoded ek k Hk) by reflexivity.
    rewrite opl_parse_char_cons.
    rewrite (opl_parse_string_encoded ev v Hv)
      by (apply opl_non_empty_string_end; exact Hrest).
    cbv zeta. apply opl_non_empty_false in Hrest. rewrite Hrest.
    reflexivity.
  - rewrite <- app_assoc. cbn [app]. rewrite <- app_assoc. cbn [app].
    rewrite (opl_parse_string_encoded ek k Hk) by reflexivity.
    rewrite opl_parse_char_cons.
    rewrite (opl_parse_string_encoded ev v Hv) by reflexivity.
    cbv zeta. cbn [peek]. cbn [Ascii.eqb Bool.eqb orb andb].
    rewrite opl_parse_char_cons.
    rewrite IH by (cbn in Hfuel; lia || exact Hrest).
    rewrite <- app_assoc. reflexivity.
Qed.

Lemma opl_parse_tags_loop_sound (fuel : nat) :
  forall s builder builder',
    opl_parse_tags_loop fuel s builder = Some (Ok builder') ->
    exists e rest ts,
      s = e ++ rest /\ tags_encoded e ts /\ builder' = builder ++ ts
      /\ opl_non_empty rest = false.
Proof.
  induction fuel as [|fuel IH]; intros s builder builder' H;
    [discriminate|].
  rewrite opl_parse_tags_loop_eq in H.
  destruct (opl_parse_string s []) as [[[s1 key]|err]|] eqn:Ekey;
    [|discriminate|discriminate].
  apply opl_parse_string_sound in Ekey as (ek & k & -> & Hk & -> & _).
  destruct (opl_parse_char s1 "=") as [s2|err] eqn:Eeq; [|discriminate].
  apply opl_parse_char_ok in Eeq as ->; [|discriminate].
  destruct (opl_parse_string s2 []) as [[[s3 value]|err]|] eqn:Eval;
    [|discriminate|discriminate].
  apply opl_parse_string_sound in Eval as (ev & v & -> & Hv & -> & _).
  cbv zeta in H. cbn [app] in H.
  destruct (Ascii.eqb (peek s3) " " || Ascii.eqb (peek s3) "009"
            || Ascii.eqb (peek s3) NUL) eqn:Eend.
  - injection H as <-. exists (ek ++ "="%char :: ev), s3, [(k, v)].
    split; [rewrite <- app_assoc; reflexivity|].
    split; [constructor; assumption|]. split; [reflexivity|].
    apply opl_non_empty_false. exact Eend.
  - destruct (opl_parse_char s3 ",") as [s4|err] eqn:Ecomma; [|discriminate].
    apply opl_parse_char_ok in Ecomma as ->; [|discriminate].
    apply IH in H as (e & rest & ts & -> & He & -> & Hrest).
    exists (ek ++ "="%char :: ev ++ ","%char :: e), rest, ((k, v) :: ts).
    split; [rewrite <- app_assoc; cbn [app]; rewrite <- app_assoc;
            reflexivity|].
    split; [constructor; assumption|].
    split; [rewrite <- app_assoc; reflexivity | exact Hrest].
Qed.

(* ===================================================================== *)
(** ** OPL: member sections                                              *)
(* ===================================================================== *)

Lemma section_char_false (c : ascii) :
  section_char c = false -> c = NUL \/ c = " "%char \/ c = "009"%char.
Proof.
  unfold section_char.
  destruct (Ascii.eqb c NUL) eqn:E0; [apply ascii_eqb_true in E0; auto|].
  destruct (Ascii.eqb c " ") eqn:E1; [apply ascii_eqb_true in E1; auto|].
  destruct (Ascii.eqb c "009") eqn:E2; [apply ascii_eqb_true in E2; auto|].
  discriminate.
Qed.

Lemma section_char_of (P : ascii -> Prop) (c : ascii) :
  P c -> ~ P NUL -> ~ P " "%char -> ~ P "009"%char -> section_char c = true.
Proof.
  intros Hc H0 H1 H2. destruct (section_char c) eqn:E; [reflexivity|].
  apply section_char_false in E as [-> | [-> | ->]]; contradiction.
Qed.

Lemma is_digit_section_char (c : ascii) :
  is_digit c = true -> section_char c = true.
Proof.
  intros H. apply (section_char_of (fun c => is_digit c = true));
    [exact H | discriminate..].
Qed.

Lemma is_plain_section_char (c : ascii) :
  is_plain c = true -> section_char c = true.
Proof.
  intros H. apply (section_char_of (fun c => is_plain c = true));
    [exact H | discriminate..].
Qed.

Lemma is_hex_section_char (c : ascii) :
  is_hex c -> section_char c = true.
Proof.
  intros H. apply (section_char_of is_hex); [exact H|..];
    intros [d Hd]; discriminate.
Qed.

Lemma opl_encoded_section_chars (e w : list ascii) :
  opl_encoded e w -> Forall (fun c => section_char c = true) e.
Proof.
  induction 1 as [|c e w Hc He IH|ds bytes e w Hds Hlen Hu He IH].
  - constructor.
  - constructor; [apply is_plain_section_char; exact Hc | exact IH].
  - constructor; [reflexivity|]. apply Forall_app. split.
    + eapply Forall_impl; [exact Hds|]. apply is_hex_section_char.
    + constructor; [reflexivity | exact IH].
Qed.

Lemma int_text_section_chars (T : IntType) (txt : list ascii) (v : Z) :
  int_text T txt v -> Forall (fun c => section_char c = true) txt.
Proof.
  intros (ds & Hds & _ & [(-> & _) | (-> & _)]).
  - eapply Forall_impl; [exact Hds|]. apply is_digit_section_char.
  - constructor; [reflexivity|].
    eapply Forall_impl; [exact Hds|]. apply is_digit_section_char.
Qed.

(** What a parser went over inside a section lies before the end of the
    section. *)
Lemma split_before_end (a : list ascii) :
  forall s1 txt e,
    a ++ s1 = txt ++ e ->
    Forall (fun c => section_char c = true) a ->
    opl_non_empty e = false ->
    exists txt1, txt = a ++ txt1 /\ s1 = txt1 ++ e.
Proof.
  induction a as [|c a IH]; intros s1 txt e Heq Ha He.
  - exists txt. split; [reflexivity | exact Heq].
  - inversion Ha as [|? ? Hc Ha']; subst.
    destruct txt as [|c' txt].
    + cbn in Heq. subst e. cbn in He.
      unfold opl_non_empty in He. cbn [peek] in He.
      unfold section_char in Hc. congruence.
    + cbn in Heq. injection Heq as <- Heq.
      destruct (IH s1 txt e Heq Ha' He) as (txt1 & -> & ->).
      exists txt1. split; reflexivity.
Qed.

Lemma ptr_eqb_app (a e : list ascii) :
  ptr_eqb (a ++ e) e = match a with [] => true | _ => false end.
Proof.
  unfold ptr_eqb. rewrite length_app. destruct a as [|c a].
  - apply Nat.eqb_refl.
  - apply Nat.eqb_neq. cbn [length]. lia.
Qed.

Lemma ptr_ltb_app (a e : list ascii) :
  ptr_ltb (a ++ e) e = match a with [] => false | _ => true end.
Proof.
  unfold ptr_ltb. rewrite length_app. destruct a as [|c a].
  - apply Nat.ltb_irrefl.
  - apply Nat.ltb_lt. cbn [length]. lia.
Qed.

Lemma opl_parse_relation_members_loop_eq (fuel : nat) (s e : list ascii)
    (builder : list Member) :
  opl_parse_relation_members_loop (S fuel) s e builder
  = if ptr_ltb s e then
      let type := char_to_item_type (peek s) in
      if negb (is_member_type type)
      then Some (Err (opl_error "unknown object type" s))
      else
        let s := tail s in
        if ptr_eqb s e then Some (Err (opl_error "expected integer" s))
        else
          match opl_parse_id s with
          | Err err => Some (Err err)
          | Ok (ref, s) =>
            match opl_parse_char s "@" with
            | Err err => Some (Err err)
            | Ok s =>
              if ptr_eqb s e then Some (Ok (builder ++ [(type, ref, [])]))
              else
                match opl_parse_string s [] with
                | None => None
                | Some (Err err) => Some (Err err)
                | Some (Ok (s, role)) =>
                  let builder := builder ++ [(type, ref, role)] in
                  if ptr_eqb s e then Some (Ok builder)
                  else
                    match opl_parse_char s "," with
                    | Err err => Some (Err err)
                    | Ok s => opl_parse_relation_members_loop fuel s e builder
                    end
                end
            end
          end
    else Some (Ok builder).
Proof. reflexivity. Qed.

Lemma members_encoded_length (txt : list ascii) (ms : list Member) :
  members_encoded txt ms -> (length ms <= length txt)%nat.
Proof.
  induction 1; cbn; repeat (rewrite length_app; cbn); lia.
Qed.

Lemma opl_encoded_nil_inv (w : list ascii) : opl_encoded [] w -> w = [].
Proof. inversion 1. reflexivity. Qed.

(** One member at the front of a section, up to and including its role. *)
Lemma opl_parse_member_front (tc : ascii) (txt : list ascii) (ref : Z)
    (erole role : list ascii) (more e : list ascii) (fuel : nat)
    (builder : list Member) :
  is_member_type (char_to_item_type tc) = true ->
  int_text object_id_type txt ref ->
  opl_encoded erole role ->
  opl_non_empty e = false ->
  (more = [] \/ exists more', more = ","%char :: more') ->
  opl_parse_relation_members_loop (S fuel)
    ((tc :: txt ++ "@"%char :: erole ++ more) ++ e) e builder
  = match more with
    | [] => Some (Ok (builder ++ [(char_to_item_type tc, ref, role)]))
    | _ :: more' =>
      opl_parse_relation_members_loop fuel (more' ++ e) e
        (builder ++ [(char_to_item_type tc, ref, role)])
    end.
Proof.
  intros Htc Hid Hrole He Hmore.
  rewrite opl_parse_relation_members_loop_eq.
  rewrite ptr_ltb_app. cbv zeta. cbn [app peek tail]. rewrite Htc. cbn [negb].
  rewrite ptr_eqb_app.
  assert (txt <> []) as Htxt.
  { destruct Hid as (ds & _ & Hl & [(-> & _) | (-> & _)]);
      [destruct ds; [cbn in Hl; lia | discriminate] | discriminate]. }
  destruct (txt ++ "@"%char :: erole ++ more) as [|x xs] eqn:Ex;
    [destruct txt; discriminate|]. rewrite <- Ex. clear x xs Ex.
  rewrite <- app_assoc. cbn [app]. unfold opl_parse_id.
  rewrite (opl_parse_int_text _ txt ref _ Hid) by reflexivity.
  rewrite opl_parse_char_cons.
  destruct Hmore as [-> | [more' ->]].
  - rewrite app_nil_r. rewrite ptr_eqb_app.
    destruct erole as [|c erole'] eqn:Eerole.
    + apply opl_encoded_nil_inv in Hrole as ->. reflexivity.
    + rewrite <- Eerole in *.
      rewrite (opl_parse_string_encoded erole role Hrole)
        by (apply opl_non_empty_string_end; exact He).
      cbn [app]. unfold ptr_eqb. rewrite Nat.eqb_refl. reflexivity.
  - rewrite ptr_eqb_app.
    destruct (erole ++ ","%char :: more') as [|x xs] eqn:Ex;
      [destruct erole; discriminate|]. rewrite <- Ex. clear x xs Ex.
    rewrite <- app_assoc. cbn [app].
    rewrite (opl_parse_string_encoded erole role Hrole) by reflexivity.
    pose proof (ptr_eqb_app (","%char :: more') e) as Hp.
    cbn [app] in Hp |- *. rewrite Hp.
    rewrite opl_parse_char_cons. reflexivity.
Qed.

Lemma opl_parse_relation_members_loop_encoded (txt : list ascii)
    (ms : list Member) :
  members_encoded txt ms ->
  forall fuel e builder,
    (length ms < fuel)%nat ->
    opl_non_empty e = false ->
    opl_parse_relation_members_loop fuel (txt ++ e) e builder
    = Some (Ok (builder ++ ms)).
Proof.
  induction 1 as [|tc txt ref erole role Htc Hid Hrole
                  |tc txt ref erole role e0 ms Htc Hid Hrole He0 IH];
    intros fuel e builder Hfuel He;
    (destruct fuel as [|fuel]; [cbn in Hfuel; lia|]).
  - rewrite opl_parse_relation_members_loop_eq, (ptr_ltb_app [] e).
    rewrite app_nil_r. reflexivity.
  - pose proof (opl_parse_member_front tc txt ref erole role [] e fuel builder
                  Htc Hid Hrole He (or_introl eq_refl)) as Hfront.
    rewrite app_nil_r in Hfront. exact Hfront.
  - rewrite (opl_parse_member_front tc txt ref erole role (","%char :: e0) e
               fuel builder Htc Hid Hrole He
               (or_intror (ex_intro _ e0 eq_refl))).
    rewrite IH by (cbn in Hfuel; lia || exact He).
    rewrite <- app_assoc. reflexivity.
Qed.

Lemma opl_parse_relation_members_loop_sound (fuel : nat) :
  forall txt e builder builder',
    opl_non_empty e = false ->
    opl_parse_relation_members_loop fuel (txt ++ e) e builder
    = Some (Ok builder') ->
    exists ms, members_encoded txt ms /\ builder' = builder ++ ms.
Proof.
  induction fuel as [|fuel IH]; intros txt e builder builder' He H;
    [discriminate|].
  rewrite opl_parse_relation_members_loop_eq in H.
  rewrite ptr_ltb_app in H.
  destruct txt as [|tc txt1].
  { injection H as <-. exists []. rewrite app_nil_r.
    split; [constructor | reflexivity]. }
  cbv zeta in H. cbn [app peek tail] in H.
  destruct (is_member_type (char_to_item_type tc)) eqn:Htc;
    [|discriminate]. cbn [negb] in H.
  rewrite ptr_eqb_app in H.
  destruct txt1 as [|c1 txt1']; [discriminate|].
  remember (c1 :: txt1') as txt1 eqn:E1. clear c1 txt1' E1.
  destruct (opl_parse_id (txt1 ++ e)) as [[ref s1]|err] eqn:Eid;
    [|discriminate].
  apply opl_parse_int_ok in Eid as (idtxt & Hs1 & Hid & _).
  symmetry in Hs1.
  destruct (split_before_end idtxt s1 txt1 e Hs1
              (int_text_section_chars _ _ _ Hid) He) as (txt2 & -> & ->).
  destruct (opl_parse_char (txt2 ++ e) "@") as [s2|err] eqn:Eat;
    [|discriminate].
  apply opl_parse_char_ok in Eat; [|discriminate].
  destruct (split_before_end ["@"%char] s2 txt2 e (eq_sym Eat)
              ltac:(repeat constructor) He) as (txt3 & -> & ->).
  rewrite ptr_eqb_app in H.
  destruct txt3 as [|c3 txt3'].
  { injection H as <-. exists [(char_to_item_type tc, ref, [])].
    split; [|reflexivity].
    apply (members_last tc idtxt ref [] []); [exact Htc | exact Hid|].
    constructor. }
  remember (c3 :: txt3') as txt3 eqn:E3. clear c3 txt3' E3.
  destruct (opl_parse_string (txt3 ++ e) []) as [[[s3 role]|err]|] eqn:Erole;
    [|discriminate|discriminate].
  apply opl_parse_string_sound in Erole as (erole & role' & Hs3 & Hrole & -> & _).
  cbn [app] in H.
  destruct (split_before_end erole s3 txt3 e (eq_sym Hs3)
              (opl_encoded_section_chars _ _ Hrole) He) as (txt4 & -> & ->).
  cbv zeta in H. rewrite ptr_eqb_app in H.
  destruct txt4 as [|c4 txt4'].
  { injection H as <-. exists [(char_to_item_type tc, ref, role')].
    split; [|reflexivity]. rewrite app_nil_r.
    apply members_last; assumption. }
  remember (c4 :: txt4') as txt4 eqn:E4. clear c4 txt4' E4.
  destruct (opl_parse_char (txt4 ++ e) ",") as [s4|err] eqn:Ecomma;
    [|discriminate].
  apply opl_parse_char_ok in Ecomma; [|discriminate].
  destruct (split_before_end [","%char] s4 txt4 e (eq_sym Ecomma)
              ltac:(repeat constructor) He) as (txt5 & -> & ->).
  apply IH in H as (ms & Hms & ->); [|exact He].
  exists ((char_to_item_type tc, ref, role') :: ms).
  split; [|rewrite <- app_assoc; reflexivity].
  cbn [app]. apply members_more; assumption.
Qed.

(** *** The list parsers always return *)

Lemma opl_parse_string_shorter (s result s' result' : list ascii) :
  opl_parse_string s result = Some (Ok (s', result')) ->
  (length s' <= length s)%nat.
Proof.
  intros H. apply opl_parse_string_sound in H as (e & w & -> & _).
  rewrite length_app. lia.
Qed.

Lemma opl_parse_char_shorter (s : list ascii) (c : ascii) (s' : list ascii) :
  opl_parse_char s c = Ok s' -> (length s' <= length s)%nat.
Proof.
  unfold opl_parse_char. destruct (Ascii.eqb (peek s) c); [|discriminate].
  intros H. injection H as <-. destruct s; cbn; lia.
Qed.

Lemma opl_parse_char_shorter_strict (s : list ascii) (c : ascii)
    (s' : list ascii) :
  c <> NUL -> opl_parse_char s c = Ok s' -> (length s' < length s)%nat.
Proof.
  intros Hc H. apply opl_parse_char_ok in H as ->; [|exact Hc]. cbn. lia.
Qed.

Lemma opl_parse_int_shorter (T : IntType) (s : list ascii) (v : Z)
    (s' : list ascii) :
  opl_parse_int T s = Ok (v, s') -> (length s' < length s)%nat.
Proof.
  intros H. apply opl_parse_int_sound in H
    as (ds & _ & Hl & _ & [(-> & _) | (-> & _)]);
    cbn; rewrite length_app; lia.
Qed.

Lemma opl_parse_tags_loop_total (fuel : nat) :
  forall s builder,
    (length s < fuel)%nat -> is_Some (opl_parse_tags_loop fuel s builder).
Proof.
  induction fuel as [|fuel IH]; intros s builder Hfuel; [lia|].
  rewrite opl_parse_tags_loop_eq.
  destruct (opl_parse_string_total s []) as [r1 E1]. rewrite E1.
  destruct r1 as [[s1 key]|err]; [|eauto].
  apply opl_parse_string_shorter in E1.
  destruct (opl_parse_char s1 "=") as [s2|err] eqn:E2; [|eauto].
  apply opl_parse_char_shorter_strict in E2; [|discriminate].
  destruct (opl_parse_string_total s2 []) as [r3 E3]. rewrite E3.
  destruct r3 as [[s3 value]|err]; [|eauto].
  apply opl_parse_string_shorter in E3. cbv zeta.
  destruct (Ascii.eqb (peek s3) " " || Ascii.eqb (peek s3) "009"
            || Ascii.eqb (peek s3) NUL); [eauto|].
  destruct (opl_parse_char s3 ",") as [s4|err] eqn:E4; [|eauto].
  apply opl_parse_char_shorter in E4. apply IH. lia.
Qed.

Lemma opl_parse_tags_total (s : list ascii) : is_Some (opl_parse_tags s).
Proof. apply opl_parse_tags_loop_total. lia. Qed.

Lemma opl_parse_relation_members_loop_total (fuel : nat) :
  forall s e builder,
    (length s < fuel)%nat ->
    is_Some (opl_parse_relation_members_loop fuel s e builder).
Proof.
  induction fuel as [|fuel IH]; intros s e builder Hfuel; [lia|].
  rewrite opl_parse_relation_members_loop_eq.
  destruct (ptr_ltb s e) eqn:Elt; [|eauto]. cbv zeta.
  destruct (negb (is_member_type (char_to_item_type (peek s)))); [eauto|].
  destruct (ptr_eqb (tail s) e); [eauto|].
  assert (length (tail s) <= length s)%nat as Htail
    by (destruct s; cbn; lia).
  destruct (opl_parse_id (tail s)) as [[ref s1]|err] eqn:E1; [|eauto].
  apply opl_parse_int_shorter in E1.
  destruct (opl_parse_char s1 "@") as [s2|err] eqn:E2; [|eauto].
  apply opl_parse_char_shorter in E2.
  destruct (ptr_eqb s2 e); [eauto|].
  destruct (opl_parse_string_total s2 []) as [r3 E3]. rewrite E3.
  destruct r3 as [[s3 role]|err]; [|eauto].
  apply opl_parse_string_shorter in E3.
  destruct (ptr_eqb s3 e); [eauto|].
  destruct (opl_parse_char s3 ",") as [s4|err] eqn:E4; [|eauto].
  apply opl_parse_char_shorter in E4. apply IH. lia.
Qed.

Lemma opl_parse_relation_members_total (s e : list ascii) :
  is_Some (opl_parse_relation_members s e).
Proof.
  unfold opl_parse_relation_members. destruct (ptr_eqb s e); [eauto|].
  destruct (opl_parse_relation_members_loop_total (S (length s)) s e []
              ltac:(lia)) as [r E].
  rewrite E. destruct r; eauto.
Qed.

(* ===================================================================== *)
(** ** OPL: spaces and sections                                          *)
(* ===================================================================== *)

Lemma skip_blanks_split (s : list ascii) :
  exists blanks,
    s = blanks ++ skip_blanks s
    /\ Forall (fun c => is_blank c = true) blanks
    /\ is_blank (peek (skip_blanks s)) = false.
Proof.
  induction s as [|c s IH].
  - exists []. repeat split. constructor.
  - cbn [skip_blanks]. destruct (is_blank c) eqn:Ec.
    + destruct IH as (blanks & Hs & Hb & Hend).
      exists (c :: blanks). split; [cbn; congruence|].
      split; [constructor; assumption | exact Hend].
    + exists []. split; [reflexivity|]. split; [constructor | exact Ec].
Qed.

Lemma skip_blanks_app (blanks s' : list ascii) :
  Forall (fun c => is_blank c = true) blanks ->
  is_blank (peek s') = false ->
  skip_blanks (blanks ++ s') = s'.
Proof.
  induction 1 as [|c blanks Hc Hb IH]; intros Hend.
  - destruct s' as [|c s']; [reflexivity|].
    cbn [app skip_blanks]. cbn [peek] in Hend. rewrite Hend. reflexivity.
  - cbn [app skip_blanks]. rewrite Hc. apply IH. exact Hend.
Qed.

(** [opl_parse_space] succeeds on exactly the data that starts with a
    space or a tab; it steps over the whole run of spaces and tabs and
    leaves the data pointer at the first character that is neither.  On
    other data it raises an error that points at the data. *)
Theorem opl_parse_space_spec (s : list ascii) :
  (forall s',
     opl_parse_space s = Ok s'
     <-> exists blanks,
           blanks <> [] /\ Forall (fun c => is_blank c = true) blanks
           /\ s = blanks ++ s' /\ is_blank (peek s') = false)
  /\ (is_blank (peek s) = false <->
      opl_parse_space s
      = Err (opl_error "expected space or tab character" s)).
Proof.
  assert (negb (Ascii.eqb (peek s) " ") && negb (Ascii.eqb (peek s) "009")
          = negb (is_blank (peek s))) as Hb
    by (unfold is_blank; destruct (Ascii.eqb (peek s) " "),
          (Ascii.eqb (peek s) "009"); reflexivity).
  unfold opl_parse_space. rewrite Hb. split.
  - intros s'. destruct (is_blank (peek s)) eqn:Es; cbn [negb]; split.
    + intros H. injection H as <-.
      destruct s as [|c s]; [discriminate Es|]. cbn [peek] in Es.
      cbn [tail]. destruct (skip_blanks_split s) as (blanks & Hs & Hbl & Hend).
      exists (c :: blanks). split; [discriminate|].
      split; [constructor; assumption|].
      split; [cbn; congruence | exact Hend].
    + intros (blanks & Hne & Hbl & -> & Hend).
      destruct blanks as [|c blanks]; [congruence|].
      inversion Hbl as [|? ? Hc Hbl']; subst. cbn [app tail].
      rewrite skip_blanks_app by assumption. reflexivity.
    + discriminate.
    + intros (blanks & Hne & Hbl & -> & Hend).
      destruct blanks as [|c blanks]; [congruence|].
      inversion Hbl as [|? ? Hc Hbl']; subst. cbn [app peek] in Es.
      congruence.
  - destruct (is_blank (peek s)); cbn [negb]; split;
      try discriminate; reflexivity.
Qed.

Lemma opl_non_empty_cons (c : ascii) (s : list ascii) :
  opl_non_empty (c :: s) = section_char c.
Proof. reflexivity. Qed.

(** [opl_skip_section] steps over the characters of a section and stops
    at the first space, tab or end of the line behind them. *)
Theorem opl_skip_section_spec (s s' : list ascii) :
  opl_skip_section s = s'
  <-> exists sec,
        s = sec ++ s' /\ Forall (fun c => section_char c = true) sec
        /\ opl_non_empty s' = false.
Proof.
  split.
  - intros <-. induction s as [|c s IH].
    + exists []. repeat split. constructor.
    + cbn [opl_skip_section]. rewrite opl_non_empty_cons.
      destruct (section_char c) eqn:Ec.
      * destruct IH as (sec & Hs & Hsec & Hend).
        exists (c :: sec). split; [cbn; congruence|].
        split; [constructor; assumption | exact Hend].
      * exists []. split; [reflexivity|]. split; [constructor|].
        rewrite opl_non_empty_cons. exact Ec.
  - intros (sec & -> & Hsec & Hend).
    induction Hsec as [|c sec Hc Hsec IH].
    + destruct s' as [|c s']; [reflexivity|].
      cbn [app opl_skip_section]. rewrite Hend. reflexivity.
    + cbn [app opl_skip_section]. rewrite opl_non_empty_cons, Hc. exact IH.
Qed.

(** *** What the list parsers build *)

(** [opl_parse_tags] builds a tag list from exactly the sections that are
    made of key=value pairs separated by commas and end at a space, a tab
    or the end of the line; it adds the tags in the order they are
    written, each key and value decoded as [opl_parse_string] decodes it.
    A key or a value may be empty; the section may not be, and may not end
    in a comma.  On any other data the function raises an error. *)
Theorem opl_parse_tags_spec (s : list ascii) (ts : list Tag) :
  (opl_parse_tags s = Some (Ok ts)
   <-> exists e rest,
         s = e ++ rest /\ tags_encoded e ts /\ opl_non_empty rest = false)
  /\ is_Some (opl_parse_tags s).
Proof.
  split; [|apply opl_parse_tags_total].
  unfold opl_parse_tags. split.
  - intros H. apply opl_parse_tags_loop_sound in H
      as (e & rest & ts' & Hs & He & Hts & Hrest).
    cbn in Hts. subst ts'. eauto.
  - intros (e & rest & -> & He & Hrest).
    apply (opl_parse_tags_loop_encoded e ts He _ rest []); [|exact Hrest].
    pose proof (tags_encoded_length e ts He). rewrite length_app. lia.
Qed.

(** For a section that ends at a space, a tab or the end of the line,
    [opl_parse_relation_members] builds nothing when the section is empty,
    and otherwise builds a member list from exactly the sections made of
    members (type 'n', 'w' or 'r', id, '@', role) separated by commas:
    the members in the order they are written, the roles decoded as
    [opl_parse_string] decodes them.  A role may be empty, and a comma may
    follow the last member.  On any other section the function raises an
    error. *)
Theorem opl_parse_relation_members_spec (txt e : list ascii)
    (r : option (list Member)) :
  opl_non_empty e = false ->
  (opl_parse_relation_members (txt ++ e) e = Some (Ok r)
   <-> (txt = [] /\ r = None)
       \/ (txt <> [] /\ exists ms, r = Some ms /\ members_encoded txt ms))
  /\ is_Some (opl_parse_relation_members (txt ++ e) e).
Proof.
  intros He. split; [|apply opl_parse_relation_members_total].
  unfold opl_parse_relation_members. rewrite ptr_eqb_app.
  destruct txt as [|c txt'].
  - split.
    + intros H. injection H as <-. left. auto.
    + intros [[_ ->] | [Hne _]]; [reflexivity | congruence].
  - remember (c :: txt') as txt eqn:E.
    assert (txt <> []) as Hne by (subst txt; discriminate).
    clear c txt' E. split.
    + intros H.
      destruct (opl_parse_relation_members_loop (S (length (txt ++ e)))
                  (txt ++ e) e []) as [[ms|err]|] eqn:Eloop;
        [|discriminate|discriminate].
      injection H as <-.
      apply opl_parse_relation_members_loop_sound in Eloop
        as (ms' & Hms & ->); [|exact He].
      right. split; [exact Hne|]. exists ms'. split; [reflexivity | exact Hms].
    + intros [[-> _] | (_ & ms & -> & Hms)]; [congruence|].
      rewrite (opl_parse_relation_members_loop_encoded txt ms Hms _ e []);
        [reflexivity | | exact He].
      pose proof (members_encoded_length txt ms Hms).
      rewrite length_app. lia.
Qed.

Lemma opl_parse_relation_members_spec_witness :
  (opl_parse_relation_members (chars "n1@a,w-2@," ++ chars " Tx=y") (chars " Tx=y")
   = Some (Ok (Some [(node, 1, chars "a"); (way, -2, [])]))
   <-> (chars "n1@a,w-2@," = [] /\ Some [(node, 1, chars "a"); (way, -2, [])] = None)
       \/ (chars "n1@a,w-2@," <> []
           /\ exists ms,
               Some [(node, 1, chars "a"); (way, -2, [])] = Some ms
               /\ members_encoded (chars "n1@a,w-2@,") ms))
  /\ is_Some (opl_parse_relation_members (chars "n1@a,w-2@," ++ chars " Tx=y")
                                         (chars " Tx=y")).
Proof.
  apply (opl_parse_relation_members_spec (chars "n1@a,w-2@,") (chars " Tx=y")).
  reflexivity.
Defined.

(* ===================================================================== *)
(** ** PBF input: the framer does not see the chunks                     *)
(* ===================================================================== *)

Section PBF_chunking.
Context `{D : PBFDecoders}.

Lemma same_outputs_sym (st1 st2 : PBFParser) :
  same_outputs st1 st2 -> same_outputs st2 st1.
Proof.
  unfold same_outputs, same_settings. intros (?&?&?&?).
  repeat split; congruence.
Qed.

Lemma same_stream_refl (st : PBFParser) : same_stream st st.
Proof. left. reflexivity. Qed.

(** Parsers that agree on what they produced and on their input are the
    same parser. *)
Lemma same_outputs_eq (st1 st2 : PBFParser) :
  same_outputs st1 st2 ->
  m_input_queue st1 = m_input_queue st2 ->
  m_input_buffer st1 = m_input_buffer st2 ->
  st1 = st2.
Proof.
  destruct st1, st2. unfold same_outputs, same_settings. cbn.
  intros (?&?&?&?) ? ?. congruence.
Qed.

Lemma read_from_input_queue_nonpos (size : Z) (st : PBFParser) :
  size <= 0 ->
  read_from_input_queue size st
  = (set_input st (m_input_queue st) (m_input_buffer st), Ok []).
Proof.
  intros Hsize. unfold read_from_input_queue.
  assert (fill_input_buffer size (m_input_buffer st) (m_input_queue st)
          = (m_input_buffer st, m_input_queue st, Ok ())) as ->.
  { destruct (m_input_queue st); cbn [fill_input_buffer];
      destruct (Z.ltb_spec (Z.of_nat (length (m_input_buffer st))) size);
      try lia; reflexivity. }
  replace (Z.to_nat size) with 0%nat by lia.
  rewrite drop_0, take_0. reflexivity.
Qed.

Lemma set_input_same (st : PBFParser) :
  set_input st (m_input_queue st) (m_input_buffer st) = st.
Proof. destruct st. reflexivity. Qed.

Lemma chunk_independent_read (size : Z) :
  chunk_independent (read_from_input_queue size).
Proof.
  intros st1 st2 [-> | (Hout & data & Hp1 & Hp2)];
    [split; [reflexivity | apply same_stream_refl]|].
  destruct (Z_le_gt_dec size 0) as [Hneg | Hpos].
  - rewrite !read_from_input_queue_nonpos by exact Hneg.
    rewrite !set_input_same. cbn [fst snd].
    split; [reflexivity|]. right. eauto.
  - destruct (Z_le_gt_dec size (Z.of_nat (length data))) as [Hle | Hgt].
    + destruct (read_from_input_queue_enough st1 data [] size Hp1 ltac:(lia))
        as (st1' & -> & Hp1' & Hsame1).
      destruct (read_from_input_queue_enough st2 data [] size Hp2 ltac:(lia))
        as (st2' & -> & Hp2' & Hsame2).
      cbn [fst snd]. split; [reflexivity|]. right. split; [|eauto].
      eapply same_outputs_trans; [|exact Hsame2].
      eapply same_outputs_trans; [|exact Hout].
      apply same_outputs_sym. exact Hsame1.
    + rewrite (read_from_input_queue_truncated st1 data [] size Hp1)
        by lia.
      rewrite (read_from_input_queue_truncated st2 data [] size Hp2)
        by lia.
      cbn [fst snd]. split; [reflexivity|]. left.
      apply same_outputs_eq; [|reflexivity..].
      destruct Hout as (?&?&?&?). repeat split; cbn; assumption.
Qed.

Lemma chunk_independent_ret {A : Type} (a : A) :
  chunk_independent (mret a).
Proof. intros st1 st2 H. split; [reflexivity | exact H]. Qed.

Lemma chunk_independent_raise {A : Type} (e : exception) :
  chunk_independent (raise (A := A) e).
Proof. intros st1 st2 H. split; [reflexivity | exact H]. Qed.

Lemma chunk_independent_call {A : Type} (r : Result exception A) :
  chunk_independent (call r).
Proof.
  intros st1 st2 H. unfold call. destruct r; split; try reflexivity; exact H.
Qed.

Lemma chunk_independent_bind {A B : Type} (m : Framer A) (k : A -> Framer B) :
  chunk_independent m -> (forall a, chunk_independent (k a)) ->
  chunk_independent (m ≫= k).
Proof.
  intros Hm Hk st1 st2 H. unfold mbind, Framer_bind.
  destruct (Hm st1 st2 H) as [Hr Hs].
  destruct (m st1) as [st1' r1], (m st2) as [st2' r2]. cbn [fst snd] in *.
  subst r2. destruct r1 as [a|e].
  - apply Hk. exact Hs.
  - split; [reflexivity | exact Hs].
Qed.

Lemma chunk_independent_catch {A : Type} (body handler : Framer A) :
  chunk_independent body -> chunk_independent handler ->
  chunk_independent (catch_pbf_error body handler).
Proof.
  intros Hb Hh st1 st2 H. unfold catch_pbf_error.
  destruct (Hb st1 st2 H) as [Hr Hs].
  destruct (body st1) as [st1' r1], (body st2) as [st2' r2].
  cbn [fst snd] in *. subst r2.
  destruct r1 as [a|[[what|what]|]]; try (split; [reflexivity | exact Hs]).
  apply Hh. exact Hs.
Qed.

Lemma chunk_independent_size : chunk_independent read_blob_header_size_from_file.
Proof.
  unfold read_blob_header_size_from_file.
  apply chunk_independent_bind.
  - apply chunk_independent_catch.
    + apply chunk_independent_bind; [apply chunk_independent_read|].
      intros a. apply chunk_independent_ret.
    + apply chunk_independent_ret.
  - intros [input_data|]; [|apply chunk_independent_ret].
    destruct (ntohl input_data >? wrap_u32 max_blob_header_size).
    + apply chunk_independent_raise.
    + apply chunk_independent_ret.
Qed.

Lemma chunk_independent_check (expected_type : string) :
  chunk_independent (check_type_and_get_blob_size expected_type).
Proof.
  unfold check_type_and_get_blob_size.
  apply chunk_independent_bind; [apply chunk_independent_size|].
  intros size. destruct (size =? 0); [apply chunk_independent_ret|].
  apply chunk_independent_bind; [apply chunk_independent_read|].
  intros blob_header. apply chunk_independent_bind.
  - apply chunk_independent_call.
  - intros fields. apply chunk_independent_call.
Qed.

Lemma same_stream_outputs (st1 st2 : PBFParser) :
  same_stream st1 st2 -> same_outputs st1 st2.
Proof. intros [-> | [H _]]; [apply same_outputs_refl | exact H]. Qed.

(** An update of what the parser produced keeps the parsers alike. *)
Lemma same_stream_update (f : PBFParser -> PBFParser) (st1 st2 : PBFParser) :
  (forall st, m_input_queue (f st) = m_input_queue st
              /\ m_input_buffer (f st) = m_input_buffer st) ->
  (forall st st', same_outputs st st' -> same_outputs (f st) (f st')) ->
  same_stream st1 st2 -> same_stream (f st1) (f st2).
Proof.
  intros Hin Hout [-> | (Ho & data & [Hd1 He1] & [Hd2 He2])];
    [left; reflexivity|].
  right. split; [apply Hout; exact Ho|]. exists data.
  destruct (Hin st1) as [Hq1 Hb1], (Hin st2) as [Hq2 Hb2].
  unfold pending. rewrite Hq1, Hb1, Hq2, Hb2. auto.
Qed.

Lemma same_stream_set_header (h : Header) (st1 st2 : PBFParser) :
  same_stream st1 st2 ->
  same_stream (set_header_promise h st1) (set_header_promise h st2).
Proof.
  apply same_stream_update; [intros st; split; reflexivity|].
  intros st st' (?&?&?&?). repeat split; cbn; assumption.
Qed.

Lemma same_stream_push (f : future Buffer) (st1 st2 : PBFParser) :
  same_stream st1 st2 ->
  same_stream (push_future f st1) (push_future f st2).
Proof.
  apply same_stream_update; [intros st; split; reflexivity|].
  intros st st' (Hq&?&?&?). repeat split; cbn; try assumption.
  rewrite Hq. reflexivity.
Qed.

Lemma chunk_independent_header : chunk_independent parse_header_blob.
Proof.
  intros st1 st2 H. unfold parse_header_blob.
  assert (chunk_independent
            (size ← check_type_and_get_blob_size "OSMHeader";
             data ← read_from_input_queue size;
             call (decode_header data))) as Hci.
  { apply chunk_independent_bind; [apply chunk_independent_check|].
    intros size. apply chunk_independent_bind; [apply chunk_independent_read|].
    intros data. apply chunk_independent_call. }
  destruct (Hci st1 st2 H) as [Hr Hs].
  destruct ((size ← check_type_and_get_blob_size "OSMHeader";
             data ← read_from_input_queue size;
             call (decode_header data)) st1) as [st1' r1].
  destruct ((size ← check_type_and_get_blob_size "OSMHeader";
             data ← read_from_input_queue size;
             call (decode_header data)) st2) as [st2' r2].
  cbn [fst snd] in *. subst r2.
  destruct r1; cbn [fst snd]; (split; [reflexivity|]);
    apply same_stream_set_header; exact Hs.
Qed.

Lemma chunk_independent_blob (size : Z) :
  chunk_independent (handle_data_blob size).
Proof.
  unfold handle_data_blob.
  apply chunk_independent_bind; [apply chunk_independent_read|].
  intros input_buffer.
  destruct (Z.of_nat (length input_buffer) >? max_uncompressed_blob_size);
    [apply chunk_independent_raise|].
  intros st1 st2 H.
  destruct (same_stream_outputs st1 st2 H) as (_ & _ & Ht & Hu).
  rewrite Ht, Hu.
  destruct (m_use_thread_pool st1).
  - cbn [fst snd]. split; [reflexivity|]. apply same_stream_push. exact H.
  - destruct (PBFDataBlobDecoder input_buffer (m_read_types st1));
      cbn [fst snd]; (split; [reflexivity|]); apply same_stream_push; exact H.
Qed.

Lemma chunk_independent_loop (fuel : nat) :
  forall st1 st2,
    same_stream st1 st2 ->
    match data_blobs fuel st1, data_blobs fuel st2 with
    | Some (st1', r1), Some (st2', r2) => r1 = r2 /\ same_stream st1' st2'
    | None, None => True
    | _, _ => False
    end.
Proof.
  induction fuel as [|fuel IH]; intros st1 st2 H; cbn [data_blobs]; [exact I|].
  destruct (chunk_independent_check "OSMData" st1 st2 H) as [Hr Hs].
  destruct (check_type_and_get_blob_size "OSMData" st1) as [st1' r1].
  destruct (check_type_and_get_blob_size "OSMData" st2) as [st2' r2].
  cbn [fst snd] in *. subst r2.
  destruct r1 as [size|e]; [|split; [reflexivity | exact Hs]].
  destruct (size =? 0); [split; [reflexivity | exact Hs]|].
  destruct (chunk_independent_blob size st1' st2' Hs) as [Hr' Hs'].
  destruct (handle_data_blob size st1') as [st1'' r1'].
  destruct (handle_data_blob size st2') as [st2'' r2'].
  cbn [fst snd] in *. subst r2'.
  destruct r1' as [[]|e]; [|split; [reflexivity | exact Hs']].
  apply IH. exact Hs'.
Qed.

Lemma chunk_independent_run (st1 st2 : PBFParser) :
  same_stream st1 st2 ->
  exists st1' st2' r,
    run st1 = Some (st1', r) /\ run st2 = Some (st2', r)
    /\ same_stream st1' st2'.
Proof.
  intros H. unfold run.
  destruct (chunk_independent_header st1 st2 H) as [Hr Hs].
  destruct (parse_header_blob st1) as [st1' r1].
  destruct (parse_header_blob st2) as [st2' r2].
  cbn [fst snd] in *. subst r2.
  destruct r1 as [[]|e]; [|eauto 6].
  destruct (same_stream_outputs st1' st2' Hs) as (_ & _ & Ht & _).
  rewrite Ht.
  destruct (m_read_types st1' =? nothing); [eauto 6|].
  destruct (data_blobs_total (S (input_size st1')) st1' ltac:(lia))
    as [[st1'' r1] E1].
  destruct (data_blobs_total (S (input_size st2')) st2' ltac:(lia))
    as [[st2'' r2] E2].
  rewrite E1, E2.
  pose proof (chunk_independent_loop
                (S (input_size st1') + S (input_size st2')) st1' st2' Hs)
    as Hloop.
  rewrite (data_blobs_fuel _ _ _ _ E1) in Hloop by lia.
  rewrite (data_blobs_fuel _ _ _ _ E2) in Hloop by lia.
  destruct Hloop as [<- Hs'].
  destruct r1 as [[]|e]; [|eauto 6].
  do 3 eexists. split; [reflexivity|]. split; [reflexivity|].
  apply same_stream_push. exact Hs'.
Qed.

(** The framer does not see how the input queue cuts the stream into
    chunks: on two queues that hold the same bytes in front of their
    end-of-input marker [operator()] ends in the same way, with the same
    futures in the result queue and the same header. *)
Theorem pbf_chunking_independent (queue1 queue2 : list bytes)
    (read_types : Z) (use_thread_pool : bool) :
  until_eof queue1 = until_eof queue2 ->
  after_eof queue1 = Some [] -> after_eof queue2 = Some [] ->
  exists st1 st2 r,
    run (PBFParser_new queue1 read_types use_thread_pool) = Some (st1, r)
    /\ run (PBFParser_new queue2 read_types use_thread_pool) = Some (st2, r)
    /\ m_queue st1 = m_queue st2
    /\ m_header_promise st1 = m_header_promise st2.
Proof.
  intros Hdata He1 He2.
  destruct (chunk_independent_run
              (PBFParser_new queue1 read_types use_thread_pool)
              (PBFParser_new queue2 read_types use_thread_pool))
    as (st1 & st2 & r & Hr1 & Hr2 & Hs).
  { right. split; [repeat split|]. exists (until_eof queue1).
    split; [apply pending_new; exact He1|].
    rewrite Hdata. apply pending_new; exact He2. }
  exists st1, st2, r. split; [exact Hr1|]. split; [exact Hr2|].
  destruct (same_stream_outputs st1 st2 Hs) as (Hq & Hh & _). auto.
Qed.

End PBF_chunking.

Lemma pbf_chunking_independent_witness :
  exists st1 st2 r,
    @run example_decoders (PBFParser_new example_truncated_queue 1 false)
    = Some (st1, r)
    /\ @run example_decoders (PBFParser_new example_truncated_queue_whole 1 false)
       = Some (st2, r)
    /\ m_queue st1 = m_queue st2
    /\ m_header_promise st1 = m_header_promise st2.
Proof.
  apply (@pbf_chunking_independent example_decoders
           example_truncated_queue example_truncated_queue_whole 1 false);
    reflexivity.
Defined.

(* ===================================================================== *)
(** ** PBF input: what stops the framer                                  *)
(* ===================================================================== *)

Section PBF_stops.
Context `{D : PBFDecoders}.

(** The framer in front of the rest of the input, after a good OSMHeader
    blob and a run of good OSMData blobs. *)
Lemma run_after_good_prefix (input_queue : list bytes) (post : list bytes)
    (read_types : Z) (use_thread_pool : bool)
    (header_blob : bytes * bytes) (hdr : Header)
    (blobs : list (bytes * bytes)) (rest : bytes) :
  after_eof input_queue = Some post ->
  until_eof input_queue
  = blob_bytes header_blob ++ concat (map blob_bytes blobs) ++ rest ->
  good_header_blob header_blob hdr ->
  Forall (good_data_blob read_types use_thread_pool) blobs ->
  read_types <> nothing ->
  exists st2,
    pending st2 rest post
    /\ m_queue st2 = data_futures read_types blobs
    /\ m_header_promise st2 = Some hdr
    /\ m_read_types st2 = read_types
    /\ m_use_thread_pool st2 = use_thread_pool
    /\ forall st3 e,
         data_blobs 1 st2 = Some (st3, Err e) ->
         run (PBFParser_new input_queue read_types use_thread_pool)
         = Some (st3, Err e).
Proof.
  intros Heof Hstream Hhdr Hgood Htypes.
  pose proof (pending_new input_queue post read_types use_thread_pool Heof) as Hp.
  rewrite Hstream in Hp.
  destruct (parse_header_blob_good _ _ _ _ post Hp Hhdr)
    as (st1 & Hparse & Hp1 & Hq1 & Hh1 & Ht1 & Hu1).
  cbn [PBFParser_new m_queue m_read_types m_use_thread_pool] in Hq1, Ht1, Hu1.
  destruct (data_blobs_good blobs st1 rest post 1 Hp1)
    as (st2 & Hloop & Hp2 & Hq2 & Hh2 & Ht2 & Hu2).
  { rewrite Ht1, Hu1. exact Hgood. }
  exists st2. split; [exact Hp2|].
  split; [rewrite Hq2, Hq1, Ht1; reflexivity|].
  split; [congruence|]. split; [congruence|]. split; [congruence|].
  intros st3 e Hlast. unfold run. rewrite Hparse, Ht1.
  destruct (Z.eqb_spec read_types nothing) as [|_]; [contradiction|].
  rewrite Hlast in Hloop.
  rewrite (data_blobs_fuel _ (S (input_size st1)) _ _ Hloop); [reflexivity|].
  apply input_size_pending in Hp1. rewrite length_app in Hp1.
  pose proof (concat_blob_bytes_length blobs). lia.
Qed.

Lemma read_blob_header_size_from_file_oversized (st : PBFParser) (n : Z)
    (data : bytes) (post : list bytes) :
  pending st (htonl n ++ data) post ->
  max_blob_header_size < n < 2 ^ 32 ->
  exists st',
    read_blob_header_size_from_file st
    = (st', Err (throw (pbf_error
                          "invalid BlobHeader size (> max_blob_header_size)")))
    /\ pending st' data post
    /\ same_outputs st st'.
Proof.
  intros Hp Hn. unfold read_blob_header_size_from_file.
  destruct (read_from_input_queue_enough st _ post 4 Hp)
    as (st' & Hread & Hp' & Hsame).
  { rewrite length_app. cbn. lia. }
  exists st'. split; [|split; assumption].
  unfold mbind at 1, Framer_bind, catch_pbf_error.
  unfold mbind at 1, Framer_bind. rewrite Hread.
  cbn [mret Framer_ret].
  change (take (Z.to_nat 4) (htonl n ++ data)) with (htonl n).
  rewrite ntohl_htonl by (unfold max_blob_header_size in Hn; lia).
  unfold wrap_u32.
  rewrite (Z.mod_small max_blob_header_size) by (cbv; split; congruence).
  destruct (Z.gtb_spec n max_blob_header_size); [reflexivity | lia].
Qed.

Lemma check_type_and_get_blob_size_bad (st : PBFParser)
    (expected_type : string) (blob_header data : bytes) (e : exception)
    (post : list bytes) :
  pending st (htonl (Z.of_nat (length blob_header)) ++ blob_header ++ data) post ->
  bad_blob_header expected_type blob_header e ->
  exists st',
    check_type_and_get_blob_size expected_type st = (st', Err (throw e))
    /\ pending st' data post
    /\ same_outputs st st'.
Proof.
  intros Hp (Hlen & Hbad).
  destruct (read_blob_header_size_from_file_ok st _ _ post Hp)
    as (st1 & Hsize & Hp1 & Hsame1); [lia|].
  destruct (read_from_input_queue_enough st1 _ post
              (Z.of_nat (length blob_header)) Hp1)
    as (st2 & Hread & Hp2 & Hsame2).
  { rewrite length_app. lia. }
  rewrite Nat2Z.id, take_app_length in Hread.
  rewrite Nat2Z.id, drop_app_length in Hp2.
  exists st2. split; [|split].
  - unfold check_type_and_get_blob_size.
    unfold mbind at 1, Framer_bind. rewrite Hsize.
    destruct (Z.eqb_spec (Z.of_nat (length blob_header)) 0) as [|_]; [lia|].
    unfold mbind at 1, Framer_bind. rewrite Hread.
    unfold mbind, Framer_bind, call.
    destruct Hbad as [Hmsg | (fields & Hmsg & Hdec)]; rewrite Hmsg;
      [reflexivity|]. rewrite Hdec. reflexivity.
  - exact Hp2.
  - eapply same_outputs_trans; eassumption.
Qed.

(** A BlobHeader that cannot be accepted where an OSMData blob is due --
    its length prefix is above [max_blob_header_size], the reader fails on
    it, or [decode_blob_header] refuses it (no datasize, or another type)
    -- stops the framer with that error.  The futures of the blobs before
    it are in the result queue; no sentinel follows them. *)
Theorem pbf_bad_blob_header_stops (input_queue : list bytes)
    (post : list bytes) (read_types : Z) (use_thread_pool : bool)
    (header_blob : bytes * bytes) (hdr : Header)
    (blobs : list (bytes * bytes)) :
  after_eof input_queue = Some post ->
  good_header_blob header_blob hdr ->
  Forall (good_data_blob read_types use_thread_pool) blobs ->
  read_types <> nothing ->
  (forall n rest,
     until_eof input_queue
     = blob_bytes header_blob ++ concat (map blob_bytes blobs)
       ++ htonl n ++ rest ->
     max_blob_header_size < n < 2 ^ 32 ->
     exists st',
       run (PBFParser_new input_queue read_types use_thread_pool)
       = Some (st', Err (throw (pbf_error
                  "invalid BlobHeader size (> max_blob_header_size)")))
       /\ m_queue st' = data_futures read_types blobs)
  /\ (forall blob_header rest e,
        until_eof input_queue
        = blob_bytes header_blob ++ concat (map blob_bytes blobs)
          ++ htonl (Z.of_nat (length blob_header)) ++ blob_header ++ rest ->
        bad_blob_header "OSMData" blob_header e ->
        exists st',
          run (PBFParser_new input_queue read_types use_thread_pool)
          = Some (st', Err (throw e))
          /\ m_queue st' = data_futures read_types blobs).
Proof.
  intros Heof Hhdr Hgood Htypes. split.
  - intros n rest Hstream Hn.
    destruct (run_after_good_prefix input_queue post read_types use_thread_pool
                header_blob hdr blobs _ Heof Hstream Hhdr Hgood Htypes)
      as (st2 & Hp2 & Hq2 & _ & _ & _ & Hrun).
    destruct (read_blob_header_size_from_file_oversized st2 n rest post Hp2 Hn)
      as (st3 & Hsize & _ & Hq3 & _).
    exists st3. split; [|congruence]. apply Hrun.
    cbn [data_blobs]. unfold check_type_and_get_blob_size.
    unfold mbind at 1, Framer_bind. rewrite Hsize. reflexivity.
  - intros blob_header rest e Hstream Hbad.
    destruct (run_after_good_prefix input_queue post read_types use_thread_pool
                header_blob hdr blobs _ Heof Hstream Hhdr Hgood Htypes)
      as (st2 & Hp2 & Hq2 & _ & _ & _ & Hrun).
    destruct (check_type_and_get_blob_size_bad st2 "OSMData" blob_header rest
                e post Hp2 Hbad)
      as (st3 & Hcheck & _ & Hq3 & _).
    exists st3. split; [|congruence]. apply Hrun.
    cbn [data_blobs]. rewrite Hcheck. reflexivity.
Qed.

(** *** A negative datasize *)

Lemma blob_header_fields_app (fs : list BlobHeaderField) (f : BlobHeaderField) :
  blob_header_fields (fs ++ [f])
  = match f with
    | required_string_type data => (data, snd (blob_header_fields fs))
    | required_int32_datasize v => (fst (blob_header_fields fs), v mod 2 ^ 64)
    | skipped_field => blob_header_fields fs
    end.
Proof.
  unfold blob_header_fields. rewrite fold_left_app. cbn [fold_left].
  destruct f; reflexivity.
Qed.

(** The int32 datasize of a BlobHeader is stored in a [size_t]: a
    negative value is not refused but becomes a size of at least 2^63.
    The framer then takes all that is left of the input into its buffer
    and stops with the error of a truncated file. *)
Theorem pbf_negative_datasize (st : PBFParser) (blob_header data : bytes)
    (post : list bytes) (fs : list BlobHeaderField) (v : Z) :
  pending st (blob_bytes (blob_header, data)) post ->
  0 < Z.of_nat (length blob_header) <= max_blob_header_size ->
  pbf_message blob_header = Ok (fs ++ [required_int32_datasize v]) ->
  fst (blob_header_fields fs) `prefix_of` chars "OSMData" ->
  - 2 ^ 31 <= v < 0 ->
  Z.of_nat (length data) < 2 ^ 63 ->
  decode_blob_header (fs ++ [required_int32_datasize v]) "OSMData"
  = Ok (2 ^ 64 + v)
  /\ exists st',
       data_blobs 1 st
       = Some (st', Err (throw (pbf_error "truncated data (EOF encountered)")))
       /\ m_input_buffer st' = data
       /\ m_input_queue st' = post
       /\ same_outputs st st'.
Proof.
  intros Hp Hlen Hmsg Hty Hv Hdata.
  assert (blob_header_fields (fs ++ [required_int32_datasize v])
          = (fst (blob_header_fields fs), 2 ^ 64 + v)) as Hfields.
  { rewrite blob_header_fields_app. f_equal.
    rewrite <- (Z.mod_add v 1 (2 ^ 64)) by lia.
    rewrite Z.mod_small; lia. }
  assert (decode_blob_header (fs ++ [required_int32_datasize v]) "OSMData"
          = Ok (2 ^ 64 + v)) as Hdec.
  { unfold decode_blob_header. rewrite Hfields.
    destruct (Z.eqb_spec (2 ^ 64 + v) 0) as [|_]; [lia|].
    rewrite (strncmp_prefix _ _ Hty). reflexivity. }
  split; [exact Hdec|].
  assert (truncated_blob "OSMData" (blob_header, data)) as Htr.
  { exists (2 ^ 64 + v). split; [|cbn [snd]; lia].
    split; [exact Hlen|]. eauto. }
  destruct (truncated_blob_throws st _ _ post Hp Htr)
    as (st1 & datasize & Hcheck & Hnz & Hsame & Hread).
  eexists. split; [|split; [|split]].
  - cbn [data_blobs]. rewrite Hcheck.
    destruct (Z.eqb_spec datasize 0) as [|_]; [contradiction|].
    unfold handle_data_blob. unfold mbind, Framer_bind. rewrite Hread.
    reflexivity.
  - reflexivity.
  - reflexivity.
  - eapply same_outputs_trans; [exact Hsame | apply same_outputs_set_input].
Qed.

(** *** A decoder that fails *)

Lemma handle_data_blob_decoder_fails (st : PBFParser) (blob_data data : bytes)
    (post : list bytes) (e : exception) :
  pending st (blob_data ++ data) post ->
  Z.of_nat (length blob_data) <= max_uncompressed_blob_size ->
  PBFDataBlobDecoder blob_data (m_read_types st) = Err e ->
  m_use_thread_pool st = false ->
  exists st',
    handle_data_blob (Z.of_nat (length blob_data)) st = (st', Err (throw e))
    /\ m_queue st' = m_queue st ++ [Err (other_error "broken promise")].
Proof.
  intros Hp Hmax Hdec Hpool.
  destruct (read_from_input_queue_enough st _ post
              (Z.of_nat (length blob_data)) Hp)
    as (st1 & Hread & Hp1 & Hq1 & Hh1 & Ht1 & Hu1).
  { rewrite length_app. lia. }
  rewrite Nat2Z.id, take_app_length in Hread.
  unfold handle_data_blob. unfold mbind, Framer_bind. rewrite Hread.
  destruct (Z.gtb_spec (Z.of_nat (length blob_data)) max_uncompressed_blob_size);
    [lia|].
  rewrite Hu1, Ht1, Hpool, Hdec.
  eexists. split; [reflexivity|]. cbn. congruence.
Qed.

(** When the blobs are decoded in the thread of the framer and the
    decoder fails on a blob, the framer stops with the exception of the
    decoder; the future it has pushed for the blob is left without a
    value.  Each [read()] that pops one of these futures once the parser
    task has ended raises the exception of the task, also for the blobs
    that were decoded. *)
Theorem pbf_decoder_failure_stops (input_queue : list bytes)
    (post : list bytes) (read_types : Z)
    (header_blob : bytes * bytes) (hdr : Header)
    (blobs : list (bytes * bytes)) (blob : bytes * bytes) (rest : bytes)
    (e : exception) :
  after_eof input_queue = Some post ->
  until_eof input_queue
  = blob_bytes header_blob ++ concat (map blob_bytes blobs)
    ++ blob_bytes blob ++ rest ->
  good_header_blob header_blob hdr ->
  Forall (good_data_blob read_types false) blobs ->
  read_types <> nothing ->
  good_blob_header "OSMData" (fst blob) (Z.of_nat (length (snd blob))) ->
  Z.of_nat (length (snd blob)) <= max_uncompressed_blob_size ->
  PBFDataBlobDecoder (snd blob) read_types = Err e ->
  exists st',
    run (PBFParser_new input_queue read_types false)
    = Some (st', Err (throw e))
    /\ m_queue st'
       = data_futures read_types blobs ++ [Err (other_error "broken promise")]
    /\ forall popped : nat,
         (popped <= length blobs)%nat ->
         read (Some (Err (throw e))) (drop popped (m_queue st'))
         = (drop (S popped) (m_queue st'), Err (throw e)).
Proof.
  intros Heof Hstream Hhdr Hgood Htypes Hbh Hmax Hdec.
  destruct (run_after_good_prefix input_queue post read_types false
              header_blob hdr blobs _ Heof Hstream Hhdr Hgood Htypes)
    as (st2 & Hp2 & Hq2 & _ & Ht2 & Hu2 & Hrun).
  unfold blob_bytes at 1 in Hp2. rewrite <- !app_assoc in Hp2.
  destruct (check_type_and_get_blob_size_ok st2 _ _ _ _ post Hp2 Hbh)
    as (st3 & Hcheck & Hp3 & Hq3 & Hh3 & Ht3 & Hu3).
  destruct (handle_data_blob_decoder_fails st3 (snd blob) rest post e Hp3 Hmax)
    as (st4 & Hblob & Hq4); [congruence | congruence|].
  assert (m_queue st4
          = data_futures read_types blobs
            ++ [Err (other_error "broken promise")]) as Hq
    by (rewrite Hq4, Hq3, Hq2; reflexivity).
  exists st4. split; [|split].
  - apply Hrun. cbn [data_blobs]. rewrite Hcheck.
    destruct (Z.eqb_spec (Z.of_nat (length (snd blob))) 0) as [Hz|_].
    + exfalso. destruct Hbh as [_ (fields & _ & Hd)].
      unfold decode_blob_header in Hd.
      destruct (blob_header_fields fields) as [ty ds].
      destruct (Z.eqb_spec ds 0); [discriminate|].
      destruct (negb _); [discriminate|]. congruence.
    + rewrite Hblob. reflexivity.
  - exact Hq.
  - intros popped Hpopped. rewrite Hq.
    destruct (lookup_lt_is_Some_2
                (data_futures read_types blobs
                 ++ [Err (other_error "broken promise")]) popped)
      as [buffer_future Hf].
    { rewrite length_app. unfold data_futures. rewrite length_map. cbn. lia. }
    rewrite (drop_S _ _ _ Hf). reflexivity.
Qed.

End PBF_stops.

(** *** The examples *)

Ltac by_compute :=
  vm_compute; repeat split; solve [reflexivity | discriminate].

Lemma example_strict_header_blob_good :
  @good_header_blob example_strict_decoders example_header_blob 2%nat.
Proof.
  split; [|reflexivity]. split; [by_compute|].
  eexists. split; reflexivity.
Qed.

Lemma example_strict_data_blob_good (read_types : Z) (use_thread_pool : bool) :
  @good_data_blob example_strict_decoders read_types use_thread_pool
    example_data_blob.
Proof.
  split; [|split].
  - split; [by_compute|]. eexists. split; reflexivity.
  - by_compute.
  - intros _. eexists. reflexivity.
Qed.

Lemma pbf_bad_blob_header_stops_witness :
  (exists st',
     @run example_decoders (PBFParser_new example_oversized_queue 1 false)
     = Some (st', Err (throw (pbf_error
                "invalid BlobHeader size (> max_blob_header_size)")))
     /\ m_queue st' = @data_futures example_decoders 1 [example_data_blob])
  /\ (exists st',
        @run example_decoders (PBFParser_new example_wrong_type_queue 1 false)
        = Some (st', Err (throw (pbf_error "blob does not have expected type (OSMHeader in first blob, OSMData in following blobs)")))
        /\ m_queue st' = @data_futures example_decoders 1 [example_data_blob]).
Proof.
  destruct (@pbf_bad_blob_header_stops example_decoders
              example_oversized_queue [] 1 false example_header_blob 2%nat
              [example_data_blob] eq_refl example_header_blob_good
              (Forall_cons_2 _ _ _ (example_data_blob_good 1 false)
                 (Forall_nil_2 _))
              ltac:(discriminate)) as [Hsize _].
  destruct (@pbf_bad_blob_header_stops example_decoders
              example_wrong_type_queue [] 1 false example_header_blob 2%nat
              [example_data_blob] eq_refl example_header_blob_good
              (Forall_cons_2 _ _ _ (example_data_blob_good 1 false)
                 (Forall_nil_2 _))
              ltac:(discriminate)) as [_ Htype].
  split.
  - apply (Hsize 65537 (chars "rest")); [reflexivity | cbv; split; reflexivity].
  - apply (Htype (fst example_header_blob) (snd example_header_blob));
      [reflexivity|].
    split; [by_compute|]. right. eexists. split; reflexivity.
Defined.

Lemma pbf_negative_datasize_witness :
  @decode_blob_header
    ([required_string_type (chars "OSMData")] ++ [required_int32_datasize (-5)])
    "OSMData"
  = Ok (2 ^ 64 + -5)
  /\ exists st',
       @data_blobs example_strict_decoders 1
         (PBFParser_new [blob_bytes example_negative_blob; []] 1 false)
       = Some (st', Err (throw (pbf_error "truncated data (EOF encountered)")))
       /\ m_input_buffer st' = chars "xy"
       /\ m_input_queue st' = []
       /\ same_outputs
            (PBFParser_new [blob_bytes example_negative_blob; []] 1 false) st'.
Proof.
  apply (@pbf_negative_datasize example_strict_decoders
           (PBFParser_new [blob_bytes example_negative_blob; []] 1 false)
           (fst example_negative_blob) (snd example_negative_blob) []
           [required_string_type (chars "OSMData")] (-5)).
  - split; reflexivity.
  - by_compute.
  - reflexivity.
  - exists []. reflexivity.
  - by_compute.
  - by_compute.
Defined.

Lemma pbf_decoder_failure_stops_witness :
  exists st',
    @run example_strict_decoders (PBFParser_new example_refused_queue 1 false)
    = Some (st', Err (throw (other_error "bad blob")))
    /\ m_queue st'
       = @data_futures example_strict_decoders 1 [example_data_blob]
         ++ [Err (other_error "broken promise")]
    /\ forall popped : nat,
         (popped <= 1)%nat ->
         @read example_strict_decoders
           (Some (Err (throw (other_error "bad blob"))))
           (drop popped (m_queue st'))
         = (drop (S popped) (m_queue st'),
            Err (throw (other_error "bad blob"))).
Proof.
  apply (@pbf_decoder_failure_stops example_strict_decoders
           example_refused_queue [] 1 example_header_blob 2%nat
           [example_data_blob] example_refused_blob (chars "rest")).
  - reflexivity.
  - reflexivity.
  - apply example_strict_header_blob_good.
  - constructor; [apply example_strict_data_blob_good | constructor].
  - discriminate.
  - split; [by_compute|]. eexists. split; reflexivity.
  - by_compute.
  - reflexivity.
Defined.

(* ===================================================================== *)
(** ** PBF input: what [operator()] leaves behind, whatever the input    *)
(* ===================================================================== *)

Section PBF_outputs.
Context `{D : PBFDecoders}.

Lemma keeps_outputs_read (size : Z) : keeps_outputs (read_from_input_queue size).
Proof.
  intros st. unfold read_from_input_queue.
  destruct (fill_input_buffer size (m_input_buffer st) (m_input_queue st))
    as [[buffer queue] [[]|e]]; apply same_outputs_set_input.
Qed.

Lemma keeps_outputs_ret {A : Type} (a : A) : keeps_outputs (mret a).
Proof. intros st. apply same_outputs_refl. Qed.

Lemma keeps_outputs_raise {A : Type} (e : exception) :
  keeps_outputs (raise (A := A) e).
Proof. intros st. apply same_outputs_refl. Qed.

Lemma keeps_outputs_call {A : Type} (r : Result exception A) :
  keeps_outputs (call r).
Proof. intros st. unfold call. destruct r; apply same_outputs_refl. Qed.

Lemma keeps_outputs_bind {A B : Type} (m : Framer A) (k : A -> Framer B) :
  keeps_outputs m -> (forall a, keeps_outputs (k a)) ->
  keeps_outputs (m ≫= k).
Proof.
  intros Hm Hk st. unfold mbind, Framer_bind.
  specialize (Hm st). destruct (m st) as [st' [a|e]]; cbn [fst] in *.
  - eapply same_outputs_trans; [exact Hm | apply Hk].
  - exact Hm.
Qed.

Lemma keeps_outputs_catch {A : Type} (body handler : Framer A) :
  keeps_outputs body -> keeps_outputs handler ->
  keeps_outputs (catch_pbf_error body handler).
Proof.
  intros Hb Hh st. unfold catch_pbf_error.
  specialize (Hb st).
  destruct (body st) as [st' [a|[[what|what]|]]]; cbn [fst] in *;
    try exact Hb.
  eapply same_outputs_trans; [exact Hb | apply Hh].
Qed.

Lemma keeps_outputs_size : keeps_outputs read_blob_header_size_from_file.
Proof.
  unfold read_blob_header_size_from_file.
  apply keeps_outputs_bind.
  - apply keeps_outputs_catch.
    + apply keeps_outputs_bind; [apply keeps_outputs_read|].
      intros a. apply keeps_outputs_ret.
    + apply keeps_outputs_ret.
  - intros [input_data|]; [|apply keeps_outputs_ret].
    destruct (ntohl input_data >? wrap_u32 max_blob_header_size).
    + apply keeps_outputs_raise.
    + apply keeps_outputs_ret.
Qed.

Lemma keeps_outputs_check (expected_type : string) :
  keeps_outputs (check_type_and_get_blob_size expected_type).
Proof.
  unfold check_type_and_get_blob_size.
  apply keeps_outputs_bind; [apply keeps_outputs_size|].
  intros size. destruct (size =? 0); [apply keeps_outputs_ret|].
  apply keeps_outputs_bind; [apply keeps_outputs_read|].
  intros blob_header. apply keeps_outputs_bind.
  - apply keeps_outputs_call.
  - intros fields. apply keeps_outputs_call.
Qed.

Lemma only_pushes_refl (st : PBFParser) : only_pushes st st.
Proof.
  split; [repeat split|]. exists []. rewrite app_nil_r. reflexivity.
Qed.

Lemma only_pushes_trans (st1 st2 st3 : PBFParser) :
  only_pushes st1 st2 -> only_pushes st2 st3 -> only_pushes st1 st3.
Proof.
  intros [(?&?&?) [p1 Hp1]] [(?&?&?) [p2 Hp2]].
  split; [repeat split; congruence|].
  exists (p1 ++ p2). rewrite Hp2, Hp1, app_assoc. reflexivity.
Qed.

Lemma same_outputs_only_pushes (st st' : PBFParser) :
  same_outputs st st' -> only_pushes st st'.
Proof.
  intros [Hq Hs]. split; [exact Hs|]. exists [].
  rewrite app_nil_r. exact Hq.
Qed.

Lemma only_pushes_push (f : future Buffer) (st : PBFParser) :
  only_pushes st (push_future f st).
Proof. split; [repeat split|]. exists [f]. reflexivity. Qed.

Lemma only_pushes_blob (size : Z) (st : PBFParser) :
  only_pushes st (fst (handle_data_blob size st)).
Proof.
  unfold handle_data_blob. unfold mbind, Framer_bind.
  pose proof (keeps_outputs_read size st) as Hread.
  destruct (read_from_input_queue size st) as [st1 [input_buffer|e]];
    cbn [fst] in *; [|apply same_outputs_only_pushes; exact Hread].
  apply same_outputs_only_pushes in Hread.
  destruct (Z.of_nat (length input_buffer) >? max_uncompressed_blob_size);
    [exact Hread|].
  eapply only_pushes_trans; [exact Hread|].
  destruct (m_use_thread_pool st1); [apply only_pushes_push|].
  destruct (PBFDataBlobDecoder input_buffer (m_read_types st1));
    apply only_pushes_push.
Qed.

Lemma only_pushes_loop (fuel : nat) :
  forall st st' r,
    data_blobs fuel st = Some (st', r) -> only_pushes st st'.
Proof.
  induction fuel as [|fuel IH]; intros st st' r H; [discriminate|].
  cbn [data_blobs] in H.
  pose proof (keeps_outputs_check "OSMData" st) as Hcheck.
  apply same_outputs_only_pushes in Hcheck.
  destruct (check_type_and_get_blob_size "OSMData" st) as [st1 [size|e]];
    cbn [fst] in *; [|injection H as <- <-; exact Hcheck].
  destruct (size =? 0); [injection H as <- <-; exact Hcheck|].
  pose proof (only_pushes_blob size st1) as Hblob.
  destruct (handle_data_blob size st1) as [st2 [[]|e]]; cbn [fst] in *.
  - apply IH in H.
    eapply only_pushes_trans; [exact Hcheck|].
    eapply only_pushes_trans; [exact Hblob | exact H].
  - injection H as <- <-.
    eapply only_pushes_trans; [exact Hcheck | exact Hblob].
Qed.

(** The OSMHeader blob: nothing is pushed, and the header promise is
    fulfilled. *)
Lemma parse_header_blob_outputs (st : PBFParser) :
  m_queue (fst (parse_header_blob st)) = m_queue st
  /\ m_read_types (fst (parse_header_blob st)) = m_read_types st
  /\ m_use_thread_pool (fst (parse_header_blob st)) = m_use_thread_pool st
  /\ is_Some (m_header_promise (fst (parse_header_blob st))).
Proof.
  unfold parse_header_blob.
  assert (keeps_outputs
            (size ← check_type_and_get_blob_size "OSMHeader";
             data ← read_from_input_queue size;
             call (decode_header data))) as Hk.
  { apply keeps_outputs_bind; [apply keeps_outputs_check|].
    intros size. apply keeps_outputs_bind; [apply keeps_outputs_read|].
    intros data. apply keeps_outputs_call. }
  specialize (Hk st).
  destruct ((size ← check_type_and_get_blob_size "OSMHeader";
             data ← read_from_input_queue size;
             call (decode_header data)) st) as [st' [h|e]];
    cbn [fst] in *; destruct Hk as (Hq & _ & Ht & Hu);
    cbn; repeat split; eauto.
Qed.

(** Whatever the input, [operator()] leaves the read types and the thread
    pool flag alone and only adds futures to the result queue: none at
    all when no entity type is asked for, and with the empty sentinel
    buffer last when it returns and some type is asked for.  It returns
    nothing but true.  Unless it waits for input that never comes, it has
    fulfilled the header promise when it ends, so that [header()] then
    yields that header, or the exception of the parser task if the task
    has ended with one. *)
Theorem pbf_run_outputs (st st' : PBFParser) (r : Result stop bool) :
  run st = Some (st', r) ->
  m_read_types st' = m_read_types st
  /\ m_use_thread_pool st' = m_use_thread_pool st
  /\ (exists pushed,
        m_queue st' = m_queue st ++ pushed
        /\ (m_read_types st = nothing -> pushed = [])
        /\ (m_read_types st <> nothing ->
            forall b, r = Ok b ->
            exists before, pushed = before ++ [Ok empty_buffer]))
  /\ (forall b, r = Ok b -> b = true)
  /\ (r <> Err wait_forever ->
      exists h,
        m_header_promise st' = Some h
        /\ header (Some r) (m_header_promise st')
           = match r with
             | Ok _ => Ok h
             | Err e => Err e
             end).
Proof.
  unfold run. intros H.
  destruct (parse_header_blob_outputs st) as (Hq1 & Ht1 & Hu1 & [h Hh1]).
  destruct (parse_header_blob st) as [st1 r1]. cbn [fst] in *.
  assert (forall st2 r2 pushed,
            m_read_types st2 = m_read_types st ->
            m_use_thread_pool st2 = m_use_thread_pool st ->
            m_header_promise st2 = Some h ->
            m_queue st2 = m_queue st ++ pushed ->
            (m_read_types st = nothing -> pushed = []) ->
            (m_read_types st <> nothing ->
             forall b, r2 = Ok b ->
             exists before, pushed = before ++ [Ok empty_buffer]) ->
            (forall b, r2 = Ok b -> b = true) ->
            m_read_types st2 = m_read_types st
            /\ m_use_thread_pool st2 = m_use_thread_pool st
            /\ (exists pushed,
                  m_queue st2 = m_queue st ++ pushed
                  /\ (m_read_types st = nothing -> pushed = [])
                  /\ (m_read_types st <> nothing ->
                      forall b, r2 = Ok b ->
                      exists before, pushed = before ++ [Ok empty_buffer]))
            /\ (forall b, r2 = Ok b -> b = true)
            /\ (r2 <> Err wait_forever ->
                exists h,
                  m_header_promise st2 = Some h
                  /\ header (Some r2) (m_header_promise st2)
                     = match r2 with
                       | Ok _ => Ok h
                       | Err e => Err e
                       end)) as Hpack.
  { intros st2 r2 pushed Ht Hu Hh Hq Hnone Hsome Htrue.
    split; [exact Ht|]. split; [exact Hu|].
    split; [exists pushed; auto|]. split; [exact Htrue|].
    intros Hwait. exists h. split; [exact Hh|]. rewrite Hh.
    destruct r2 as [b|[e|]]; [reflexivity | reflexivity | contradiction]. }
  destruct r1 as [[]|e].
  - destruct (Z.eqb_spec (m_read_types st1) nothing) as [Hn | Hn].
    + injection H as <- <-.
      apply (Hpack st1 (Ok true) []);
        [ exact Ht1 | exact Hu1 | exact Hh1
        | rewrite app_nil_r; exact Hq1
        | reflexivity
        | intros Hne; exfalso; congruence
        | intros b Hb; injection Hb as <-; reflexivity ].
    + destruct (data_blobs (S (input_size st1)) st1) as [[st2 r2]|] eqn:Eloop;
        [|discriminate].
      apply only_pushes_loop in Eloop as [(Hh2 & Ht2 & Hu2) [pushed Hq2]].
      destruct r2 as [[]|e2]; injection H as <- <-.
      * apply (Hpack _ (Ok true) (pushed ++ [Ok empty_buffer]));
          [ cbn; congruence | cbn; congruence | cbn; congruence
          | cbn; rewrite Hq2, Hq1, app_assoc; reflexivity
          | intros Hnone; exfalso; congruence
          | intros _ b _; eauto
          | intros b Hb; injection Hb as <-; reflexivity ].
      * apply (Hpack _ (Err e2) pushed);
          [ congruence | congruence | congruence
          | rewrite Hq2, Hq1; reflexivity
          | intros Hnone; exfalso; congruence
          | intros _ b Hb; discriminate
          | intros b Hb; discriminate ].
  - injection H as <- <-.
    apply (Hpack st1 (Err e) []);
      [ exact Ht1 | exact Hu1 | exact Hh1
      | rewrite app_nil_r; exact Hq1
      | reflexivity
      | intros _ b Hb; discriminate
      | intros b Hb; discriminate ].
Qed.

End PBF_outputs.

Lemma pbf_run_outputs_witness :
  m_read_types example_short_final = 1
  /\ m_use_thread_pool example_short_final = false
  /\ (exists pushed,
        m_queue example_short_final = [] ++ pushed
        /\ (1 = nothing -> pushed = [])
        /\ (1 <> nothing ->
            forall b, @Ok stop bool true = Ok b ->
            exists before, pushed = before ++ [Ok []]))
  /\ (forall b, @Ok stop bool true = Ok b -> b = true)
  /\ (@Ok stop bool true <> Err wait_forever ->
      exists h,
        m_header_promise example_short_final = Some h
        /\ @header example_decoders (Some (Ok true))
             (m_header_promise example_short_final)
           = Ok h).
Proof.
  apply (@pbf_run_outputs example_decoders
           (PBFParser_new example_short_queue 1 false)
           example_short_final (Ok true)).
  reflexivity.
Defined.

(* ===================================================================== *)
(** ** PBF input: the BlobHeaders [decode_blob_header] accepts           *)
(* ===================================================================== *)

Section PBF_blob_header_result.
Context `{D : PBFDecoders}.


End PBF_blob_header_result.


(* ===================================================================== *)
(** ** PBF input: the buffers in the order of the blobs                  *)
(* ===================================================================== *)

Section PBF_order.
Context `{D : PBFDecoders}.

(** On a stream of a good OSMHeader blob and good OSMData blobs that ends
    there, or inside the next length prefix, with some entity type asked
    for, [operator()] returns true, and the calls of [read()] after it give
    the buffers of the blobs in the order of the blobs -- or raise the
    exception a decoder in the pool has ended with -- and then the empty
    buffer that marks the end of the input. *)
Theorem pbf_reads_in_order (input_queue : list bytes) (post : list bytes)
    (read_types : Z) (use_thread_pool : bool)
    (header_blob : bytes * bytes) (hdr : Header)
    (blobs : list (bytes * bytes)) (rest : bytes) :
  after_eof input_queue = Some post ->
  until_eof input_queue
  = blob_bytes header_blob ++ concat (map blob_bytes blobs) ++ rest ->
  (length rest < 4)%nat ->
  good_header_blob header_blob hdr ->
  Forall (good_data_blob read_types use_thread_pool) blobs ->
  read_types <> nothing ->
  exists st',
    run (PBFParser_new input_queue read_types use_thread_pool)
    = Some (st', Ok true)
    /\ (forall (k : nat) (blob : bytes * bytes),
          blobs !! k = Some blob ->
          read (Some (Ok true)) (drop k (m_queue st'))
          = (drop (S k) (m_queue st'),
             match PBFDataBlobDecoder (snd blob) read_types with
             | Ok buffer => Ok buffer
             | Err e => Err (throw e)
             end))
    /\ read (Some (Ok true)) (drop (length blobs) (m_queue st'))
       = ([], Ok empty_buffer).
Proof.
  intros Heof Hstream Hrest Hhdr Hgood Htypes.
  destruct (run_good_prefix input_queue post read_types use_thread_pool
              header_blob hdr blobs rest 1 Heof Hstream Hhdr Hgood)
    as (st1 & st2 & Hparse & Ht1 & Hfuel & Hloop & Hp2 & Hq2 & Hh2 & _).
  rewrite (data_blobs_eof st2 rest post 0 Hp2 Hrest) in Hloop.
  exists (push_future (Ok empty_buffer) (set_input st2 post rest)).
  assert (m_queue (push_future (Ok empty_buffer) (set_input st2 post rest))
          = data_futures read_types blobs ++ [Ok empty_buffer]) as Hq
    by (cbn; rewrite Hq2; reflexivity).
  split; [|split].
  - unfold run. rewrite Hparse, Ht1.
    destruct (Z.eqb_spec read_types nothing) as [|_]; [contradiction|].
    rewrite (data_blobs_fuel _ (S (input_size st1)) _ _ Hloop); [reflexivity|].
    lia.
  - intros k blob Hk. rewrite Hq.
    assert ((data_futures read_types blobs ++ [Ok empty_buffer]) !! k
            = Some (PBFDataBlobDecoder (snd blob) read_types)) as Hf.
    { apply lookup_app_l_Some. unfold data_futures.
      rewrite list_lookup_fmap, Hk. reflexivity. }
    rewrite (drop_S _ _ _ Hf).
    destruct (PBFDataBlobDecoder (snd blob) read_types); reflexivity.
  - rewrite Hq.
    assert (length blobs = length (data_futures read_types blobs)) as ->
      by (unfold data_futures; rewrite length_map; reflexivity).
    rewrite drop_app_length. reflexivity.
Qed.

End PBF_order.

(** The stream of an OSMHeader blob and one OSMData blob that ends two
    bytes into the next length prefix: the first [read()] gives the buffer
    of the blob, the second one the empty buffer. *)
Lemma pbf_reads_in_order_witness :
  exists st',
    @run example_decoders (PBFParser_new example_short_queue 1 false)
    = Some (st', Ok true)
    /\ (forall (k : nat) (blob : bytes * bytes),
          [example_data_blob] !! k = Some blob ->
          @read example_decoders (Some (Ok true)) (drop k (m_queue st'))
          = (drop (S k) (m_queue st'),
             match @PBFDataBlobDecoder example_decoders (snd blob) 1 with
             | Ok buffer => Ok buffer
             | Err e => Err (throw e)
             end))
    /\ @read example_decoders (Some (Ok true)) (drop 1 (m_queue st'))
       = ([], Ok []).
Proof.
  apply (@pbf_reads_in_order example_decoders example_short_queue [] 1 false
           example_header_blob 2%nat [example_data_blob] (chars "ab")).
  - reflexivity.
  - reflexivity.
  - cbn. lia.
  - exact example_header_blob_good.
  - constructor; [apply example_data_blob_good | constructor].
  - discriminate.
Defined.

(* ===================================================================== *)
(** ** OPL: data pointers stay inside the line                           *)
(* ===================================================================== *)

Lemma suffix_tail (s : list ascii) : tail s `suffix_of` s.
Proof. destruct s as [|c s]; [reflexivity | apply suffix_cons_r; reflexivity]. Qed.

Lemma error_within_suffix (s s' : list ascii) (e : opl_exception) :
  s' `suffix_of` s -> error_within s' e -> error_within s e.
Proof.
  intros Hs. destruct e as [what data|cp]; cbn; [|auto].
  intros Hd. etrans; eassumption.
Qed.

Lemma result_within_suffix {A : Type} (s s' : list ascii)
    (r : Result opl_exception (A * list ascii)) :
  s' `suffix_of` s -> result_within s' r -> result_within s r.
Proof.
  intros Hs. destruct r as [[a s'']|e]; cbn.
  - intros H. etrans; eassumption.
  - apply error_within_suffix. exact Hs.
Qed.

Lemma opl_parse_char_within (s : list ascii) (c : ascii) :
  match opl_parse_char s c with
  | Ok s' => s' `suffix_of` s
  | Err e => error_within s e
  end.
Proof.
  unfold opl_parse_char. destruct (Ascii.eqb (peek s) c); cbn;
    [apply suffix_tail | reflexivity].
Qed.

Lemma skip_blanks_suffix (s : list ascii) : skip_blanks s `suffix_of` s.
Proof.
  induction s as [|c s IH]; cbn; [reflexivity|].
  destruct (is_blank c); [apply suffix_cons_r; exact IH | reflexivity].
Qed.

Lemma opl_parse_space_within (s : list ascii) :
  match opl_parse_space s with
  | Ok s' => s' `suffix_of` s
  | Err e => error_within s e
  end.
Proof.
  unfold opl_parse_space.
  destruct (negb (Ascii.eqb (peek s) " ") && negb (Ascii.eqb (peek s) "009"));
    cbn; [reflexivity|].
  etrans; [apply skip_blanks_suffix | apply suffix_tail].
Qed.

Lemma opl_skip_section_suffix (s : list ascii) : opl_skip_section s `suffix_of` s.
Proof.
  induction s as [|c s IH]; cbn [opl_skip_section]; [reflexivity|].
  destruct (opl_non_empty (c :: s)); [apply suffix_cons_r; exact IH | reflexivity].
Qed.

Lemma opl_parse_visible_within (s : list ascii) :
  result_within s (opl_parse_visible s).
Proof.
  unfold opl_parse_visible.
  destruct (Ascii.eqb (peek s) "V"); [apply suffix_tail|].
  destruct (Ascii.eqb (peek s) "D"); [apply suffix_tail | cbn; reflexivity].
Qed.

Lemma opl_parse_int_digits_within (s : list ascii) :
  forall n value,
    match opl_parse_int_digits s n value with
    | Ok (_, _, s') => s' `suffix_of` s
    | Err e => error_within s e
    end.
Proof.
  induction s as [|c s IH]; intros n value; cbn [opl_parse_int_digits];
    [reflexivity|].
  destruct (is_digit c); [|reflexivity].
  destruct (n - 1 =? 0); [cbn; reflexivity|].
  specialize (IH (n - 1) (wrap64 (mul64 value 10 + (char_code c - char_code "0")))).
  destruct (opl_parse_int_digits s _ _) as [[[n' v'] s']|e].
  - apply suffix_cons_r. exact IH.
  - eapply error_within_suffix; [|exact IH]. apply suffix_cons_r. reflexivity.
Qed.

Lemma opl_parse_int_within (T : IntType) (s : list ascii) :
  result_within s (opl_parse_int T s).
Proof.
  unfold opl_parse_int.
  destruct (Ascii.eqb (peek s) NUL); [cbn; reflexivity|].
  set (s0 := if Ascii.eqb (peek s) "-" then tail s else s).
  assert (s0 `suffix_of` s) as Hs0
    by (subst s0; destruct (Ascii.eqb (peek s) "-");
        [apply suffix_tail | reflexivity]).
  pose proof (opl_parse_int_digits_within s0 max_int_len 0) as Hd.
  destruct (opl_parse_int_digits s0 max_int_len 0) as [[[n value] s1]|e];
    unfold mbind, Result_bind; cbn beta iota.
  - assert (s1 `suffix_of` s) as Hs1 by (etrans; eassumption).
    destruct (n =? max_int_len); [exact Hs1|].
    destruct (Ascii.eqb (peek s) "-").
    + destruct (wrap64 (- value) <? T_min T); exact Hs1.
    + destruct (value >? T_max T); exact Hs1.
  - eapply error_within_suffix; eassumption.
Qed.

Lemma opl_parse_escaped_loop_within (n : nat) :
  forall s value result,
    result_within s
      (s_r ← opl_parse_escaped_loop n s value result; Ok (snd s_r, fst s_r)).
Proof.
  induction n as [|n IH]; intros s value result; cbn [opl_parse_escaped_loop];
    [cbn; reflexivity|].
  destruct (Ascii.eqb (peek s) NUL); [cbn; reflexivity|].
  destruct (Ascii.eqb (peek s) "%").
  - destruct (utf32to8 value) as [bytes|e] eqn:Eu; cbn.
    + apply suffix_tail.
    + unfold utf32to8 in Eu.
      destruct (negb (is_code_point_valid value)); [injection Eu as <-; exact I|].
      repeat (destruct (_ <? _) in Eu; [discriminate|]). discriminate.
  - destruct (hex_digit (peek s)); [|cbn; reflexivity].
    eapply result_within_suffix; [apply suffix_tail | apply IH].
Qed.

Lemma opl_parse_escaped_within (s result : list ascii) :
  match opl_parse_escaped s result with
  | Ok (s', _) => s' `suffix_of` s
  | Err e => error_within s e
  end.
Proof.
  pose proof (opl_parse_escaped_loop_within max_length s 0 result) as H.
  unfold opl_parse_escaped.
  destruct (opl_parse_escaped_loop max_length s 0 result) as [[s' r']|e];
    exact H.
Qed.

Lemma opl_parse_string_loop_within (fuel : nat) :
  forall s result,
    match opl_parse_string_loop fuel s result with
    | Some (Ok (s', _)) => s' `suffix_of` s
    | Some (Err e) => error_within s e
    | None => True
    end.
Proof.
  induction fuel as [|fuel IH]; intros s result;
    cbn -[opl_parse_escaped]; [exact I|].
  destruct (is_string_end (peek s)); [reflexivity|].
  destruct (Ascii.eqb (peek s) "%").
  - pose proof (opl_parse_escaped_within (tail s) result) as He.
    destruct (opl_parse_escaped (tail s) result) as [[s1 r1]|e].
    + specialize (IH s1 r1).
      assert (s1 `suffix_of` s) as Hs1 by (etrans; [exact He | apply suffix_tail]).
      destruct (opl_parse_string_loop fuel s1 r1) as [[[s2 r2]|e]|];
        [etrans; eassumption | eapply error_within_suffix; eassumption | exact I].
    + eapply error_within_suffix; [apply suffix_tail | exact He].
  - specialize (IH (tail s) (result ++ [peek s])).
    destruct (opl_parse_string_loop fuel (tail s) (result ++ [peek s]))
      as [[[s2 r2]|e]|];
      [etrans; [exact IH | apply suffix_tail]
      | eapply error_within_suffix; [apply suffix_tail | exact IH]
      | exact I].
Qed.

Lemma opl_parse_string_within (s result : list ascii) :
  match opl_parse_string s result with
  | Some (Ok (s', _)) => s' `suffix_of` s
  | Some (Err e) => error_within s e
  | None => True
  end.
Proof. apply opl_parse_string_loop_within. Qed.

Lemma opl_parse_tags_loop_within (fuel : nat) :
  forall s builder,
    match opl_parse_tags_loop fuel s builder with
    | Some (Err e) => error_within s e
    | _ => True
    end.
Proof.
  induction fuel as [|fuel IH]; intros s builder; [exact I|].
  rewrite opl_parse_tags_loop_eq.
  pose proof (opl_parse_string_within s []) as H1.
  destruct (opl_parse_string s []) as [[[s1 key]|e]|]; [|exact H1|exact I].
  pose proof (opl_parse_char_within s1 "=") as H2.
  destruct (opl_parse_char s1 "=") as [s2|e];
    [|eapply error_within_suffix; eassumption].
  assert (s2 `suffix_of` s) as Hs2 by (etrans; eassumption).
  pose proof (opl_parse_string_within s2 []) as H3.
  destruct (opl_parse_string s2 []) as [[[s3 value]|e]|];
    [|eapply error_within_suffix; eassumption|exact I].
  assert (s3 `suffix_of` s) as Hs3 by (etrans; eassumption).
  cbv zeta.
  destruct (Ascii.eqb (peek s3) " " || Ascii.eqb (peek s3) "009"
            || Ascii.eqb (peek s3) NUL); [exact I|].
  pose proof (opl_parse_char_within s3 ",") as H4.
  destruct (opl_parse_char s3 ",") as [s4|e];
    [|eapply error_within_suffix; eassumption].
  specialize (IH s4 (builder ++ [(key, value)])).
  destruct (opl_parse_tags_loop fuel s4 (builder ++ [(key, value)]))
    as [[ts|e]|]; try exact I.
  eapply error_within_suffix; [|exact IH]. etrans; eassumption.
Qed.

Lemma opl_parse_tags_within (s : list ascii) :
  match opl_parse_tags s with
  | Some (Err e) => error_within s e
  | _ => True
  end.
Proof. apply opl_parse_tags_loop_within. Qed.

Lemma opl_parse_relation_members_loop_within (fuel : nat) :
  forall s e builder,
    match opl_parse_relation_members_loop fuel s e builder with
    | Some (Err err) => error_within s err
    | _ => True
    end.
Proof.
  induction fuel as [|fuel IH]; intros s e builder; [exact I|].
  rewrite opl_parse_relation_members_loop_eq.
  destruct (ptr_ltb s e); [|exact I]. cbv zeta.
  destruct (negb (is_member_type (char_to_item_type (peek s))));
    [cbn; reflexivity|].
  pose proof (suffix_tail s) as H0.
  destruct (ptr_eqb (tail s) e); [exact H0|].
  pose proof (opl_parse_int_within object_id_type (tail s)) as H1.
  unfold opl_parse_id.
  destruct (opl_parse_int object_id_type (tail s)) as [[ref s1]|err];
    [|eapply error_within_suffix; eassumption].
  cbn in H1. assert (s1 `suffix_of` s) as Hs1 by (etrans; eassumption).
  pose proof (opl_parse_char_within s1 "@") as H2.
  destruct (opl_parse_char s1 "@") as [s2|err];
    [|eapply error_within_suffix; eassumption].
  assert (s2 `suffix_of` s) as Hs2 by (etrans; eassumption).
  destruct (ptr_eqb s2 e); [exact I|].
  pose proof (opl_parse_string_within s2 []) as H3.
  destruct (opl_parse_string s2 []) as [[[s3 role]|err]|];
    [|eapply error_within_suffix; eassumption|exact I].
  assert (s3 `suffix_of` s) as Hs3 by (etrans; eassumption).
  destruct (ptr_eqb s3 e); [exact I|].
  pose proof (opl_parse_char_within s3 ",") as H4.
  destruct (opl_parse_char s3 ",") as [s4|err];
    [|eapply error_within_suffix; eassumption].
  specialize (IH s4 e (builder ++ [(char_to_item_type (peek s), ref, role)])).
  destruct (opl_parse_relation_members_loop fuel s4 e _) as [[ms|err]|];
    try exact I.
  eapply error_within_suffix; [|exact IH]. etrans; eassumption.
Qed.

Lemma opl_parse_relation_members_within (s e : list ascii) :
  match opl_parse_relation_members s e with
  | Some (Err err) => error_within s err
  | _ => True
  end.
Proof.
  unfold opl_parse_relation_members. destruct (ptr_eqb s e); [exact I|].
  pose proof (opl_parse_relation_members_loop_within (S (length s)) s e []) as H.
  destruct (opl_parse_relation_members_loop (S (length s)) s e [])
    as [[ms|err]|]; [exact I | exact H | exact I].
Qed.

(* ===================================================================== *)
(** ** OPL: the object parsers end, and their errors point into the line *)
(* ===================================================================== *)

Section OPL_objects_within.
Context `{Deps : OPLDeps}.
Hypothesis Hadvance : setters_advance.

Lemma suffix_length (s s' : list ascii) :
  s' `suffix_of` s -> (length s' <= length s)%nat.
Proof. intros [k ->]. rewrite length_app. lia. Qed.

Lemma opl_parse_timestamp_within (s : list ascii) :
  result_within s (opl_parse_timestamp s).
Proof.
  unfold opl_parse_timestamp.
  destruct (Ascii.eqb (peek s) NUL || Ascii.eqb (peek s) " "
            || Ascii.eqb (peek s) "009"); [cbn; reflexivity|].
  destruct (timestamp_of s); cbn; [|reflexivity].
  exists (take 20 s). symmetry. apply take_drop.
Qed.

Lemma locals_within_tell (line : list ascii) (c : builder_call) (st : locals) :
  locals_within line st -> locals_within line (tell c st).
Proof. intros H. exact H. Qed.

Lemma told_within {A : Type} (line data : list ascii)
    (r : Result opl_exception (A * list ascii)) (c : A -> builder_call)
    (st : locals) :
  data `suffix_of` line -> locals_within line st ->
  result_within data r ->
  step_within line data (told r c st).
Proof.
  intros Hd Hst Hr. unfold told. destruct r as [[v data']|e]; cbn in *.
  - split; [exact Hr | exact Hst].
  - eapply error_within_suffix; eassumption.
Qed.

Lemma user_attribute_within (line data : list ascii) (st : locals) :
  data `suffix_of` line -> locals_within line st ->
  step_within line data (user_attribute data st).
Proof.
  intros Hd Hst. unfold user_attribute.
  pose proof (opl_parse_string_within data (l_user st)) as H.
  destruct (opl_parse_string_total data (l_user st)) as [r E].
  rewrite E in *. destruct r as [[data' u]|e]; cbn.
  - split; [exact H | exact Hst].
  - eapply error_within_suffix; eassumption.
Qed.

Lemma tags_attribute_within (line data : list ascii) (st : locals) :
  data `suffix_of` line -> locals_within line st ->
  step_within line data (tags_attribute data st).
Proof.
  intros Hd (Ht & Hb & He). unfold tags_attribute.
  destruct (opl_non_empty data); cbn.
  - split; [apply opl_skip_section_suffix|].
    split; [|split]; cbn; try assumption.
    intros p Hp. injection Hp as <-. exact Hd.
  - split; [reflexivity|]. split; [|split]; assumption.
Qed.

Lemma section_attribute_within (line data : list ascii) (st : locals) :
  data `suffix_of` line -> locals_within line st ->
  step_within line data
    (Some (Ok (opl_skip_section data,
               with_section data (opl_skip_section data) st))).
Proof.
  intros Hd (Ht & Hb & He). cbn.
  split; [apply opl_skip_section_suffix|].
  split; [|split]; cbn; try assumption.
  - intros p Hp. injection Hp as <-. exact Hd.
  - intros p Hp. injection Hp as <-.
    etrans; [apply opl_skip_section_suffix | exact Hd].
Qed.

Lemma coordinate_attribute_within
    (set : Location -> list ascii -> Result string (Location * list ascii))
    (get : locals -> Location) (put : Location -> locals -> locals)
    (line data : list ascii) (st : locals) :
  (forall l s l' s', set l s = Ok (l', s') -> s' `suffix_of` s) ->
  (forall l, locals_within line st -> locals_within line (put l st)) ->
  data `suffix_of` line -> locals_within line st ->
  step_within line data (coordinate_attribute set get put data st).
Proof.
  intros Hset Hput Hd Hst. unfold coordinate_attribute.
  destruct (opl_non_empty data); [|cbn; split; [reflexivity | exact Hst]].
  destruct (set (get st) data) as [[l data']|what] eqn:E; cbn; [|exact I].
  split; [eapply Hset; exact E | apply Hput; exact Hst].
Qed.

Lemma lon_attribute_within (get : locals -> Location)
    (put : Location -> locals -> locals) (line data : list ascii)
    (st : locals) :
  (forall l, locals_within line st -> locals_within line (put l st)) ->
  data `suffix_of` line -> locals_within line st ->
  step_within line data (coordinate_attribute set_lon_partial get put data st).
Proof.
  apply coordinate_attribute_within.
  intros l s l' s'. apply (Hadvance l s l' s').
Qed.

Lemma lat_attribute_within (get : locals -> Location)
    (put : Location -> locals -> locals) (line data : list ascii)
    (st : locals) :
  (forall l, locals_within line st -> locals_within line (put l st)) ->
  data `suffix_of` line -> locals_within line st ->
  step_within line data (coordinate_attribute set_lat_partial get put data st).
Proof.
  apply coordinate_attribute_within.
  intros l s l' s'. apply (Hadvance l s l' s').
Qed.

Lemma unknown_attribute_within (line data : list ascii) (c : ascii) :
  c :: data `suffix_of` line ->
  step_within line data (unknown_attribute c data).
Proof. intros H. exact H. Qed.

Lemma object_attribute_within (line data : list ascii) (c : ascii)
    (st : locals) (r : Step) :
  data `suffix_of` line -> locals_within line st ->
  object_attribute c data st = Some r ->
  step_within line data r.
Proof.
  intros Hd Hst. unfold object_attribute.
  repeat match goal with
         | |- (if ?b then _ else _) = _ -> _ => destruct b
         end; intros H; try discriminate; injection H as <-.
  - apply told_within; try assumption. apply opl_parse_int_within.
  - apply told_within; try assumption. apply opl_parse_visible_within.
  - apply told_within; try assumption. apply opl_parse_int_within.
  - apply told_within; try assumption. apply opl_parse_timestamp_within.
  - apply told_within; try assumption. apply opl_parse_int_within.
  - apply user_attribute_within; assumption.
  - apply tags_attribute_within; assumption.
Qed.

Lemma node_attribute_within (line data : list ascii) (c : ascii)
    (st : locals) :
  c :: data `suffix_of` line -> locals_within line st ->
  step_within line data (node_attribute c data st).
Proof.
  intros Hc Hst.
  assert (data `suffix_of` line) as Hd
    by (etrans; [apply suffix_cons_r; reflexivity | exact Hc]).
  unfold node_attribute.
  destruct (object_attribute c data st) as [r|] eqn:E;
    [eapply object_attribute_within; eassumption|].
  destruct (Ascii.eqb c "x"); [apply lon_attribute_within; auto|].
  destruct (Ascii.eqb c "y"); [apply lat_attribute_within; auto|].
  apply unknown_attribute_within. exact Hc.
Qed.

Lemma way_attribute_within (line data : list ascii) (c : ascii)
    (st : locals) :
  c :: data `suffix_of` line -> locals_within line st ->
  step_within line data (way_attribute c data st).
Proof.
  intros Hc Hst.
  assert (data `suffix_of` line) as Hd
    by (etrans; [apply suffix_cons_r; reflexivity | exact Hc]).
  unfold way_attribute.
  destruct (object_attribute c data st) as [r|] eqn:E;
    [eapply object_attribute_within; eassumption|].
  destruct (Ascii.eqb c "N"); [apply section_attribute_within; assumption|].
  apply unknown_attribute_within. exact Hc.
Qed.

Lemma relation_attribute_within (line data : list ascii) (c : ascii)
    (st : locals) :
  c :: data `suffix_of` line -> locals_within line st ->
  step_within line data (relation_attribute c data st).
Proof.
  intros Hc Hst.
  assert (data `suffix_of` line) as Hd
    by (etrans; [apply suffix_cons_r; reflexivity | exact Hc]).
  unfold relation_attribute.
  destruct (object_attribute c data st) as [r|] eqn:E;
    [eapply object_attribute_within; eassumption|].
  destruct (Ascii.eqb c "M"); [apply section_attribute_within; assumption|].
  apply unknown_attribute_within. exact Hc.
Qed.

Lemma changeset_attribute_within (line data : list ascii) (c : ascii)
    (st : locals) :
  c :: data `suffix_of` line -> locals_within line st ->
  step_within line data (changeset_attribute c data st).
Proof.
  intros Hc Hst.
  assert (data `suffix_of` line) as Hd
    by (etrans; [apply suffix_cons_r; reflexivity | exact Hc]).
  unfold changeset_attribute.
  destruct (Ascii.eqb c "k");
    [apply told_within; try assumption; apply opl_parse_int_within|].
  destruct (Ascii.eqb c "s");
    [apply told_within; try assumption; apply opl_parse_timestamp_within|].
  destruct (Ascii.eqb c "e");
    [apply told_within; try assumption; apply opl_parse_timestamp_within|].
  destruct (Ascii.eqb c "d");
    [apply told_within; try assumption; apply opl_parse_int_within|].
  destruct (Ascii.eqb c "i");
    [apply told_within; try assumption; apply opl_parse_int_within|].
  destruct (Ascii.eqb c "u"); [apply user_attribute_within; assumption|].
  destruct (Ascii.eqb c "x"); [apply lon_attribute_within; auto|].
  destruct (Ascii.eqb c "y"); [apply lat_attribute_within; auto|].
  destruct (Ascii.eqb c "X"); [apply lon_attribute_within; auto|].
  destruct (Ascii.eqb c "Y"); [apply lat_attribute_within; auto|].
  destruct (Ascii.eqb c "T"); [apply tags_attribute_within; assumption|].
  apply unknown_attribute_within. exact Hc.
Qed.

Lemma opl_parse_space_shorter (s s' : list ascii) :
  opl_parse_space s = Ok s' -> (length s' < length s)%nat.
Proof.
  unfold opl_parse_space.
  destruct (negb (Ascii.eqb (peek s) " ") && negb (Ascii.eqb (peek s) "009"))
    eqn:E; [discriminate|].
  intros H. injection H as <-.
  destruct s as [|c s]; [discriminate E|].
  pose proof (suffix_length _ _ (skip_blanks_suffix s)). cbn. lia.
Qed.

(** The loop over the attributes, for a [switch] that behaves. *)
Lemma attributes_within
    (attribute : ascii -> list ascii -> locals -> Step) (line : list ascii) :
  (forall c data st,
     c :: data `suffix_of` line -> locals_within line st ->
     step_within line data (attribute c data st)) ->
  forall fuel data st,
    (length data < fuel)%nat ->
    data `suffix_of` line -> locals_within line st ->
    step_within line data (attributes attribute fuel data st).
Proof.
  intros Hattr. induction fuel as [|fuel IH]; intros data st Hfuel Hd Hst;
    [lia|].
  cbn [attributes].
  destruct (Ascii.eqb (peek data) NUL); [cbn; split; [reflexivity | exact Hst]|].
  pose proof (opl_parse_space_within data) as Hsp.
  destruct (opl_parse_space data) as [data1|e] eqn:Esp; cbn [lift Parser_bind];
    [|eapply error_within_suffix; eassumption].
  apply opl_parse_space_shorter in Esp.
  destruct (Ascii.eqb (peek data1) NUL) eqn:Enul;
    [cbn; split; [exact Hsp | exact Hst]|].
  assert (data1 = peek data1 :: tail data1) as Hcons.
  { apply peek_cons; [reflexivity|].
    intros E. rewrite E in Enul. discriminate. }
  assert (data1 `suffix_of` line) as Hd1 by (etrans; eassumption).
  pose proof (Hattr (peek data1) (tail data1) st
                ltac:(rewrite <- Hcons; exact Hd1) Hst) as Hstep.
  destruct (attribute (peek data1) (tail data1) st) as [[[data2 st2]|e]|];
    cbn [Parser_bind]; [|exact Hstep|exact Hstep].
  destruct Hstep as [Hd2 Hst2].
  assert (data2 `suffix_of` data1) as Hd21
    by (etrans; [exact Hd2 | apply suffix_tail]).
  pose proof (suffix_length _ _ Hd21).
  specialize (IH data2 st2 ltac:(lia) ltac:(etrans; eassumption) Hst2).
  destruct (attributes attribute fuel data2 st2) as [[[data3 st3]|e]|];
    cbn in *; [|exact IH|exact IH].
  destruct IH as [Hd3 Hst3]. split; [|exact Hst3].
  etrans; [exact Hd3|]. etrans; eassumption.
Qed.

Lemma locals_within_new (line : list ascii) (id : Z) :
  locals_within line (locals_new id).
Proof. repeat split; intros p Hp; discriminate Hp. Qed.

Lemma add_tags_from_within (line : list ascii) (st : locals) :
  locals_within line st -> parser_within line (add_tags_from st).
Proof.
  intros (Ht & _). unfold add_tags_from.
  destruct (l_tags_begin st) as [p|]; [|exact I].
  specialize (Ht p eq_refl).
  pose proof (opl_parse_tags_within p) as H.
  destruct (opl_parse_tags_total p) as [r E]. rewrite E in *.
  destruct r as [ts|e]; cbn; [exact I|].
  eapply error_within_suffix; eassumption.
Qed.

Lemma opl_parse_way_nodes_loop_within (fuel : nat) :
  forall s e builder,
    (length s < fuel)%nat ->
    parser_within s (opl_parse_way_nodes_loop fuel s e builder).
Proof.
  induction fuel as [|fuel IH]; intros s e builder Hfuel; [lia|].
  cbn [opl_parse_way_nodes_loop].
  destruct (ptr_ltb s e); [|exact I].
  pose proof (opl_parse_char_within s "n") as H1.
  destruct (opl_parse_char s "n") as [s1|err] eqn:E1; cbn [lift Parser_bind];
    [|exact H1].
  apply opl_parse_char_shorter_strict in E1; [|discriminate].
  destruct (ptr_eqb s1 e); [exact H1|].
  pose proof (opl_parse_int_within object_id_type s1) as H2.
  unfold opl_parse_id.
  destruct (opl_parse_int object_id_type s1) as [[ref s2]|err];
    cbn [lift Parser_bind]; [|eapply error_within_suffix; eassumption].
  cbn in H2. assert (s2 `suffix_of` s) as Hs2 by (etrans; eassumption).
  pose proof (suffix_length _ _ H2) as Hl2.
  destruct (ptr_eqb s2 e); [exact I|].
  assert (match (if Ascii.eqb (peek s2) "x"
                 then Parser_bind
                        (lift_location (set_lon_partial undefined_location (tail s2)))
                        (fun '(location, s) =>
                           if Ascii.eqb (peek s) "y"
                           then lift_location (set_lat_partial location (tail s))
                           else Some (Ok (location, s)))
                 else Some (Ok (undefined_location, s2)))
          with
          | Some (Ok (_, s3)) => s3 `suffix_of` s2
          | Some (Err err) => object_error_within s err
          | None => False
          end) as H3.
  { destruct (Ascii.eqb (peek s2) "x"); [|reflexivity].
    destruct (set_lon_partial undefined_location (tail s2)) as [[l s3]|what]
      eqn:Elon; cbn [lift_location Parser_bind]; [|exact I].
    apply (Hadvance undefined_location (tail s2) l s3) in Elon.
    assert (s3 `suffix_of` s2) as Hs3 by (etrans; [exact Elon | apply suffix_tail]).
    destruct (Ascii.eqb (peek s3) "y"); [|exact Hs3].
    destruct (set_lat_partial l (tail s3)) as [[l' s4]|what] eqn:Elat;
      cbn [lift_location]; [|exact I].
    apply (Hadvance l (tail s3) l' s4) in Elat.
    etrans; [exact Elat|]. etrans; [apply suffix_tail | exact Hs3]. }
  destruct (if Ascii.eqb (peek s2) "x" then _ else _) as [[[l s3]|err]|];
    cbn [Parser_bind]; [|exact H3|exact H3].
  assert (s3 `suffix_of` s) as Hs3 by (etrans; eassumption).
  pose proof (suffix_length _ _ H3) as Hl3.
  cbv zeta. destruct (ptr_eqb s3 e); [exact I|].
  pose proof (opl_parse_char_within s3 ",") as H4.
  destruct (opl_parse_char s3 ",") as [s4|err] eqn:E4; cbn [lift Parser_bind];
    [|eapply error_within_suffix; eassumption].
  apply opl_parse_char_shorter in E4.
  specialize (IH s4 e (builder ++ [(ref, l)]) ltac:(lia)).
  destruct (opl_parse_way_nodes_loop fuel s4 e (builder ++ [(ref, l)]))
    as [[ns|[err|what]]|]; cbn in *; try exact IH.
  eapply error_within_suffix; [|exact IH]. etrans; eassumption.
Qed.

Lemma opl_parse_way_nodes_within (s e : list ascii) :
  parser_within s (opl_parse_way_nodes s e).
Proof.
  unfold opl_parse_way_nodes. destruct (ptr_eqb s e); [exact I|].
  pose proof (opl_parse_way_nodes_loop_within (S (length s)) s e []
                ltac:(lia)) as H.
  destruct (opl_parse_way_nodes_loop (S (length s)) s e []) as [[ns|err]|];
    cbn in *; [exact I | exact H | exact H].
Qed.

Lemma parser_within_suffix {A : Type} (line s : list ascii) (r : Parser A) :
  s `suffix_of` line -> parser_within s r -> parser_within line r.
Proof.
  intros Hs. destruct r as [[a|[e|what]]|]; cbn; try auto.
  apply error_within_suffix. exact Hs.
Qed.

(** An object parser: the id, the attributes, and what is done with the
    local variables behind the loop. *)
Lemma object_parser_within {A : Type} (T : IntType)
    (attribute : ascii -> list ascii -> locals -> Step)
    (finish : list ascii -> locals -> Parser A) (line : list ascii) :
  (forall line c data st,
     c :: data `suffix_of` line -> locals_within line st ->
     step_within line data (attribute c data st)) ->
  (forall data st, locals_within line st -> parser_within line (finish data st)) ->
  parser_within line
    (Parser_bind (lift (opl_parse_int T line)) (fun '(id, data) =>
     Parser_bind (attributes attribute (S (length data)) data (locals_new id))
       (fun '(data, st) => finish data st))).
Proof.
  intros Hattr Hfinish.
  pose proof (opl_parse_int_within T line) as Hid.
  destruct (opl_parse_int T line) as [[id data]|e]; cbn [lift Parser_bind];
    [|exact Hid].
  cbn in Hid.
  pose proof (attributes_within attribute line (Hattr line)
                (S (length data)) data (locals_new id) ltac:(lia) Hid
                (locals_within_new line id)) as Hloop.
  destruct (attributes attribute (S (length data)) data (locals_new id))
    as [[[data' st]|e]|]; cbn [Parser_bind]; [|exact Hloop|exact Hloop].
  destruct Hloop as [_ Hst]. apply Hfinish. exact Hst.
Qed.

Lemma opl_parse_node_within (line : list ascii) :
  parser_within line (opl_parse_node line).
Proof.
  unfold opl_parse_node, opl_parse_id.
  apply (object_parser_within object_id_type node_attribute
           (fun data st =>
              Parser_bind (add_tags_from st) (fun tags =>
              Some (Ok (data, l_calls st
                              ++ (if valid (l_location st)
                                  then [set_location (l_location st)] else [])
                              ++ [add_user (l_user st)] ++ tags))))).
  - intros l c data st. apply node_attribute_within.
  - intros data st Hst. pose proof (add_tags_from_within line st Hst) as H.
    destruct (add_tags_from st) as [[tags|e]|]; cbn in *; auto.
Qed.

Lemma opl_parse_way_within (line : list ascii) :
  parser_within line (opl_parse_way line).
Proof.
  unfold opl_parse_way, opl_parse_id.
  apply (object_parser_within object_id_type way_attribute
           (fun data st =>
              Parser_bind (add_tags_from st) (fun tags =>
              Parser_bind
                (match l_section_begin st, l_section_end st with
                 | Some s, Some e => opl_parse_way_nodes s e
                 | _, _ => Some (Ok None)
                 end)
                (fun nodes =>
                   Some (Ok (data,
                             l_calls st ++ [add_user (l_user st)] ++ tags
                             ++ match nodes with
                                | Some ns => [add_node_refs ns]
                                | None => []
                                end)))))).
  - intros l c data st. apply way_attribute_within.
  - intros data st Hst. pose proof (add_tags_from_within line st Hst) as H.
    destruct (add_tags_from st) as [[tags|e]|]; cbn [Parser_bind] in *; auto.
    destruct Hst as (_ & Hb & _).
    destruct (l_section_begin st) as [s|]; [|exact I].
    destruct (l_section_end st) as [e|]; [|exact I].
    pose proof (parser_within_suffix line s _ (Hb s eq_refl)
                  (opl_parse_way_nodes_within s e)) as Hn.
    destruct (opl_parse_way_nodes s e) as [[ns|err]|]; cbn in *; auto.
Qed.

Lemma opl_parse_relation_within (line : list ascii) :
  parser_within line (opl_parse_relation line).
Proof.
  unfold opl_parse_relation, opl_parse_id.
  apply (object_parser_within object_id_type relation_attribute
           (fun data st =>
              Parser_bind (add_tags_from st) (fun tags =>
              Parser_bind
                (match l_section_begin st, l_section_end st with
                 | Some s, Some e =>
                   if negb (ptr_eqb s e)
                   then
                     match opl_parse_relation_members s e with
                     | None => None
                     | Some (Err err) => Some (Err (parse_error err))
                     | Some (Ok members) => Some (Ok members)
                     end
                   else Some (Ok None)
                 | _, _ => Some (Ok None)
                 end)
                (fun members =>
                   Some (Ok (data,
                             l_calls st ++ [add_user (l_user st)] ++ tags
                             ++ match members with
                                | Some ms => [add_members ms]
                                | None => []
                                end)))))).
  - intros l c data st. apply relation_attribute_within.
  - intros data st Hst. pose proof (add_tags_from_within line st Hst) as H.
    destruct (add_tags_from st) as [[tags|e]|]; cbn [Parser_bind] in *; auto.
    destruct Hst as (_ & Hb & _).
    destruct (l_section_begin st) as [s|]; [|exact I].
    destruct (l_section_end st) as [e|]; [|exact I].
    destruct (negb (ptr_eqb s e)); [|exact I].
    pose proof (opl_parse_relation_members_within s e) as Hm.
    destruct (opl_parse_relation_members_total s e) as [r E]. rewrite E in *.
    destruct r as [ms|err]; cbn in *; [exact I|].
    eapply error_within_suffix; [exact (Hb s eq_refl) | exact Hm].
Qed.

Lemma opl_parse_changeset_within (line : list ascii) :
  parser_within line (opl_parse_changeset line).
Proof.
  unfold opl_parse_changeset, opl_parse_changeset_id.
  apply (object_parser_within changeset_id_type changeset_attribute
           (fun data st =>
              Parser_bind (add_tags_from st) (fun tags =>
              Some (Ok (data, l_calls st
                              ++ (if valid (l_location st) && valid (l_location2 st)
                                  then [bounds_extend (l_location st);
                                        bounds_extend (l_location2 st)]
                                  else [])
                              ++ [add_user (l_user st)] ++ tags))))).
  - intros l c data st. apply changeset_attribute_within.
  - intros data st Hst. pose proof (add_tags_from_within line st Hst) as H.
    destruct (add_tags_from st) as [[tags|e]|]; cbn in *; auto.
Qed.

End OPL_objects_within.

(* ===================================================================== *)
(** ** OPL: what [opl_parse_line] can do                                 *)
(* ===================================================================== *)

Section OPL_line.
Context `{Deps : OPLDeps}.

Lemma parse_object_outcome (line_count : Z) (start : list ascii)
    (wanted : bool)
    (parse : list ascii -> Parser (list ascii * list builder_call))
    (make : list builder_call -> object) :
  parser_within (tail start) (parse (tail start)) ->
  is_Some (parse_object line_count start wanted parse make)
  /\ (forall line column edata msg,
        parse_object line_count start wanted parse make
        = Some (Err (opl_error_at line column edata msg)) ->
        line = line_count
        /\ exists before what,
             start = before ++ edata
             /\ column = Z.of_nat (length before)
             /\ msg = "OPL error: " +:+ what +:+ " on line "
                      +:+ pretty line_count +:+ " column " +:+ pretty column)
  /\ (forall obj,
        parse_object line_count start wanted parse make = Some (Ok (Some obj)) ->
        wanted = true /\ exists calls, obj = make calls).
Proof.
  intros Hw. unfold parse_object.
  destruct wanted; [|split; [eauto | split; intros; discriminate]].
  destruct (parse (tail start)) as [[[data' calls]|e]|]; [| |contradiction].
  - split; [eauto|]. split; [intros; discriminate|].
    intros obj H. injection H as <-. eauto.
  - split; [eauto|]. split; [|intros; discriminate].
    intros line column edata msg H.
    destruct e as [[what d|cp]|what]; unfold locate, set_pos in H;
      try discriminate.
    injection H as <- <- <- <-.
    split; [reflexivity|]. cbn in Hw.
    assert (d `suffix_of` start) as [before ->]
      by (etrans; [exact Hw | apply suffix_tail]).
    exists before, what. split; [reflexivity|].
    rewrite length_app.
    replace (Z.of_nat (length before + length d) - Z.of_nat (length d))
      with (Z.of_nat (length before)) by lia.
    auto.
Qed.


End OPL_line.

Lemma example_setters_advance : @setters_advance example_deps.
Proof.
  intros l s l' s'. cbn. unfold example_coordinate.
  pose proof (opl_parse_int_within int32_T s) as H.
  destruct (opl_parse_int int32_T s) as [[v s1]|e]; cbn in H;
    split; intros E; try discriminate; injection E as _ <-; exact H.
Qed.

